(** * Algo2e-2-Cpp: the parser's type resolution and the C++ generator

    A shallow embedding of [parser.py], [control_flow/if.py],
    [control_flow/for.py] and of the request path of [server.py].

    The grammar actions of [parser.py] run bottom-up, left to right, while
    PLY reduces the productions; they read and write the module globals
    [symbol_table], [has_return] and [type_provider].  Here the globals are
    the fields of a record that every action threads, an exception is a
    result that keeps the globals as they were when it was raised, and the
    derivation PLY builds for a token stream is a tree with one constructor
    per production, which the actions fold in PLY's reduction order.

    A text is modelled by a string of 8-bit characters, each standing for
    the code point of its number: the texts of the tokens are ASCII, and an
    answer of a provider is any text of code points below 256. *)

From Stdlib Require Import String Ascii List ZArith Bool Lia DecimalString.
Import ListNotations.
#[local] Set Warnings "-register-all".
Local Open Scope list_scope.
Local Open Scope string_scope.

(** ** Python values and string methods *)

(** The values that reach [infer_type] and [handle_assignment]: the value of
    a NUMBER token (an [int] or a [float]) or a [str].  The parser only
    applies [isinstance] and [str] to a float, so a float is represented by
    the text [str] gives for it. *)
Inductive pyval : Type :=
| PInt (n : Z)
| PFloat (repr : string)
| PStr (s : string).

(** [str(value)] *)
Definition py_str (v : pyval) : string :=
  match v with
  | PInt n => NilZero.string_of_int (Z.to_int n)
  | PFloat repr => repr
  | PStr s => s
  end.

Definition ascii_in (lo hi : nat) (c : ascii) : bool :=
  (lo <=? nat_of_ascii c)%nat && (nat_of_ascii c <=? hi)%nat.

(** [str.isspace] on one character, which is what [str.strip] removes: tab
    to carriage return (9..13), the four separators 28..31, the blank (32),
    the next-line control U+0085 (133) and the no-break space U+00A0
    (160).  These are all the characters below 256 that Python counts as
    whitespace. *)
Definition py_isspace (c : ascii) : bool :=
  ascii_in 9 13 c || ascii_in 28 32 c || ascii_in 133 133 c
  || ascii_in 160 160 c.

Fixpoint lstrip (s : string) : string :=
  match s with
  | String c r => if py_isspace c then lstrip r else s
  | EmptyString => EmptyString
  end.

(** Drops the blanks at the end: a blank character is kept only when
    something that is not blank follows it. *)
Fixpoint rstrip (s : string) : string :=
  match s with
  | String c r =>
      match rstrip r with
      | EmptyString => if py_isspace c then EmptyString else String c EmptyString
      | r' => String c r'
      end
  | EmptyString => EmptyString
  end.

(** [s.strip()] *)
Definition strip (s : string) : string := rstrip (lstrip s).

(** The double quote character. *)
Definition dquote : ascii := ascii_of_nat 34.

(** [s.startswith(c)] and [s.endswith(c)] for a one-character [c]. *)
Definition startswith (c : ascii) (s : string) : bool :=
  match s with
  | String c' _ => Ascii.eqb c' c
  | EmptyString => false
  end.

Fixpoint endswith (c : ascii) (s : string) : bool :=
  match s with
  | String c' EmptyString => Ascii.eqb c' c
  | String _ r => endswith c r
  | EmptyString => false
  end.

Definition is_alpha_ (c : ascii) : bool :=
  ascii_in 65 90 c || ascii_in 97 122 c || Ascii.eqb c "_"%char.

Definition is_alnum_ (c : ascii) : bool :=
  is_alpha_ c || ascii_in 48 57 c.

Fixpoint all_chars (p : ascii -> bool) (s : string) : bool :=
  match s with
  | String c r => p c && all_chars p r
  | EmptyString => true
  end.

(** [s.isidentifier()] on ASCII text: the shape of [_id_pattern]. *)
Definition isidentifier (s : string) : bool :=
  match s with
  | String c r => is_alpha_ c && all_chars is_alnum_ r
  | EmptyString => false
  end.

(** [" " * n] *)
Fixpoint spaces (n : nat) : string :=
  match n with
  | O => EmptyString
  | S k => " " ++ spaces k
  end.

(** [sep.join(parts)] *)
Fixpoint join (sep : string) (parts : list string) : string :=
  match parts with
  | [] => EmptyString
  | [p] => p
  | p :: rest => p ++ sep ++ join sep rest
  end.

(** [x in xs] for a list of strings. *)
Definition mem (x : string) (xs : list string) : bool :=
  existsb (String.eqb x) xs.

(** ** Python dictionaries keyed by strings

    A [dict] keeps its keys in insertion order, and [generate_cpp] emits the
    declarations in that order, so the table is an association list: storing
    under a key that is present replaces the value where it stands, storing
    under a new key appends. *)
Definition dict : Type := list (string * string).

(** [d.get(k)] *)
Fixpoint dict_get (d : dict) (k : string) : option string :=
  match d with
  | [] => None
  | (k', v) :: r => if String.eqb k' k then Some v else dict_get r k
  end.

(** [k in d] *)
Definition dict_in (k : string) (d : dict) : bool :=
  match dict_get d k with Some _ => true | None => false end.

(** [d[k] = v] *)
Fixpoint dict_set (d : dict) (k v : string) : dict :=
  match d with
  | [] => [(k, v)]
  | (k', v') :: r =>
      if String.eqb k' k then (k', v) :: r else (k', v') :: dict_set r k v
  end.

(** [d.pop(k)], as to the dictionary that is left. *)
Fixpoint dict_remove (d : dict) (k : string) : dict :=
  match d with
  | [] => []
  | (k', v') :: r =>
      if String.eqb k' k then r else (k', v') :: dict_remove r k
  end.

Definition keys (d : dict) : list string := map fst d.

(** ** Exceptions, the module globals and the monad of the actions *)

Inductive exn : Type :=
| MissingTypeError (var : string)
| KeyError (key : string)
| IndexError.

(** A type provider as [register_type_provider] documents it: called with
    the variable name and the list of valid datatypes, it returns a string or
    raises. *)
Definition provider : Type := string -> list string -> exn + string.

(** The globals of [parser.py].  [oracle_calls] is a ghost field: the names
    the provider was called with, oldest first. *)
Record globals : Type := mkGlobals {
  symbol_table : dict;
  has_return : bool;
  type_provider : option provider;
  oracle_calls : list string
}.

Inductive result (A : Type) : Type :=
| Ok (a : A)
| Raise (e : exn).
Arguments Ok {A} a.
Arguments Raise {A} e.

Definition M (A : Type) : Type := globals -> result A * globals.

Definition ret {A} (a : A) : M A := fun g => (Ok a, g).

Definition bind {A B} (m : M A) (k : A -> M B) : M B :=
  fun g =>
    match m g with
    | (Ok a, g') => k a g'
    | (Raise e, g') => (Raise e, g')
    end.

Definition raise {A} (e : exn) : M A := fun g => (Raise e, g).

Declare Scope py_scope.
Delimit Scope py_scope with py.
Notation "x <- m ;; k" := (bind m (fun x => k))
  (at level 61, m at next level, right associativity) : py_scope.
Notation "m ;; k" := (bind m (fun _ => k))
  (at level 61, right associativity) : py_scope.
Local Open Scope py_scope.

(** The globals with the table replaced. *)
Definition with_table (d : dict) (g : globals) : globals :=
  mkGlobals d (has_return g) (type_provider g) (oracle_calls g).

(** The globals after one more call of the provider, under the name [x]. *)
Definition logged (x : string) (g : globals) : globals :=
  mkGlobals (symbol_table g) (has_return g) (type_provider g)
            (oracle_calls g ++ [x])%list.

Definition get_table : M dict := fun g => (Ok (symbol_table g), g).

Definition set_table (d : dict) : M unit := fun g => (Ok tt, with_table d g).

Definition get_has_return : M bool := fun g => (Ok (has_return g), g).

Definition set_has_return (b : bool) : M unit :=
  fun g => (Ok tt, mkGlobals (symbol_table g) b (type_provider g) (oracle_calls g)).

(** [symbol_table[k] = v] *)
Definition table_store (k v : string) : M unit :=
  d <- get_table ;; set_table (dict_set d k v).

(** Calling the registered provider: the call is logged, then its answer or
    its exception comes back. *)
Definition call_provider (p : provider) (var : string) (valid : list string)
  : M string :=
  fun g =>
    match p var valid with
    | inr answer => (Ok answer, logged var g)
    | inl e => (Raise e, logged var g)
    end.

(** ** Type resolution *)

Definition valid_dtypes : list string :=
  ["int"; "float"; "string"; "long"; "char"; "array"; "vector"].

(** [register_type_provider(fn)] *)
Definition register_type_provider (fn : option provider) : M unit :=
  fun g => (Ok tt, mkGlobals (symbol_table g) (has_return g) fn (oracle_calls g)).

(** [infer_type(value)] *)
Definition infer_type (value : pyval) : option string :=
  match value with
  | PInt _ => Some "int"
  | PFloat _ => Some "float"
  | PStr s =>
      if startswith dquote s && endswith dquote s then Some "string"
      else if startswith "'"%char s && endswith "'"%char s then Some "char"
      else None
  end.

(** [ask_type(var)] *)
Definition ask_type (var : string) : M string :=
  fun g =>
    match type_provider g with
    | None => raise (MissingTypeError var) g
    | Some p =>
        (answer <- call_provider p var valid_dtypes ;;
         let dtype := strip answer in
         if mem dtype valid_dtypes then ret dtype
         else raise (MissingTypeError var)) g
    end.

(** The guarded store the parser repeats for a name that needs a type:
    [if var not in symbol_table: symbol_table[var] = ask_type(var)]. *)
Definition ensure_type (var : string) : M unit :=
  d <- get_table ;;
  if dict_in var d then ret tt
  else t <- ask_type var ;; table_store var t.

(** [handle_assignment(var, value, is_expression)] *)
Definition handle_assignment (var : string) (value : pyval)
  (is_expression : bool) : M string :=
  match value with
  | PInt _ | PFloat _ =>
      match infer_type value with
      | Some inferred => table_store var inferred
      | None => ret tt
      end
  | PStr s =>
      if negb is_expression && isidentifier s then
        ensure_type s ;;
        d <- get_table ;;
        match dict_get d s with
        | Some t => table_store var t
        | None => raise (KeyError s)
        end
      else ensure_type var
  end ;;
  ret (py_str value).

(** ** The derivations of the grammar

    One constructor per production of the docstrings of the [p_*] functions.
    PLY settles the conflicts of this grammar by shifting, and between two
    reductions by the production declared first: [x = 5;] and [x = y;] are
    derived by [p_statement_assign_simple], [return y;] and [return 5;] by
    the ID and NUMBER alternatives of [p_statement_return], and a loop
    header's [i = 0] by the NUMBER alternative of [p_for_init_opt]; an
    [expression] is reduced only when something other than one NUMBER or one
    ID stands there. *)

(** Modelled from the spec: the lexer is not among the sources; section 4.1
    of the specification has integer and float literals, and [infer_type]
    tests a value for [int] and for [float]: the value of a NUMBER token is
    one or the other. *)
Inductive number : Type :=
| NumInt (n : Z)
| NumFloat (repr : string).

Definition number_value (n : number) : pyval :=
  match n with
  | NumInt z => PInt z
  | NumFloat r => PFloat r
  end.

Inductive addop : Type := PLUS | MINUS.
Inductive mulop : Type := TIMES | DIVIDE | MOD.
Inductive relop : Type := LT | GT | LE | GE | EQ | NE.

(** Modelled from the spec: the lexer is not among the sources; the value of
    an operator token is the operator as section 4.1 of the specification
    writes it. *)
Definition addop_text (o : addop) : string :=
  match o with PLUS => "+" | MINUS => "-" end.

Definition mulop_text (o : mulop) : string :=
  match o with TIMES => "*" | DIVIDE => "/" | MOD => "%" end.

Definition relop_text (o : relop) : string :=
  match o with
  | LT => "<" | GT => ">" | LE => "<=" | GE => ">=" | EQ => "==" | NE => "!="
  end.

Inductive expression : Type :=
| ExprBinop (e : expression) (op : addop) (t : term)
| ExprTerm (t : term)
with term : Type :=
| TermBinop (t : term) (op : mulop) (f : factor)
| TermFactor (f : factor)
with factor : Type :=
| FactorNumber (n : number)
| FactorId (var : string)
| FactorGroup (e : expression).

Inductive condition : Type :=
| Condition (l : expression) (op : relop) (r : expression).

(** [for_init_opt] and [for_update_opt] have the same four alternatives. *)
Inductive for_assign : Type :=
| ForNumber (var : string) (n : number)
| ForId (var val : string)
| ForExpr (var : string) (e : expression)
| ForEmpty.

Inductive statement : Type :=
| StAssignNumber (var : string) (n : number)
| StAssignId (var val : string)
| StAssignExpr (var : string) (e : expression)
| StIf (c : condition) (body : list statement)
| StWhile (c : condition) (body : list statement)
| StFor (init : for_assign) (c : option condition) (update : for_assign)
        (body : list statement)
| StReturnId (val : string)
| StReturnNumber (n : number)
| StReturnExpr (e : expression).

(** [function : FN ID LPAREN param_list_opt RPAREN LBRACE stmt_list RBRACE] *)
Record function_def : Type := FunctionDef {
  fn_name : string;
  fn_params : list string;
  fn_body : list statement
}.

(** ** The nodes the actions build *)

Record assign_node : Type := AssignNode {
  var : string;
  value : string
}.

Inductive node : Type :=
| NFunction (name : string) (params : list string) (body : list node)
            (return_type : string)
| NAssign (a : assign_node)
| NIf (cond : string) (body : list node)
| NWhile (cond : string) (body : list node)
| NFor (init : option assign_node) (cond : option string)
       (update : option assign_node) (body : list node)
| NReturn (val : pyval).

(** ** Grammar actions *)

(** The reserved key of the pending return type. *)
Definition return_key : string := "__return_type__".

(** [p_factor_id] *)
Definition p_factor_id (var : string) : M string :=
  ensure_type var ;;
  ret var.

(** [p_expression_binop_addsub], [p_expression_term], [p_term_binop],
    [p_term_factor], [p_factor_number], [p_factor_id], [p_factor_group]:
    the left operand is reduced before the right one. *)
Fixpoint p_expression (e : expression) : M string :=
  match e with
  | ExprBinop e1 op t =>
      p1 <- p_expression e1 ;;
      p3 <- p_term t ;;
      ret (p1 ++ " " ++ addop_text op ++ " " ++ p3)
  | ExprTerm t => p_term t
  end
with p_term (t : term) : M string :=
  match t with
  | TermBinop t1 op f =>
      p1 <- p_term t1 ;;
      p3 <- p_factor f ;;
      ret (p1 ++ " " ++ mulop_text op ++ " " ++ p3)
  | TermFactor f => p_factor f
  end
with p_factor (f : factor) : M string :=
  match f with
  | FactorNumber n => ret (py_str (number_value n))
  | FactorId var => p_factor_id var
  | FactorGroup e => p2 <- p_expression e ;; ret ("(" ++ p2 ++ ")")
  end.

(** [p_condition] *)
Definition p_condition (c : condition) : M string :=
  match c with
  | Condition l op r =>
      p1 <- p_expression l ;;
      p3 <- p_expression r ;;
      ret (p1 ++ " " ++ relop_text op ++ " " ++ p3)
  end.

(** [p_condition_opt] *)
Definition p_condition_opt (c : option condition) : M (option string) :=
  match c with
  | Some c' => s <- p_condition c' ;; ret (Some s)
  | None => ret None
  end.

(** The test of [p_for_init_opt] and [p_for_update_opt] on the right-hand
    side. *)
Definition for_is_expr (val : pyval) : bool :=
  match val with
  | PInt _ | PFloat _ => false
  | PStr s => negb (isidentifier s)
  end.

(** What [p_for_init_opt] and [p_for_update_opt] do with the variable and
    the value of their first three alternatives. *)
Definition for_assign_action (var : string) (val : pyval)
  : M (option assign_node) :=
  normalized <- handle_assignment var val (for_is_expr val) ;;
  ret (Some (AssignNode var normalized)).

(** [p_for_init_opt] *)
Definition p_for_init_opt (a : for_assign) : M (option assign_node) :=
  match a with
  | ForEmpty => ret None
  | ForNumber var n => for_assign_action var (number_value n)
  | ForId var val => for_assign_action var (PStr val)
  | ForExpr var e => val <- p_expression e ;; for_assign_action var (PStr val)
  end.

(** [p_for_update_opt] *)
Definition p_for_update_opt (a : for_assign) : M (option assign_node) :=
  match a with
  | ForEmpty => ret None
  | ForNumber var n => for_assign_action var (number_value n)
  | ForId var val => for_assign_action var (PStr val)
  | ForExpr var e => val <- p_expression e ;; for_assign_action var (PStr val)
  end.

(** [p_statement_return], from the value [p[2]] on. *)
Definition p_statement_return (ret_val : pyval) : M node :=
  set_has_return true ;;
  d <- get_table ;;
  (if dict_in return_key d then ret tt
   else
     match infer_type ret_val with
     | Some inferred => table_store return_key inferred
     | None =>
         t <- ask_type "function_return_type" ;; table_store return_key t
     end) ;;
  ret (NReturn ret_val).

Section StmtList.
Variable p_statement : statement -> M node.

(** [p_stmt_list]: the nodes of the statements, in the order of the text. *)
Fixpoint p_stmt_list_with (l : list statement) : M (list node) :=
  match l with
  | [] => ret []
  | s :: r =>
      n <- p_statement s ;;
      ns <- p_stmt_list_with r ;;
      ret (n :: ns)
  end.
End StmtList.

(** [p_statement_assign_simple], [p_statement_assign_expr], [p_statement_if],
    [p_statement_while], [p_statement_for] and the three alternatives of
    [p_statement_return]. *)
Fixpoint p_statement (s : statement) : M node :=
  match s with
  | StAssignNumber var n =>
      normalized <- handle_assignment var (number_value n) false ;;
      ret (NAssign (AssignNode var normalized))
  | StAssignId var val =>
      normalized <- handle_assignment var (PStr val) false ;;
      ret (NAssign (AssignNode var normalized))
  | StAssignExpr var e =>
      val <- p_expression e ;;
      normalized <- handle_assignment var (PStr val) true ;;
      ret (NAssign (AssignNode var normalized))
  | StIf c body =>
      p3 <- p_condition c ;;
      p6 <- p_stmt_list_with p_statement body ;;
      ret (NIf p3 p6)
  | StWhile c body =>
      p3 <- p_condition c ;;
      p6 <- p_stmt_list_with p_statement body ;;
      ret (NWhile p3 p6)
  | StFor init c update body =>
      p3 <- p_for_init_opt init ;;
      p5 <- p_condition_opt c ;;
      p7 <- p_for_update_opt update ;;
      p10 <- p_stmt_list_with p_statement body ;;
      ret (NFor p3 p5 p7 p10)
  | StReturnId val => p_statement_return (PStr val)
  | StReturnNumber n => p_statement_return (number_value n)
  | StReturnExpr e => val <- p_expression e ;; p_statement_return (PStr val)
  end.

Definition p_stmt_list : list statement -> M (list node) :=
  p_stmt_list_with p_statement.

(** The loop of [p_function] over the parameters. *)
Fixpoint ensure_param_types (params : list string) : M unit :=
  match params with
  | [] => ret tt
  | param :: r =>
      ensure_type param ;;
      ensure_param_types r
  end.

(** [p_function], run once the parameter list and the body are reduced. *)
Definition p_function (f : function_def) : M node :=
  p7 <- p_stmt_list (fn_body f) ;;
  hr <- get_has_return ;;
  d <- get_table ;;
  ret_type <-
    (if hr && dict_in return_key d then
       match dict_get d return_key with
       | Some t => set_table (dict_remove d return_key) ;; ret t
       | None => raise (KeyError return_key)
       end
     else ret "void") ;;
  ensure_param_types (fn_params f) ;;
  ret (NFunction (fn_name f) (fn_params f) p7 ret_type).

(** [p_program] *)
Definition p_program (f : function_def) : M (list node) :=
  p1 <- p_function f ;; ret [p1].

(** [parse_code(code)]: both globals are reset, then the parser runs. *)
Definition parse_code (code : function_def) : M (list node) :=
  set_table [] ;;
  set_has_return false ;;
  p_program code.

(** ** C++ code generation *)

(** The line feed. *)
Definition nl : string := String (ascii_of_nat 10) EmptyString.

(** The truth value of a string. *)
Definition truthy (s : string) : bool :=
  match s with
  | EmptyString => false
  | String _ _ => true
  end.

(** [_format_for_assignment(assign_node, include_type)] *)
Definition _format_for_assignment (a : assign_node) (include_type : bool)
  : string :=
  var a ++ " = " ++ value a.

(** [generate_if_cpp] of [control_flow/if.py] *)
Definition generate_if_cpp (cond : string) (body : list node) (indent : nat)
  (generate_cpp : list node -> nat -> M string) : M string :=
  let space := spaces (indent * 4) in
  inner <- generate_cpp body (indent + 1)%nat ;;
  ret (space ++ "if (" ++ cond ++ ") {" ++ nl ++ inner ++ space ++ "}" ++ nl).

(** Modelled from the spec: [control_flow/while.py] is not among the sources;
    section 4.4 renders [while] as [if] is rendered, a header line and the
    braced body one level deeper. *)
Definition generate_while_cpp (cond : string) (body : list node) (indent : nat)
  (generate_cpp : list node -> nat -> M string) : M string :=
  let space := spaces (indent * 4) in
  inner <- generate_cpp body (indent + 1)%nat ;;
  ret (space ++ "while (" ++ cond ++ ") {" ++ nl ++ inner ++ space ++ "}" ++ nl).

(** The header line of [generate_for_cpp], without the indentation. *)
Definition for_header (init : option assign_node) (cond : option string)
  (update : option assign_node)
  (format_assignment : assign_node -> bool -> string) : string :=
  let init_part :=
    match init with
    | Some a => format_assignment a false
    | None => EmptyString
    end in
  let cond_part :=
    match cond with
    | Some c => c
    | None => EmptyString
    end in
  let update_part :=
    match update with
    | Some a => format_assignment a false
    | None => EmptyString
    end in
  "for (" ++ init_part ++ "; " ++ cond_part ++ "; " ++ update_part ++ ") {" ++ nl.

(** [generate_for_cpp] of [control_flow/for.py] *)
Definition generate_for_cpp (init : option assign_node) (cond : option string)
  (update : option assign_node) (body : list node) (indent : nat)
  (format_assignment : assign_node -> bool -> string)
  (generate_cpp : list node -> nat -> M string) : M string :=
  let space := spaces (indent * 4) in
  inner <- generate_cpp body (indent + 1)%nat ;;
  ret (space ++ for_header init cond update format_assignment
         ++ inner ++ space ++ "}" ++ nl).

(** The parameter loop of [generate_cpp]: a parameter without a type in the
    table is asked for and recorded. *)
Fixpoint param_parts (params : list string) : M (list string) :=
  match params with
  | [] => ret []
  | param :: r =>
      d <- get_table ;;
      dtype <-
        (let dtype := match dict_get d param with
                      | Some t => t
                      | None => EmptyString
                      end in
         if truthy dtype then ret dtype
         else t <- ask_type param ;; table_store param t ;; ret t) ;;
      parts <- param_parts r ;;
      ret ((dtype ++ " " ++ param) :: parts)
  end.

(** The loop that collects the variables to declare: the entries of the
    table, in its order, that are not declared yet and have a type.  The
    second component is [func_declared] after the loop. *)
Fixpoint vars_to_declare (items : dict) (func_declared : list string)
  : list (string * string) * list string :=
  match items with
  | [] => ([], func_declared)
  | (v, dtype) :: r =>
      if negb (mem v func_declared) && truthy dtype then
        let (vs, fd) := vars_to_declare r (v :: func_declared) in
        ((v, dtype) :: vs, fd)
      else vars_to_declare r func_declared
  end.

(** One declaration line, at the indentation of the function body. *)
Definition declaration_line (indent : nat) (vd : string * string) : string :=
  spaces ((indent + 1) * 4) ++ snd vd ++ " " ++ fst vd ++ ";" ++ nl.

(** The declarations at the top of the function, with the blank line that
    follows them when there is one at least. *)
Definition declarations (indent : nat) (vs : list (string * string)) : string :=
  match vs with
  | [] => EmptyString
  | _ => String.concat EmptyString (map (declaration_line indent) vs) ++ nl
  end.

Section GenerateList.
Variable generate_stmt : node -> nat -> list string -> M string.

(** The loop of [generate_cpp] over [parsed]. *)
Fixpoint generate_cpp_with (parsed : list node) (indent : nat)
  (declared : list string) : M string :=
  match parsed with
  | [] => ret EmptyString
  | stmt :: r =>
      piece <- generate_stmt stmt indent declared ;;
      others <- generate_cpp_with r indent declared ;;
      ret (piece ++ others)
  end.
End GenerateList.

(** The body of the loop of [generate_cpp], by the type of the node. *)
Fixpoint generate_stmt (stmt : node) (indent : nat) (declared : list string)
  : M string :=
  let space := spaces (indent * 4) in
  match stmt with
  | NFunction name params body return_type =>
      parts <- param_parts params ;;
      let param_sig := join ", " parts in
      let head := return_type ++ " " ++ name ++ "(" ++ param_sig ++ ") {" ++ nl in
      d <- get_table ;;
      let (vs, func_declared) := vars_to_declare d params in
      inner <- generate_cpp_with generate_stmt body (indent + 1)%nat func_declared ;;
      ret (head ++ declarations indent vs ++ inner ++ "}" ++ nl ++ nl)
  | NAssign a =>
      ret (space ++ _format_for_assignment a false ++ ";" ++ nl)
  | NIf cond body =>
      generate_if_cpp cond body indent
        (fun b ind => generate_cpp_with generate_stmt b ind declared)
  | NWhile cond body =>
      generate_while_cpp cond body indent
        (fun b ind => generate_cpp_with generate_stmt b ind declared)
  | NFor init cond update body =>
      generate_for_cpp init cond update body indent _format_for_assignment
        (fun b ind => generate_cpp_with generate_stmt b ind declared)
  | NReturn val =>
      ret (space ++ "return " ++ py_str val ++ ";" ++ nl)
  end.

(** [generate_cpp(parsed, indent, declared)] *)
Definition generate_cpp (parsed : list node) (indent : nat)
  (declared : list string) : M string :=
  generate_cpp_with generate_stmt parsed indent declared.

(** The [header] of [to_cpp]. *)
Definition cpp_header : string :=
  "#include <bits/stdc++.h>" ++ nl ++ "using namespace std;" ++ nl ++ nl.

(** The [main] of [to_cpp], calling the function of the given name. *)
Definition cpp_main (name : string) : string :=
  "int main() {" ++ nl ++ "    " ++ name ++ "();" ++ nl
    ++ "    return 0;" ++ nl ++ "}" ++ nl.

(** [to_cpp(parsed)] *)
Definition to_cpp (parsed : list node) : M string :=
  body <- generate_cpp parsed 0 [] ;;
  name <-
    match parsed with
    | [] => raise IndexError
    | NFunction name _ _ _ :: _ => ret name
    | _ :: _ => raise (KeyError "name")
    end ;;
  ret (cpp_header ++ body ++ cpp_main name).

(** ** The request path of [server.py] *)

(** A value of the JSON object of type hints. *)
Inductive json : Type :=
| JString (s : string)
| JOther.

(** [make_http_type_provider(type_hints)], for [type_hints] a dict, given
    by its entries, each key once. *)
Definition make_http_type_provider (type_hints : list (string * json))
  : provider :=
  fun var allowed =>
    match find (fun kv => String.eqb (fst kv) var) type_hints with
    | Some (_, JString dtype) =>
        if mem dtype allowed then inr dtype else inl (MissingTypeError var)
    | _ => inl (MissingTypeError var)
    end.

(** The two calls every caller makes: [parse_code] and then [to_cpp] on its
    result; an exception of the first leaves the second uncalled. *)
Definition parse_then_emit (code : function_def) : M string :=
  parsed <- parse_code code ;;
  to_cpp parsed.

(** The outcome of [convert]: the generated text, or the error reported. *)
Definition convert (type_hints : list (string * json)) (code : function_def)
  : M string :=
  register_type_provider (Some (make_http_type_provider type_hints)) ;;
  parse_then_emit code.

(** The globals of a freshly imported module. *)
Definition initial_globals : globals := mkGlobals [] false None [].

(** The globals with a provider registered. *)
Definition globals_with (p : option provider) : globals :=
  mkGlobals [] false p [].

(** ** Inputs of the examples *)

(** A provider that answers every name with the given text. *)
Definition always (answer : string) : provider := fun _ _ => inr answer.


(** Scenario 2 of the specification: [fn f() { x = 5; y = x; return y; }] *)
Definition scenario_two : function_def :=
  FunctionDef "f" []
    [StAssignNumber "x" (NumInt 5); StAssignId "y" "x"; StReturnId "y"].

(** Scenario 4 of the specification, a variable met in a condition only:
    [fn f() { if (z < 1) { } }] *)
Definition scenario_four : function_def :=
  FunctionDef "f" []
    [StIf (Condition (ExprTerm (TermFactor (FactorId "z"))) LT
                     (ExprTerm (TermFactor (FactorNumber (NumInt 1)))))
          []].


(** ** Names in a derivation *)

(** The identifiers that stand as operands, in the order of the text. *)
Fixpoint expression_ids (e : expression) : list string :=
  match e with
  | ExprBinop e1 _ t => (expression_ids e1 ++ term_ids t)%list
  | ExprTerm t => term_ids t
  end
with term_ids (t : term) : list string :=
  match t with
  | TermBinop t1 _ f => (term_ids t1 ++ factor_ids f)%list
  | TermFactor f => factor_ids f
  end
with factor_ids (f : factor) : list string :=
  match f with
  | FactorNumber _ => []
  | FactorId x => [x]
  | FactorGroup e => expression_ids e
  end.

(** The text the actions build for an expression. *)
Fixpoint expression_text (e : expression) : string :=
  match e with
  | ExprBinop e1 op t =>
      expression_text e1 ++ " " ++ addop_text op ++ " " ++ term_text t
  | ExprTerm t => term_text t
  end
with term_text (t : term) : string :=
  match t with
  | TermBinop t1 op f => term_text t1 ++ " " ++ mulop_text op ++ " " ++ factor_text f
  | TermFactor f => factor_text f
  end
with factor_text (f : factor) : string :=
  match f with
  | FactorNumber n => py_str (number_value n)
  | FactorId x => x
  | FactorGroup e => "(" ++ expression_text e ++ ")"
  end.

Definition condition_ids (c : condition) : list string :=
  match c with
  | Condition l _ r => (expression_ids l ++ expression_ids r)%list
  end.

Definition condition_opt_ids (c : option condition) : list string :=
  match c with
  | Some c' => condition_ids c'
  | None => []
  end.

(** The name [handle_assignment] reads the type from, when the right-hand
    side is taken for an identifier. *)
Definition source_ids (val : string) : list string :=
  if isidentifier val then [val] else [].

Definition for_assign_targets (a : for_assign) : list string :=
  match a with
  | ForEmpty => []
  | ForNumber x _ | ForId x _ | ForExpr x _ => [x]
  end.

Definition for_assign_ids (a : for_assign) : list string :=
  match a with
  | ForEmpty => []
  | ForNumber x _ => [x]
  | ForId x val => x :: source_ids val
  | ForExpr x e => (expression_ids e ++ x :: source_ids (expression_text e))%list
  end.

(** The names a statement assigns to. *)
Fixpoint statement_targets (s : statement) : list string :=
  match s with
  | StAssignNumber x _ | StAssignId x _ | StAssignExpr x _ => [x]
  | StIf _ body | StWhile _ body => flat_map statement_targets body
  | StFor init _ update body =>
      (for_assign_targets init ++ for_assign_targets update
         ++ flat_map statement_targets body)%list
  | StReturnId _ | StReturnNumber _ | StReturnExpr _ => []
  end.

(** The names a statement gives a type to: its targets, the identifiers it
    copies a type from and the operands of its expressions and conditions.
    The identifier of [return y;] is not among them. *)
Fixpoint statement_ids (s : statement) : list string :=
  match s with
  | StAssignNumber x _ => [x]
  | StAssignId x val => x :: source_ids val
  | StAssignExpr x e => (expression_ids e ++ [x])%list
  | StIf c body | StWhile c body =>
      (condition_ids c ++ flat_map statement_ids body)%list
  | StFor init c update body =>
      (for_assign_ids init ++ condition_opt_ids c ++ for_assign_ids update
         ++ flat_map statement_ids body)%list
  | StReturnId _ | StReturnNumber _ => []
  | StReturnExpr e => expression_ids e
  end.

(** Whether a [return] stands in the statement, at any depth. *)
Fixpoint contains_return (s : statement) : bool :=
  match s with
  | StReturnId _ | StReturnNumber _ | StReturnExpr _ => true
  | StIf _ body | StWhile _ body | StFor _ _ _ body => existsb contains_return body
  | StAssignNumber _ _ | StAssignId _ _ | StAssignExpr _ _ => false
  end.

Definition body_targets (body : list statement) : list string :=
  flat_map statement_targets body.

Definition body_ids (body : list statement) : list string :=
  flat_map statement_ids body.

Definition body_returns (body : list statement) : bool :=
  existsb contains_return body.

(** The keys a run of the body may add to the table: the names it gives a
    type to, and the reserved key when a [return] stands in it. *)
Definition body_keys (body : list statement) : list string :=
  (body_ids body ++ if body_returns body then [return_key] else [])%list.

(** ** Predicates on actions *)

(** Two states of the globals that differ in the ghost log at most. *)
Definition same_state (g1 g2 : globals) : Prop :=
  symbol_table g1 = symbol_table g2 /\
  has_return g1 = has_return g2 /\
  type_provider g1 = type_provider g2.

(** An action that does not look at the ghost log. *)
Definition log_blind {A} (m : M A) : Prop :=
  forall g1 g2,
    same_state g1 g2 ->
    fst (m g1) = fst (m g2) /\ same_state (snd (m g1)) (snd (m g2)).

(** Every recorded type is a text that is not empty. *)
Definition table_ok (d : dict) : Prop :=
  forall k v, In (k, v) d -> truthy v = true.

(** An action that leaves the provider registered, removes no key, writes
    only under the keys of [T] or, when the key is new, of [N], records no
    empty type, and leaves the flag [has_return] as it is or, when [rf]
    allows it, raised.  It holds of an action however it ends. *)
Definition frames_at {A} (rf : bool) (T N : list string) (m : M A)
  (g : globals) : Prop :=
  let g' := snd (m g) in
  type_provider g' = type_provider g /\
  (has_return g' = has_return g \/ rf = true /\ has_return g' = true) /\
  (forall k, dict_in k (symbol_table g) = true ->
             dict_in k (symbol_table g') = true) /\
  (forall k, ~ In k T ->
             dict_in k (symbol_table g) = true \/ ~ In k N ->
             dict_get (symbol_table g') k = dict_get (symbol_table g) k) /\
  (table_ok (symbol_table g) -> table_ok (symbol_table g')).

Definition frames {A} (rf : bool) (T N : list string) (m : M A) : Prop :=
  forall g, frames_at rf T N m g.

(** An action that removes no key and does not lower the flag. *)
Definition grows {A} (m : M A) : Prop :=
  forall g,
    (forall k, dict_in k (symbol_table g) = true ->
               dict_in k (symbol_table (snd (m g))) = true) /\
    (has_return g = true -> has_return (snd (m g)) = true).

(** An action after whose success every key of [N] has a type and, when [rf]
    says so, the flag [has_return] is raised and the reserved key has a
    type. *)
Definition ensures {A} (rf : bool) (N : list string) (m : M A) : Prop :=
  forall g a g',
    m g = (Ok a, g') ->
    (rf = true ->
     has_return g' = true /\ dict_in return_key (symbol_table g') = true) /\
    (forall k, In k N -> dict_in k (symbol_table g') = true).


(** The globals as [parse_code] makes them before the parser runs. *)
Definition reset_globals (g : globals) : globals :=
  mkGlobals [] false (type_provider g) (oracle_calls g).

(** The return type [p_function] takes out of the globals [g] the body has
    left, and the globals after that. *)
Definition promoted (g : globals) : bool :=
  has_return g && dict_in return_key (symbol_table g).

Definition promoted_type (g : globals) : string :=
  match dict_get (symbol_table g) return_key with
  | Some t => if has_return g then t else "void"
  | None => "void"
  end.

Definition after_promotion (g : globals) : globals :=
  if promoted g then with_table (dict_remove (symbol_table g) return_key) g
  else g.


(** A variable named as the reserved key and no [return]:
    [fn f() { __return_type__ = 5; }] *)
Definition shadowed_key : function_def :=
  FunctionDef "f" [] [StAssignNumber return_key (NumInt 5)].

(** The source of a propagation assigned again:
    [fn f() { a = 5; b = a; a = 2.5; }] *)
Definition reassigned_source : function_def :=
  FunctionDef "f" []
    [StAssignNumber "a" (NumInt 5); StAssignId "b" "a";
     StAssignNumber "a" (NumFloat "2.5")].


(** A function that only returns a variable it never gave a type to:
    [fn f() { return y; }] *)
Definition return_only : function_def :=
  FunctionDef "f" [] [StReturnId "y"].

(** The names that have a declaration line, one entry per line. *)
Definition declared_names (vs : list (string * string)) : list string :=
  map fst vs.

(** How many declaration lines a name has. *)
Definition declaration_count (vs : list (string * string)) (k : string) : nat :=
  count_occ string_dec (declared_names vs) k.

(** The part of a loop header an assignment node is rendered to. *)
Definition header_part (a : option assign_node) : string :=
  match a with
  | Some n => var n ++ " = " ++ value n
  | None => EmptyString
  end.

(** ** Induction on expressions *)

Scheme expression_term_ind := Induction for expression Sort Prop
  with term_factor_ind := Induction for term Sort Prop
  with factor_expression_ind := Induction for factor Sort Prop.
Combined Scheme expression_mutual_ind
  from expression_term_ind, term_factor_ind, factor_expression_ind.


(** ** Predicates for the whole parse *)

(** Every recorded type is one of the valid datatypes. *)
Definition table_valid (d : dict) : Prop :=
  Forall (fun kv => mem (snd kv) valid_dtypes = true) d.

(** An action that records valid datatypes only. *)
Definition keeps_valid {A} (m : M A) : Prop :=
  forall g, table_valid (symbol_table g) ->
            table_valid (symbol_table (snd (m g))).

(** The name the return type is asked under. *)
Definition return_query : string := "function_return_type".

(** The names a parse may ask the provider about: the names the body gives a
    type to, the parameters and the name of the return type. *)
Definition program_names (code : function_def) : list string :=
  (body_ids (fn_body code) ++ fn_params code ++ [return_query])%list.

(** An action, run from [g], that leaves the provider registered and whose
    exception, if it raises one, is the one [ask_type] raises for a name of
    [N]. *)
Definition raises_from_at {A} (N : list string) (m : M A) (g : globals) : Prop :=
  type_provider (snd (m g)) = type_provider g /\
  forall e, fst (m g) = Raise e ->
            exists v, In v N /\ fst (ask_type v g) = Raise e.

Definition raises_from {A} (N : list string) (m : M A) : Prop :=
  forall g, raises_from_at N m g.


(** ** A rendering by lines *)

(** Whether a node is a statement at every depth, as the nodes
    [p_statement] builds are. *)
Fixpoint is_statement (n : node) : bool :=
  match n with
  | NFunction _ _ _ _ => false
  | NAssign _ | NReturn _ => true
  | NIf _ body | NWhile _ body | NFor _ _ _ body => forallb is_statement body
  end.

(** The lines of a statement, each with its nesting level and without its
    indentation and line feed: what [generate_cpp] is compared with. *)
Fixpoint statement_lines (n : node) (indent : nat) : list (nat * string) :=
  match n with
  | NFunction _ _ _ _ => []
  | NAssign a => [(indent, var a ++ " = " ++ value a ++ ";")]
  | NIf cond body =>
      (indent, "if (" ++ cond ++ ") {")
        :: (flat_map (fun s => statement_lines s (indent + 1)) body
              ++ [(indent, "}")])%list
  | NWhile cond body =>
      (indent, "while (" ++ cond ++ ") {")
        :: (flat_map (fun s => statement_lines s (indent + 1)) body
              ++ [(indent, "}")])%list
  | NFor init cond update body =>
      (indent,
       "for (" ++ header_part init ++ "; "
         ++ match cond with Some c => c | None => EmptyString end
         ++ "; " ++ header_part update ++ ") {")
        :: (flat_map (fun s => statement_lines s (indent + 1)) body
              ++ [(indent, "}")])%list
  | NReturn val => [(indent, "return " ++ py_str val ++ ";")]
  end.

Definition body_lines (body : list node) (indent : nat) : list (nat * string) :=
  flat_map (fun s => statement_lines s indent) body.

(** A line as it stands in the output: four blanks per level, the text, a
    line feed. *)
Definition line_text (l : nat * string) : string :=
  spaces (fst l * 4) ++ snd l ++ nl.

Definition lines_text (ls : list (nat * string)) : string :=
  String.concat EmptyString (map line_text ls).

(** The type the table records for a name, the empty text when it records
    none: [symbol_table.get(param, "")]. *)
Definition recorded_type (d : dict) (x : string) : string :=
  match dict_get d x with
  | Some t => t
  | None => EmptyString
  end.

(** The parameter signature built from the table. *)
Definition signature (d : dict) (params : list string) : string :=
  join ", " (map (fun p => recorded_type d p ++ " " ++ p) params).


(** The datatype an object of type hints gives for a name: the hint when it
    is a string and a valid datatype, nothing otherwise. *)
Definition hinted_type (hints : list (string * json)) (x : string)
  : option string :=
  match find (fun kv => String.eqb (fst kv) x) hints with
  | Some (_, JString t) => if mem t valid_dtypes then Some t else None
  | _ => None
  end.


(** ** Identifiers in a text *)

(** [_id_pattern.findall(s)]: the matches of [[A-Za-z_][A-Za-z0-9_]*] from
    left to right, each as long as it can be.  [ids_from] looks for the
    start of a match, [in_word] extends the match [acc]. *)
Fixpoint ids_from (s : string) : list string :=
  match s with
  | EmptyString => []
  | String c r =>
      if is_alpha_ c then in_word (String c EmptyString) r else ids_from r
  end
with in_word (acc : string) (s : string) : list string :=
  match s with
  | EmptyString => [acc]
  | String c r =>
      if is_alnum_ c then in_word (acc ++ String c EmptyString) r
      else acc :: ids_from r
  end.

(** [_identifiers_in_expr(expr)] *)
Definition _identifiers_in_expr (expr : pyval) : list string :=
  match expr with
  | PStr s => ids_from s
  | _ => []
  end.

(** A text at whose start no identifier can go on. *)
Definition breaks (s : string) : bool :=
  match s with
  | EmptyString => true
  | String c _ => negb (is_alnum_ c)
  end.

(** Whether every ID of an expression is an identifier, as the ID tokens of
    a lexer are. *)
Fixpoint identifier_operands (e : expression) : bool :=
  match e with
  | ExprBinop e1 _ t => identifier_operands e1 && identifier_operands_term t
  | ExprTerm t => identifier_operands_term t
  end
with identifier_operands_term (t : term) : bool :=
  match t with
  | TermBinop t1 _ f =>
      identifier_operands_term t1 && identifier_operands_factor f
  | TermFactor f => identifier_operands_factor f
  end
with identifier_operands_factor (f : factor) : bool :=
  match f with
  | FactorNumber _ => true
  | FactorId x => isidentifier x
  | FactorGroup e => identifier_operands e
  end.

(** Whether no letter stands in the text [str] gives for a NUMBER of the
    expression.  The text of an [int] has none; the text of a [float] has
    one when Python prints the float with an exponent ([0.00001] is printed
    [1e-05]) or as [inf]. *)
Fixpoint letter_free_numbers (e : expression) : bool :=
  match e with
  | ExprBinop e1 _ t => letter_free_numbers e1 && letter_free_numbers_term t
  | ExprTerm t => letter_free_numbers_term t
  end
with letter_free_numbers_term (t : term) : bool :=
  match t with
  | TermBinop t1 _ f =>
      letter_free_numbers_term t1 && letter_free_numbers_factor f
  | TermFactor f => letter_free_numbers_factor f
  end
with letter_free_numbers_factor (f : factor) : bool :=
  match f with
  | FactorNumber n =>
      all_chars (fun c => negb (is_alpha_ c)) (py_str (number_value n))
  | FactorId _ => true
  | FactorGroup e => letter_free_numbers e
  end.

(** The words of the operands of an expression, operand after operand in
    the order of the text: an ID is its own word, a NUMBER has the words
    [_id_pattern] finds in its text. *)
Fixpoint expression_words (e : expression) : list string :=
  match e with
  | ExprBinop e1 _ t => (expression_words e1 ++ term_words t)%list
  | ExprTerm t => term_words t
  end
with term_words (t : term) : list string :=
  match t with
  | TermBinop t1 _ f => (term_words t1 ++ factor_words f)%list
  | TermFactor f => factor_words f
  end
with factor_words (f : factor) : list string :=
  match f with
  | FactorNumber n => ids_from (py_str (number_value n))
  | FactorId x => [x]
  | FactorGroup e => expression_words e
  end.

(** [x + 1e-05], as [x + 0.00001] is parsed: the float prints with an
    exponent. *)
Definition exponent_sum : expression :=
  ExprBinop (ExprTerm (TermFactor (FactorId "x"))) PLUS
    (TermFactor (FactorNumber (NumFloat "1e-05"))).


(** ** Questions asked once *)

(** The key under which the answer to a question is stored: the reserved
    key for the return type, the name itself for a variable. *)
Definition store_key (x : string) : string :=
  if String.eqb x return_query then return_key else x.

(** An action, run from [g], that removes no key and calls the provider
    under names of [N] only, each once, each for a key the table does not
    hold, and that holds it when the action has succeeded. *)
Definition once_at {A} (N : list string) (m : M A) (g : globals) : Prop :=
  (forall k, dict_in k (symbol_table g) = true ->
             dict_in k (symbol_table (snd (m g))) = true) /\
  exists l,
    oracle_calls (snd (m g)) = (oracle_calls g ++ l)%list /\
    NoDup l /\
    (forall x, In x l ->
               In x N /\ dict_in (store_key x) (symbol_table g) = false) /\
    (forall a, fst (m g) = Ok a ->
               forall x, In x l ->
                         dict_in (store_key x) (symbol_table (snd (m g))) = true).


(** ** Places in a body *)

(** The statements with a braced body: [encloses s body] when [body] is the
    statement list of the [if], [while] or [for] statement [s]. *)
Inductive encloses : statement -> list statement -> Prop :=
| encloses_if c body : encloses (StIf c body) body
| encloses_while c body : encloses (StWhile c body) body
| encloses_for init c update body : encloses (StFor init c update body) body.

(** The names the header of a statement with a body gives a type to, before
    the body is parsed: those of the condition, and for a [for] those of its
    start and its update too. *)
Definition header_ids (s : statement) : list string :=
  match s with
  | StIf c _ | StWhile c _ => condition_ids c
  | StFor init c update _ =>
      (for_assign_ids init ++ condition_opt_ids c ++ for_assign_ids update)%list
  | _ => []
  end.

(** The type [infer_type] gives for a numeric literal. *)
Definition number_type (n : number) : string :=
  match n with NumInt _ => "int" | NumFloat _ => "float" end.

(** [pair_stands a n b body]: the pair [a = n; b = a;] stands in [body], at
    any depth of nesting, and no statement parsed after the pair assigns to
    [a] or to [b].  The statements parsed after the pair are those that
    follow it in its own list and those that follow each statement
    enclosing it. *)
Inductive pair_stands (a : string) (n : number) (b : string)
  : list statement -> Prop :=
| pair_here before after :
    ~ In a (body_targets after) -> ~ In b (body_targets after) ->
    pair_stands a n b
      (before ++ StAssignNumber a n :: StAssignId b a :: after)
| pair_inside before s body after :
    encloses s body ->
    pair_stands a n b body ->
    ~ In a (body_targets after) -> ~ In b (body_targets after) ->
    pair_stands a n b (before ++ s :: after).


(** [first_return r body]: the statement [r], which is meant to be a
    [return], stands in [body] at any depth and no [return] is parsed before
    it: it is the first [return] of [body] in the order of the text. *)
Inductive first_return (r : statement) : list statement -> Prop :=
| first_here before after :
    body_returns before = false ->
    first_return r (before ++ r :: after)
| first_inside before s body after :
    body_returns before = false ->
    encloses s body ->
    first_return r body ->
    first_return r (before ++ s :: after).

(** [fn f() { if (c < 1) { a = 5; b = a; } d = 2; }] *)
Definition nested_pair : function_def :=
  FunctionDef "f" []
    [StIf (Condition (ExprTerm (TermFactor (FactorId "c"))) LT
             (ExprTerm (TermFactor (FactorNumber (NumInt 1)))))
       [StAssignNumber "a" (NumInt 5); StAssignId "b" "a"];
     StAssignNumber "d" (NumInt 2)].



(** [fn f() { x = 1; if (x < 2) { return 1; } return 2.5; }] *)
Definition nested_first_return : function_def :=
  FunctionDef "f" []
    [StAssignNumber "x" (NumInt 1);
     StIf (Condition (ExprTerm (TermFactor (FactorId "x"))) LT
             (ExprTerm (TermFactor (FactorNumber (NumInt 2)))))
       [StReturnNumber (NumInt 1)];
     StReturnNumber (NumFloat "2.5")].


(** ** Resolution by the shape of a literal *)




(** A function that returns an expression over a variable it never
    assigned: [fn f() { return y + 1; }] *)
Definition return_sum : function_def :=
  FunctionDef "f" []
    [StReturnExpr
       (ExprBinop (ExprTerm (TermFactor (FactorId "y"))) PLUS
          (TermFactor (FactorNumber (NumInt 1))))].


(** ** Expressions that cannot be resolved *)

(** The first of the names [ids] that has no type in the table [d]. *)
Definition first_untyped (d : dict) (ids : list string) : option string :=
  find (fun x => negb (dict_in x d)) ids.

(** [starts_with_expression s e]: the first thing the parser reduces for
    the statement [s] is the expression [e]. *)
Inductive starts_with_expression : statement -> expression -> Prop :=
| starts_assign x e : starts_with_expression (StAssignExpr x e) e
| starts_return e : starts_with_expression (StReturnExpr e) e
| starts_if l op r body :
    starts_with_expression (StIf (Condition l op r) body) l
| starts_while l op r body :
    starts_with_expression (StWhile (Condition l op r) body) l
| starts_for x e c update body :
    starts_with_expression (StFor (ForExpr x e) c update body) e.

(** The next-line control and the no-break space. *)
Definition next_line : ascii := ascii_of_nat 133.
Definition no_break_space : ascii := ascii_of_nat 160.

(** * Properties *)

(** ** Sequencing *)

Lemma bind_ok {A B} (m : M A) (k : A -> M B) (g g' : globals) (a : A) :
  m g = (Ok a, g') -> bind m k g = k a g'.
Proof. unfold bind. now intros ->. Qed.

Lemma bind_raise {A B} (m : M A) (k : A -> M B) (g g' : globals) (e : exn) :
  m g = (Raise e, g') -> bind m k g = (Raise e, g').
Proof. unfold bind. now intros ->. Qed.

(** A bind that comes back with a value went through both of its parts. *)
Lemma bind_inv_ok {A B} (m : M A) (k : A -> M B) (g g' : globals) (b : B) :
  bind m k g = (Ok b, g') ->
  exists a g1, m g = (Ok a, g1) /\ k a g1 = (Ok b, g').
Proof.
  unfold bind. destruct (m g) as [[a|e] g1]; [eauto | discriminate].
Qed.

(** A bind that raises does so in its first part or in its second. *)
Lemma bind_inv_raise {A B} (m : M A) (k : A -> M B) (g g' : globals) (e : exn) :
  bind m k g = (Raise e, g') ->
  m g = (Raise e, g') \/ exists a g1, m g = (Ok a, g1) /\ k a g1 = (Raise e, g').
Proof.
  unfold bind. destruct (m g) as [[a|e'] g1]; intros H.
  - right. eauto.
  - left. now inversion H.
Qed.

(** ** Dictionaries *)

Lemma dict_get_set_same (d : dict) (k v : string) :
  dict_get (dict_set d k v) k = Some v.
Proof.
  induction d as [|[k' v'] r IH]; simpl.
  - now rewrite String.eqb_refl.
  - destruct (String.eqb k' k) eqn:E; simpl; rewrite E; auto.
Qed.

Lemma dict_get_set_other (d : dict) (k k' v : string) :
  k' <> k -> dict_get (dict_set d k v) k' = dict_get d k'.
Proof.
  intros N. induction d as [|[k0 v0] r IH]; simpl.
  - destruct (String.eqb k k') eqn:E; auto.
    apply String.eqb_eq in E. congruence.
  - destruct (String.eqb k0 k) eqn:E; simpl.
    + apply String.eqb_eq in E. subst k0.
      destruct (String.eqb k k') eqn:E'; auto.
      apply String.eqb_eq in E'. congruence.
    + destruct (String.eqb k0 k'); auto.
Qed.

Lemma dict_in_true (d : dict) (k : string) :
  dict_in k d = true <-> exists v, dict_get d k = Some v.
Proof.
  unfold dict_in. destruct (dict_get d k); split; intros H; eauto.
  - discriminate.
  - destruct H; discriminate.
Qed.

Lemma dict_in_false (d : dict) (k : string) :
  dict_in k d = false <-> dict_get d k = None.
Proof.
  unfold dict_in. destruct (dict_get d k); split; congruence.
Qed.

Lemma dict_in_keys (d : dict) (k : string) :
  dict_in k d = true <-> In k (keys d).
Proof.
  unfold dict_in, keys. induction d as [|[k' v'] r IH]; simpl.
  - split; [discriminate | tauto].
  - destruct (String.eqb k' k) eqn:E.
    + apply String.eqb_eq in E. tauto.
    + apply String.eqb_neq in E. rewrite IH. tauto.
Qed.

(** Storing under a key that is present keeps every key where it stands. *)
Lemma keys_set_present (d : dict) (k v : string) :
  dict_in k d = true -> keys (dict_set d k v) = keys d.
Proof.
  unfold dict_in, keys. induction d as [|[k' v'] r IH]; simpl.
  - discriminate.
  - destruct (String.eqb k' k) eqn:E; simpl; auto.
    intros H. now rewrite IH.
Qed.


Lemma dict_get_remove_other (d : dict) (k k' : string) :
  k' <> k -> dict_get (dict_remove d k) k' = dict_get d k'.
Proof.
  intros N. induction d as [|[k0 v0] r IH]; simpl; auto.
  destruct (String.eqb k0 k) eqn:E; simpl.
  - apply String.eqb_eq in E. subst k0.
    destruct (String.eqb k k') eqn:E'; auto.
    apply String.eqb_eq in E'. congruence.
  - now rewrite IH.
Qed.

(** ** Literal shapes *)

Lemma infer_type_number (n : number) :
  infer_type (number_value n)
  = Some (match n with NumInt _ => "int" | NumFloat _ => "float" end).
Proof. destruct n; reflexivity. Qed.

Lemma startswith_not_identifier (c : ascii) (s : string) :
  is_alpha_ c = false -> startswith c s = true -> isidentifier s = false.
Proof.
  intros A H. destruct s as [|c' r]; simpl in *; auto.
  apply Ascii.eqb_eq in H. subst c'. now rewrite A.
Qed.

(** A text with a literal shape is quoted, so it is no identifier. *)
Lemma inferred_str_not_identifier (s t : string) :
  infer_type (PStr s) = Some t -> isidentifier s = false.
Proof.
  simpl. intros H.
  destruct (startswith dquote s) eqn:D.
  - now apply (startswith_not_identifier dquote).
  - destruct (startswith "'"%char s) eqn:Q; simpl in H.
    + now apply (startswith_not_identifier "'"%char).
    + discriminate.
Qed.

(** An identifier has no literal shape. *)
Lemma identifier_no_literal_shape (s : string) :
  isidentifier s = true -> infer_type (PStr s) = None.
Proof.
  intros H. destruct (infer_type (PStr s)) eqn:E; auto.
  apply inferred_str_not_identifier in E. congruence.
Qed.

(** ** Assignments *)

Lemma handle_assignment_number (x : string) (n : number) (e : bool) (g : globals) :
  handle_assignment x (number_value n) e g
  = (Ok (py_str (number_value n)),
     with_table
       (dict_set (symbol_table g) x
          (match n with NumInt _ => "int" | NumFloat _ => "float" end)) g).
Proof. destruct n; reflexivity. Qed.

(** [ask_type] in one equation. *)
Lemma ask_type_eq (x : string) (g : globals) :
  ask_type x g
  = match type_provider g with
    | None => (Raise (MissingTypeError x), g)
    | Some p =>
        match p x valid_dtypes with
        | inl e => (Raise e, logged x g)
        | inr answer =>
            if mem (strip answer) valid_dtypes
            then (Ok (strip answer), logged x g)
            else (Raise (MissingTypeError x), logged x g)
        end
    end.
Proof.
  unfold ask_type. destruct (type_provider g) as [p|]; [|reflexivity].
  unfold bind, call_provider.
  destruct (p x valid_dtypes) as [e|answer]; [reflexivity|].
  now destruct (mem (strip answer) valid_dtypes).
Qed.

(** The provider is called under the name asked for, at most once, and
    nothing else changes. *)
Lemma ask_type_calls (x : string) (g : globals) :
  snd (ask_type x g)
  = match type_provider g with
    | Some _ => logged x g
    | None => g
    end.
Proof.
  rewrite ask_type_eq. destruct (type_provider g) as [p|]; [|reflexivity].
  destruct (p x valid_dtypes) as [e|answer]; [reflexivity|].
  now destruct (mem (strip answer) valid_dtypes).
Qed.

(** [ask_type] changes the ghost log at most. *)
Lemma ask_type_state (x : string) (g : globals) :
  symbol_table (snd (ask_type x g)) = symbol_table g /\
  has_return (snd (ask_type x g)) = has_return g /\
  type_provider (snd (ask_type x g)) = type_provider g.
Proof.
  rewrite ask_type_calls. now destruct (type_provider g) eqn:P; cbn; rewrite ?P.
Qed.

(** What [ask_type] returns is one of the valid datatypes. *)
Lemma ask_type_valid (x t : string) (g : globals) :
  fst (ask_type x g) = Ok t -> mem t valid_dtypes = true.
Proof.
  rewrite ask_type_eq. destruct (type_provider g) as [p|]; [|discriminate].
  destruct (p x valid_dtypes) as [e|answer]; [discriminate|].
  destruct (mem (strip answer) valid_dtypes) eqn:V; [|discriminate].
  cbn [fst]. intros H. inversion H. now subst.
Qed.

(** The guarded store in one equation. *)
Lemma ensure_type_eq (x : string) (g : globals) :
  ensure_type x g
  = if dict_in x (symbol_table g) then (Ok tt, g)
    else match ask_type x g with
         | (Ok t, g1) => (Ok tt, with_table (dict_set (symbol_table g1) x t) g1)
         | (Raise e, g1) => (Raise e, g1)
         end.
Proof.
  unfold ensure_type, bind, get_table.
  destruct (dict_in x (symbol_table g)); [reflexivity|].
  destruct (ask_type x g) as [[t|e] g1]; reflexivity.
Qed.

(** [handle_assignment] on a text that is not taken for an identifier: the
    target is given a type if it has none. *)
Lemma handle_assignment_text (x s : string) (e : bool) (g : globals) :
  negb e && isidentifier s = false ->
  handle_assignment x (PStr s) e g
  = match ensure_type x g with
    | (Ok _, g1) => (Ok s, g1)
    | (Raise err, g1) => (Raise err, g1)
    end.
Proof.
  intros H. unfold handle_assignment. rewrite H. unfold bind.
  destruct (ensure_type x g) as [[u|err] g1]; reflexivity.
Qed.

(** [handle_assignment] on a right-hand side that is one identifier. *)
Lemma handle_assignment_identifier (b a : string) (g : globals) :
  isidentifier a = true ->
  handle_assignment b (PStr a) false g
  = match dict_get (symbol_table g) a with
    | Some t => (Ok a, with_table (dict_set (symbol_table g) b t) g)
    | None =>
        match ask_type a g with
        | (Ok t, g1) =>
            (Ok a,
             with_table (dict_set (dict_set (symbol_table g1) a t) b t) g1)
        | (Raise e, g1) => (Raise e, g1)
        end
    end.
Proof.
  intros I. unfold handle_assignment. rewrite I. cbn [negb andb].
  unfold bind at 1. unfold bind at 1. rewrite ensure_type_eq.
  unfold dict_in. destruct (dict_get (symbol_table g) a) as [t|] eqn:A.
  - unfold bind, ret, get_table, table_store, bind, set_table, get_table.
    rewrite A. reflexivity.
  - destruct (ask_type a g) as [[t|e] g1]; [|reflexivity].
    unfold bind, ret, get_table, table_store, bind, set_table, get_table.
    cbn [symbol_table with_table]. rewrite dict_get_set_same. reflexivity.
Qed.

(** C10.  An assignment [b = a] whose right-hand side is one identifier.
    When [a] has a recorded type, the assignment succeeds whatever [b] had,
    [b] holds [a]'s type afterwards and the provider is not called.  When [a]
    has none, the provider is called under [a]'s name and under no other
    name; if the assignment succeeds, [a] and [b] hold the same type, and if
    it fails the table is as it was. *)
Theorem identifier_assignment_propagates (b a : string) (g : globals) :
  isidentifier a = true ->
  let out := handle_assignment b (PStr a) false g in
  (forall t, dict_get (symbol_table g) a = Some t ->
     fst out = Ok a /\
     dict_get (symbol_table (snd out)) b = Some t /\
     dict_get (symbol_table (snd out)) a = Some t /\
     oracle_calls (snd out) = oracle_calls g) /\
  (dict_get (symbol_table g) a = None ->
     (exists calls, oracle_calls (snd out) = (oracle_calls g ++ calls)%list /\
                    (calls = [a] \/ calls = [] /\ type_provider g = None)) /\
     (forall r, fst out = Ok r ->
        exists t, dict_get (symbol_table (snd out)) a = Some t /\
                  dict_get (symbol_table (snd out)) b = Some t /\
                  mem t valid_dtypes = true) /\
     (forall e, fst out = Raise e ->
        symbol_table (snd out) = symbol_table g)).
Proof.
  intros I out. subst out. rewrite (handle_assignment_identifier b a g I).
  split.
  - intros t A. rewrite A. cbn [fst snd with_table symbol_table oracle_calls].
    rewrite dict_get_set_same. repeat split; auto.
    destruct (String.eqb a b) eqn:E.
    + apply String.eqb_eq in E. subst b. apply dict_get_set_same.
    + apply String.eqb_neq in E. now rewrite dict_get_set_other.
  - intros A. rewrite A.
    pose proof (ask_type_calls a g) as C.
    pose proof (ask_type_valid a) as V. specialize (V) with (g := g).
    destruct (ask_type a g) as [[t|e] g1]; cbn [fst snd] in *; subst g1.
    + repeat split.
      * destruct (type_provider g) eqn:P.
        -- exists [a]. auto.
        -- exists []. rewrite app_nil_r. auto.
      * intros _ _. exists t.
        cbn [with_table symbol_table]. rewrite dict_get_set_same.
        repeat split; auto.
        destruct (String.eqb a b) eqn:E.
        -- apply String.eqb_eq in E. subst b. apply dict_get_set_same.
        -- apply String.eqb_neq in E.
           rewrite dict_get_set_other by auto. apply dict_get_set_same.
      * discriminate.
    + repeat split.
      * destruct (type_provider g) eqn:P.
        -- exists [a]. auto.
        -- exists []. rewrite app_nil_r. auto.
      * discriminate.
      * intros _ _. now destruct (type_provider g).
Qed.

Lemma identifier_assignment_propagates_witness :
  isidentifier "a" = true /\
  let g := mkGlobals [("a", "int"); ("b", "float")] false None [] in
  fst (handle_assignment "b" (PStr "a") false g) = Ok "a" /\
  dict_get (symbol_table (snd (handle_assignment "b" (PStr "a") false g))) "b"
  = Some "int".
Proof.
  split; [reflexivity|]. intros g.
  destruct (identifier_assignment_propagates "b" "a" g eq_refl) as [H _].
  destruct (H "int" eq_refl) as (H1 & H2 & _). split; assumption.
Defined.

(** The statements of a list run in order; the first exception ends the
    run. *)
Lemma p_stmt_list_cons (f : statement -> M node) (s : statement)
  (r : list statement) (g : globals) :
  p_stmt_list_with f (s :: r) g
  = match f s g with
    | (Ok n, g1) =>
        match p_stmt_list_with f r g1 with
        | (Ok ns, g2) => (Ok (n :: ns), g2)
        | (Raise e, g2) => (Raise e, g2)
        end
    | (Raise e, g1) => (Raise e, g1)
    end.
Proof.
  cbn [p_stmt_list_with]. unfold bind.
  destruct (f s g) as [[n|e] g1]; [|reflexivity].
  destruct (p_stmt_list_with f r g1) as [[ns|e] g2]; reflexivity.
Qed.

Lemma p_statement_assign_number (x : string) (n : number) (g : globals) :
  p_statement (StAssignNumber x n) g
  = (Ok (NAssign (AssignNode x (py_str (number_value n)))),
     with_table
       (dict_set (symbol_table g) x
          (match n with NumInt _ => "int" | NumFloat _ => "float" end)) g).
Proof.
  cbn [p_statement]. unfold bind. now rewrite handle_assignment_number.
Qed.

Lemma two_number_assignments (x : string) (n1 n2 : number) (g : globals) :
  p_stmt_list [StAssignNumber x n1; StAssignNumber x n2] g
  = (Ok [NAssign (AssignNode x (py_str (number_value n1)));
         NAssign (AssignNode x (py_str (number_value n2)))],
     with_table
       (dict_set
          (dict_set (symbol_table g) x
             (match n1 with NumInt _ => "int" | NumFloat _ => "float" end))
          x (match n2 with NumInt _ => "int" | NumFloat _ => "float" end)) g).
Proof.
  unfold p_stmt_list.
  rewrite p_stmt_list_cons, p_statement_assign_number.
  rewrite p_stmt_list_cons, p_statement_assign_number.
  reflexivity.
Qed.

(** Two numeric literals assigned to a variable in a row: the first
    assignment records the type of the first literal, the second one
    replaces it by the type of the second literal, in the same place of the
    table; neither assignment fails and the provider is not called.  Parsed
    as the whole body of a function without parameters, the two assignments
    leave the later type as the variable's final type. *)
Lemma two_literals_in_a_row (x : string) (n1 n2 : number) (g : globals) :
  let g1 := snd (p_statement (StAssignNumber x n1) g) in
  let out := p_stmt_list [StAssignNumber x n1; StAssignNumber x n2] g in
  dict_get (symbol_table g1) x = infer_type (number_value n1) /\
  (exists nodes, fst out = Ok nodes) /\
  dict_get (symbol_table (snd out)) x = infer_type (number_value n2) /\
  keys (symbol_table (snd out)) = keys (symbol_table g1) /\
  oracle_calls (snd out) = oracle_calls g /\
  (forall name,
     exists ast,
       parse_code (FunctionDef name [] [StAssignNumber x n1; StAssignNumber x n2]) g
       = (Ok ast,
          mkGlobals
            [(x, match n2 with NumInt _ => "int" | NumFloat _ => "float" end)]
            false (type_provider g) (oracle_calls g))).
Proof.
  intros g1 out. subst g1 out.
  rewrite two_number_assignments, p_statement_assign_number.
  cbn [fst snd with_table symbol_table oracle_calls has_return type_provider].
  rewrite !infer_type_number, !dict_get_set_same.
  repeat split; eauto.
  - apply keys_set_present, dict_in_true. eexists. apply dict_get_set_same.
  - intros name. eexists.
    unfold parse_code, p_program, p_function.
    cbn [fn_body fn_params fn_name].
    unfold bind at 1. unfold set_table at 1.
    unfold bind at 1. unfold set_has_return at 1.
    erewrite bind_ok; [reflexivity|].
    erewrite bind_ok; [|apply two_number_assignments].
    unfold bind, ret, get_has_return, get_table.
    cbn [fst snd with_table symbol_table oracle_calls has_return type_provider
         dict_set andb ensure_param_types].
    unfold ret. rewrite String.eqb_refl. reflexivity.
Qed.

(** ** Scenario 2 *)

(** C2 (amended).  Parsing [fn f() { x = 5; y = x; return y; }] records [int]
    for [x] from the literal and [int] for [y] from [x], and calls the
    registered provider exactly once: not for [x] nor [y], but for the
    function's return type, under the name [function_return_type].  The
    emission makes no further call. *)
Theorem scenario_two_resolution (g : globals) (p : provider) :
  type_provider g = Some p ->
  let parsed := snd (parse_code scenario_two g) in
  dict_get (symbol_table parsed) "x" = Some "int" /\
  dict_get (symbol_table parsed) "y" = Some "int" /\
  oracle_calls parsed = (oracle_calls g ++ ["function_return_type"])%list /\
  oracle_calls (snd (parse_then_emit scenario_two g))
  = (oracle_calls g ++ ["function_return_type"])%list.
Proof.
  destruct g as [d hr tp calls]. cbn [type_provider]. intros ->.
  unfold parse_then_emit, parse_code, scenario_two.
  cbv - [strip mem valid_dtypes app].
  destruct (p "function_return_type" valid_dtypes) as [e|answer].
  - cbv - [app]. auto.
  - destruct (mem (strip answer) valid_dtypes); cbv - [app]; auto.
Qed.

Lemma scenario_two_resolution_witness :
  oracle_calls
    (snd (parse_then_emit scenario_two (globals_with (Some (always "int")))))
  = ["function_return_type"].
Proof.
  apply (scenario_two_resolution (globals_with (Some (always "int")))
           (always "int") eq_refl).
Defined.

(** C2, as stated, fails: the parse of scenario 2 does call the provider,
    for the return type; with no provider registered the run raises the
    missing-type error of [function_return_type] and produces no text. *)
Lemma scenario_two_calls_provider :
  oracle_calls
    (snd (parse_then_emit scenario_two (globals_with (Some (always "int")))))
  <> [] /\
  parse_then_emit scenario_two initial_globals
  = (Raise (MissingTypeError "function_return_type"),
     mkGlobals [("x", "int"); ("y", "int")] true None []).
Proof. split; [discriminate | reflexivity]. Qed.

(** ** Induction on derivations and on nodes *)

(** Induction on a statement, with the property at hand for every statement
    of a nested body. *)
Lemma statement_body_ind (P : statement -> Prop) :
  (forall x n, P (StAssignNumber x n)) ->
  (forall x val, P (StAssignId x val)) ->
  (forall x e, P (StAssignExpr x e)) ->
  (forall c body, Forall P body -> P (StIf c body)) ->
  (forall c body, Forall P body -> P (StWhile c body)) ->
  (forall init c update body, Forall P body -> P (StFor init c update body)) ->
  (forall val, P (StReturnId val)) ->
  (forall n, P (StReturnNumber n)) ->
  (forall e, P (StReturnExpr e)) ->
  forall s, P s.
Proof.
  intros H1 H2 H3 H4 H5 H6 H7 H8 H9.
  refine (fix IH (s : statement) : P s :=
            let nested :=
              fix IHb (l : list statement) : Forall P l :=
                match l with
                | [] => Forall_nil P
                | s' :: r => Forall_cons s' (IH s') (IHb r)
                end in
            match s with
            | StAssignNumber x n => H1 x n
            | StAssignId x val => H2 x val
            | StAssignExpr x e => H3 x e
            | StIf c body => H4 c body (nested body)
            | StWhile c body => H5 c body (nested body)
            | StFor init c update body => H6 init c update body (nested body)
            | StReturnId val => H7 val
            | StReturnNumber n => H8 n
            | StReturnExpr e => H9 e
            end).
Qed.

(** Induction on a node, with the property at hand for every node of a
    nested body. *)
Lemma node_body_ind (P : node -> Prop) :
  (forall name params body rt, Forall P body -> P (NFunction name params body rt)) ->
  (forall a, P (NAssign a)) ->
  (forall c body, Forall P body -> P (NIf c body)) ->
  (forall c body, Forall P body -> P (NWhile c body)) ->
  (forall init c update body, Forall P body -> P (NFor init c update body)) ->
  (forall val, P (NReturn val)) ->
  forall n, P n.
Proof.
  intros H1 H2 H3 H4 H5 H6.
  refine (fix IH (n : node) : P n :=
            let nested :=
              fix IHb (l : list node) : Forall P l :=
                match l with
                | [] => Forall_nil P
                | n' :: r => Forall_cons n' (IH n') (IHb r)
                end in
            match n with
            | NFunction name params body rt => H1 name params body rt (nested body)
            | NAssign a => H2 a
            | NIf c body => H3 c body (nested body)
            | NWhile c body => H4 c body (nested body)
            | NFor init c update body => H5 init c update body (nested body)
            | NReturn val => H6 val
            end).
Qed.

(** ** No action looks at the ghost log *)

Create HintDb blind discriminated.

Lemma same_state_refl (g : globals) : same_state g g.
Proof. repeat split. Qed.

Lemma blind_ret {A} (a : A) : log_blind (ret a).
Proof. intros g1 g2 H. split; [reflexivity | exact H]. Qed.

Lemma blind_raise {A} (e : exn) : log_blind (@raise A e).
Proof. intros g1 g2 H. split; [reflexivity | exact H]. Qed.

Lemma blind_bind {A B} (m : M A) (k : A -> M B) :
  log_blind m -> (forall a, log_blind (k a)) -> log_blind (bind m k).
Proof.
  intros Hm Hk g1 g2 S. unfold bind.
  destruct (Hm g1 g2 S) as [E S'].
  destruct (m g1) as [[a1|e1] g1'], (m g2) as [[a2|e2] g2'];
    cbn [fst snd] in *; try discriminate.
  - inversion E. subst a2. now apply Hk.
  - inversion E. subst e2. split; [reflexivity | exact S'].
Qed.

Lemma blind_get_table : log_blind get_table.
Proof.
  intros g1 g2 S. split; [|exact S].
  destruct S as (T & _). cbn. now rewrite T.
Qed.

Lemma blind_set_table (d : dict) : log_blind (set_table d).
Proof.
  intros g1 g2 (T & H & P). split; [reflexivity|].
  repeat split; assumption.
Qed.

Lemma blind_get_has_return : log_blind get_has_return.
Proof.
  intros g1 g2 S. split; [|exact S].
  destruct S as (_ & H & _). cbn. now rewrite H.
Qed.

Lemma blind_set_has_return (b : bool) : log_blind (set_has_return b).
Proof.
  intros g1 g2 (T & H & P). split; [reflexivity|].
  repeat split; assumption.
Qed.

Lemma blind_register (fn : option provider) :
  log_blind (register_type_provider fn).
Proof.
  intros g1 g2 (T & H & P). split; [reflexivity|].
  repeat split; assumption.
Qed.

Lemma same_state_logged (x : string) (g1 g2 : globals) :
  same_state g1 g2 -> same_state (logged x g1) (logged x g2).
Proof. intros (T & H & P). repeat split; assumption. Qed.

Lemma blind_ask_type (x : string) : log_blind (ask_type x).
Proof.
  intros g1 g2 S. pose proof (same_state_logged x g1 g2 S) as L.
  pose proof S as S0.
  rewrite !ask_type_eq. destruct S as (T & H & P). rewrite P.
  destruct (type_provider g2) as [p|] eqn:P2.
  - destruct (p x valid_dtypes) as [e|answer].
    + split; [reflexivity | exact L].
    + destruct (mem (strip answer) valid_dtypes);
        (split; [reflexivity | exact L]).
  - split; [reflexivity | exact S0].
Qed.

#[local] Hint Resolve blind_ret blind_raise blind_get_table blind_set_table
  blind_get_has_return blind_set_has_return blind_register blind_ask_type
  : blind.

(** Takes an action apart along its binds and its case distinctions. *)
Ltac blind_steps :=
  repeat first
    [ apply blind_bind; [|intros ?]
    | match goal with
      | |- log_blind (if ?b then _ else _) => destruct b
      | |- log_blind (match ?x with _ => _ end) => destruct x
      | |- log_blind (let (_, _) := ?x in _) => destruct x
      end
    | solve [auto with blind] ].

Lemma blind_table_store (k v : string) : log_blind (table_store k v).
Proof. unfold table_store. blind_steps. Qed.

#[local] Hint Resolve blind_table_store : blind.

Lemma blind_ensure_type (x : string) : log_blind (ensure_type x).
Proof. unfold ensure_type. blind_steps. Qed.

#[local] Hint Resolve blind_ensure_type : blind.

Lemma blind_handle_assignment (x : string) (v : pyval) (e : bool) :
  log_blind (handle_assignment x v e).
Proof. unfold handle_assignment. blind_steps. Qed.

#[local] Hint Resolve blind_handle_assignment : blind.

Lemma blind_expression :
  (forall e, log_blind (p_expression e)) /\
  (forall t, log_blind (p_term t)) /\
  (forall f, log_blind (p_factor f)).
Proof.
  apply expression_mutual_ind; intros; cbn [p_expression p_term p_factor];
    unfold p_factor_id; blind_steps.
Qed.

Lemma blind_p_expression (e : expression) : log_blind (p_expression e).
Proof. apply blind_expression. Qed.

#[local] Hint Resolve blind_p_expression : blind.

Lemma blind_p_condition (c : condition) : log_blind (p_condition c).
Proof. unfold p_condition. blind_steps. Qed.

#[local] Hint Resolve blind_p_condition : blind.

Lemma blind_p_condition_opt (c : option condition) :
  log_blind (p_condition_opt c).
Proof. unfold p_condition_opt. blind_steps. Qed.

Lemma blind_for_assign_action (x : string) (v : pyval) :
  log_blind (for_assign_action x v).
Proof. unfold for_assign_action. blind_steps. Qed.

#[local] Hint Resolve blind_p_condition_opt blind_for_assign_action : blind.

Lemma blind_p_for_init_opt (a : for_assign) : log_blind (p_for_init_opt a).
Proof. unfold p_for_init_opt. blind_steps. Qed.

Lemma blind_p_for_update_opt (a : for_assign) : log_blind (p_for_update_opt a).
Proof. unfold p_for_update_opt. blind_steps. Qed.

Lemma blind_p_statement_return (v : pyval) : log_blind (p_statement_return v).
Proof. unfold p_statement_return. blind_steps. Qed.

#[local] Hint Resolve blind_p_for_init_opt blind_p_for_update_opt
  blind_p_statement_return : blind.

Lemma blind_p_stmt_list_with (f : statement -> M node) (l : list statement) :
  Forall (fun s => log_blind (f s)) l -> log_blind (p_stmt_list_with f l).
Proof.
  induction 1; cbn [p_stmt_list_with]; blind_steps.
Qed.

Lemma blind_p_statement (s : statement) : log_blind (p_statement s).
Proof.
  induction s using statement_body_ind; cbn [p_statement];
    blind_steps; now apply blind_p_stmt_list_with.
Qed.

#[local] Hint Resolve blind_p_statement : blind.

Lemma blind_p_stmt_list (l : list statement) : log_blind (p_stmt_list l).
Proof.
  apply blind_p_stmt_list_with, Forall_forall. auto with blind.
Qed.

Lemma blind_ensure_param_types (params : list string) :
  log_blind (ensure_param_types params).
Proof. induction params; cbn [ensure_param_types]; blind_steps. Qed.

#[local] Hint Resolve blind_p_stmt_list blind_ensure_param_types : blind.

Lemma blind_p_program (f : function_def) : log_blind (p_program f).
Proof. unfold p_program, p_function. blind_steps. Qed.

Lemma blind_param_parts (params : list string) : log_blind (param_parts params).
Proof. induction params; cbn [param_parts]; blind_steps. Qed.

#[local] Hint Resolve blind_p_program blind_param_parts : blind.

Lemma blind_generate_cpp_with (f : node -> nat -> list string -> M string)
  (l : list node) :
  Forall (fun n => forall i d, log_blind (f n i d)) l ->
  forall i d, log_blind (generate_cpp_with f l i d).
Proof.
  induction 1; intros i d; cbn [generate_cpp_with]; blind_steps.
Qed.

Lemma blind_generate_stmt (n : node) :
  forall i d, log_blind (generate_stmt n i d).
Proof.
  induction n using node_body_ind; intros i d; cbn [generate_stmt];
    unfold generate_if_cpp, generate_while_cpp, generate_for_cpp;
    blind_steps; now apply blind_generate_cpp_with.
Qed.

Lemma blind_to_cpp (parsed : list node) : log_blind (to_cpp parsed).
Proof.
  unfold to_cpp, generate_cpp.
  apply blind_bind.
  - apply blind_generate_cpp_with, Forall_forall. intros n _.
    apply blind_generate_stmt.
  - intros body. blind_steps.
Qed.

#[local] Hint Resolve blind_to_cpp : blind.

(** ** Determinism *)

(** A run starts from the emptied table and the lowered flag. *)
Lemma parse_then_emit_reset (code : function_def) (g : globals) :
  parse_then_emit code g
  = bind (p_program code) to_cpp
      (mkGlobals [] false (type_provider g) (oracle_calls g)).
Proof. reflexivity. Qed.

(** C5.  For one source and one provider, the outcome of parsing and then
    emitting (the generated text, or the exception raised) is the same
    whatever table, flag and call history earlier runs have left in the
    globals; so is the outcome of [convert] for one source and one object of
    type hints, from any globals, and in particular when it is run again on
    the globals its first run has left. *)
Theorem runs_are_deterministic (code : function_def) (g1 g2 : globals) :
  type_provider g1 = type_provider g2 ->
  fst (parse_then_emit code g1) = fst (parse_then_emit code g2) /\
  (forall hints,
     fst (convert hints code g1) = fst (convert hints code g2) /\
     fst (convert hints code (snd (convert hints code g1)))
     = fst (convert hints code g1)).
Proof.
  intros P.
  assert (D : forall ga gb, type_provider ga = type_provider gb ->
                fst (parse_then_emit code ga) = fst (parse_then_emit code gb)).
  { intros ga gb Pab. rewrite !parse_then_emit_reset.
    apply (blind_bind (p_program code) to_cpp); auto with blind.
    repeat split. exact Pab. }
  split; [now apply D|].
  intros hints. unfold convert, bind, register_type_provider.
  split; apply D; reflexivity.
Qed.

Lemma runs_are_deterministic_witness :
  fst (parse_then_emit scenario_two (globals_with (Some (always "int"))))
  = fst (parse_then_emit scenario_two
           (mkGlobals [("x", "float"); ("stale", "char")] true
                      (Some (always "int")) ["stale"])).
Proof.
  destruct (runs_are_deterministic scenario_two
              (globals_with (Some (always "int")))
              (mkGlobals [("x", "float"); ("stale", "char")] true
                         (Some (always "int")) ["stale"])
              eq_refl) as [H _].
  exact H.
Defined.

(** ** What the actions write *)

Lemma dict_in_set (d : dict) (k v k' : string) :
  dict_in k' (dict_set d k v) = String.eqb k k' || dict_in k' d.
Proof.
  unfold dict_in. destruct (String.eqb k k') eqn:E.
  - apply String.eqb_eq in E. subst k'. now rewrite dict_get_set_same.
  - apply String.eqb_neq in E. rewrite dict_get_set_other by congruence.
    reflexivity.
Qed.

Lemma dict_get_In (d : dict) (k v : string) :
  dict_get d k = Some v -> In (k, v) d.
Proof.
  induction d as [|[k' v'] r IH]; cbn; [discriminate|].
  destruct (String.eqb k' k) eqn:E.
  - apply String.eqb_eq in E. intros H. inversion H. subst. now left.
  - auto.
Qed.

Lemma table_ok_set (d : dict) (k v : string) :
  truthy v = true -> table_ok d -> table_ok (dict_set d k v).
Proof.
  intros V. induction d as [|[k0 v0] r IH]; intros H k' v' I; cbn in I.
  - destruct I as [I|[]]. inversion I. now subst.
  - destruct (String.eqb k0 k).
    + destruct I as [I|I].
      * inversion I. now subst.
      * apply (H k' v'). now right.
    + destruct I as [I|I].
      * apply (H k' v'). now left.
      * apply IH with (k := k'); [|exact I].
        intros k1 v1 I1. apply (H k1 v1). now right.
Qed.

Lemma table_ok_remove (d : dict) (k : string) :
  table_ok d -> table_ok (dict_remove d k).
Proof.
  induction d as [|[k0 v0] r IH]; intros H k' v' I; cbn in I; [destruct I|].
  destruct (String.eqb k0 k).
  - apply (H k' v'). now right.
  - destruct I as [I|I].
    + apply (H k' v'). now left.
    + apply IH with (k := k'); [|exact I].
      intros k1 v1 I1. apply (H k1 v1). now right.
Qed.

Lemma valid_dtype_truthy (t : string) :
  mem t valid_dtypes = true -> truthy t = true.
Proof. destruct t; [discriminate | reflexivity]. Qed.

Lemma frames_ret {A} rf T N (a : A) : frames rf T N (ret a).
Proof. intros g. unfold frames_at. cbn. repeat split; auto. Qed.

Lemma frames_raise {A} rf T N (e : exn) : frames rf T N (@raise A e).
Proof. intros g. unfold frames_at. cbn. repeat split; auto. Qed.

Lemma frames_get_table rf T N : frames rf T N get_table.
Proof. intros g. unfold frames_at. cbn. repeat split; auto. Qed.

Lemma frames_get_has_return rf T N : frames rf T N get_has_return.
Proof. intros g. unfold frames_at. cbn. repeat split; auto. Qed.

(** The continuation has to frame only for the values the first part can
    come back with. *)
Lemma frames_bind {A B} rf T N (m : M A) (k : A -> M B) :
  frames rf T N m ->
  (forall g a g', m g = (Ok a, g') -> frames rf T N (k a)) ->
  frames rf T N (bind m k).
Proof.
  intros Hm Hk g. unfold frames_at, bind.
  pose proof (Hm g) as Fm. unfold frames_at in Fm.
  destruct (m g) as [[a|e] g1] eqn:E; cbn [snd] in Fm; [|exact Fm].
  pose proof (Hk g a g1 E g1) as Fk. unfold frames_at in Fk.
  destruct Fm as (P1 & R1 & D1 & W1 & O1), Fk as (P2 & R2 & D2 & W2 & O2).
  repeat split.
  - congruence.
  - destruct R1 as [R1|[? R1]], R2 as [R2|[? R2]]; auto.
    + left. congruence.
    + right. split; [assumption | congruence].
  - auto.
  - intros x NT C. rewrite W2, W1; auto.
    destruct C; auto.
  - auto.
Qed.

Lemma frames_weaken {A} (rf rf' : bool) T T' N N' (m : M A) :
  (rf = true -> rf' = true) -> incl T T' -> incl N N' ->
  frames rf T N m -> frames rf' T' N' m.
Proof.
  intros R IT IN H g. destruct (H g) as (P & F & D & W & O).
  unfold frames_at. repeat split; auto.
  - destruct F as [F|[F1 F2]]; auto.
  - intros k NT C. apply W; [auto|]. destruct C; auto.
Qed.

Lemma frames_grows {A} rf T N (m : M A) : frames rf T N m -> grows m.
Proof.
  intros H g. destruct (H g) as (P & F & D & W & O). split; [exact D|].
  intros R. destruct F as [F|[_ F]]; congruence.
Qed.

Lemma frames_ask_type rf T N (x : string) : frames rf T N (ask_type x).
Proof.
  intros g. unfold frames_at.
  destruct (ask_type_state x g) as (S1 & S2 & S3). rewrite S1, S2, S3.
  repeat split; auto.
Qed.

(** A store under a key of [T]. *)
Lemma frames_table_store rf T N (k v : string) :
  In k T -> truthy v = true -> frames rf T N (table_store k v).
Proof.
  intros I V g. unfold frames_at. cbn. repeat split; auto.
  - intros x D. rewrite dict_in_set, D. apply orb_true_r.
  - intros x NT _. apply dict_get_set_other. congruence.
  - now apply table_ok_set.
Qed.

(** The guarded store writes under a key that is new. *)
Lemma frames_ensure_type rf T N (x : string) :
  In x T \/ In x N -> frames rf T N (ensure_type x).
Proof.
  intros I g. unfold frames_at. rewrite ensure_type_eq.
  destruct (dict_in x (symbol_table g)) eqn:D; [cbn; repeat split; auto|].
  pose proof (ask_type_state x g) as (S1 & S2 & S3).
  pose proof (ask_type_valid x) as V. specialize V with (g := g).
  destruct (ask_type x g) as [[t|e] g1]; cbn [fst snd] in *.
  - cbn [with_table symbol_table has_return type_provider]. rewrite S1.
    repeat split; auto.
    + intros k Dk. rewrite dict_in_set, Dk. apply orb_true_r.
    + intros k NT Ck. apply dict_get_set_other. intros ->.
      destruct I as [I|I]; [auto|]. destruct Ck; [congruence | auto].
    + apply table_ok_set. apply valid_dtype_truthy. now apply V.
  - rewrite S1, S2, S3. repeat split; auto.
Qed.

(** The propagation step of [handle_assignment]: the type read under [s] is
    stored under [x]. *)
Lemma frames_propagate rf T N (x s : string) :
  In x T ->
  frames rf T N
    (d <- get_table ;;
     match dict_get d s with
     | Some t => table_store x t
     | None => raise (KeyError s)
     end).
Proof.
  intros I g. unfold frames_at, bind, get_table.
  destruct (dict_get (symbol_table g) s) as [t|] eqn:G.
  - cbn. repeat split; auto.
    + intros k D. rewrite dict_in_set, D. apply orb_true_r.
    + intros k NT _. apply dict_get_set_other. congruence.
    + intros O. apply table_ok_set; [|exact O].
      eapply O, dict_get_In, G.
  - cbn. repeat split; auto.
Qed.

Lemma frames_handle_assignment rf T N (x : string) (v : pyval) (e : bool) :
  In x T ->
  (forall s, v = PStr s -> negb e && isidentifier s = true ->
             In s T \/ In s N) ->
  frames rf T N (handle_assignment x v e).
Proof.
  intros I S. unfold handle_assignment.
  apply frames_bind; [|intros; apply frames_ret].
  destruct v as [n|r|s]; cbn [infer_type].
  - now apply frames_table_store.
  - now apply frames_table_store.
  - destruct (negb e && isidentifier s) eqn:B.
    + apply frames_bind.
      * apply frames_ensure_type. now apply S.
      * intros. now apply frames_propagate.
    + apply frames_ensure_type. auto.
Qed.

(** A store under a key that the table does not hold yet overwrites
    nothing. *)
Lemma frames_at_new_key {A} rf T N (m : M A) (k : string) (g : globals) :
  frames rf (k :: T) N m ->
  dict_in k (symbol_table g) = false -> In k N ->
  frames_at rf T N m g.
Proof.
  intros H D I. destruct (H g) as (P & R & Dm & Wm & O).
  unfold frames_at. repeat split; auto.
  intros x NT C. apply Wm; [|exact C].
  intros [E|E]; [|auto]. subst x.
  destruct C as [C|C]; [congruence | auto].
Qed.

Lemma infer_type_truthy (v : pyval) (t : string) :
  infer_type v = Some t -> truthy t = true.
Proof.
  destruct v as [n|r|s]; unfold infer_type; intros IT;
    repeat match type of IT with
           | (if ?b then _ else _) = _ => destruct b
           end;
    inversion IT; reflexivity.
Qed.

Lemma frames_at_get_table {B} rf T N (k : dict -> M B) (g : globals) :
  frames_at rf T N (k (symbol_table g)) g ->
  frames_at rf T N (bind get_table k) g.
Proof. intros H. exact H. Qed.

Lemma frames_set_has_return T N : frames true T N (set_has_return true).
Proof. intros g. unfold frames_at. cbn. repeat split; auto. Qed.

Lemma frames_p_statement_return T N (v : pyval) :
  In return_key N -> frames true T N (p_statement_return v).
Proof.
  intros I. unfold p_statement_return.
  apply frames_bind; [apply frames_set_has_return | intros _ _ _ _].
  intros g. apply frames_at_get_table.
  destruct (dict_in return_key (symbol_table g)) eqn:D.
  - refine (frames_bind _ _ _ _ _ _ _ g); intros; apply frames_ret.
  - apply (frames_at_new_key true T N _ return_key g); [|exact D|exact I].
    apply frames_bind; [|intros; apply frames_ret].
    destruct (infer_type v) as [t|] eqn:IT.
    + apply frames_table_store; [now left|].
      now apply (infer_type_truthy v).
    + apply frames_bind; [apply frames_ask_type|].
      intros g0 t g0' A. apply frames_table_store; [now left|].
      apply valid_dtype_truthy.
      apply (ask_type_valid "function_return_type" t g0). now rewrite A.
Qed.

(** The text an expression comes back with does not depend on the globals. *)
Lemma p_expression_text_all :
  (forall e g a g', p_expression e g = (Ok a, g') -> a = expression_text e) /\
  (forall t g a g', p_term t g = (Ok a, g') -> a = term_text t) /\
  (forall f g a g', p_factor f g = (Ok a, g') -> a = factor_text f).
Proof.
  apply expression_mutual_ind;
    cbn [p_expression p_term p_factor expression_text term_text factor_text].
  - intros e1 IH1 op t IH2 g a g' H.
    apply bind_inv_ok in H as (a1 & g1 & H1 & H).
    apply bind_inv_ok in H as (a2 & g2 & H2 & H).
    apply IH1 in H1. apply IH2 in H2. inversion H. now subst.
  - auto.
  - intros t1 IH1 op f IH2 g a g' H.
    apply bind_inv_ok in H as (a1 & g1 & H1 & H).
    apply bind_inv_ok in H as (a2 & g2 & H2 & H).
    apply IH1 in H1. apply IH2 in H2. inversion H. now subst.
  - auto.
  - intros n g a g' H. now inversion H.
  - intros x g a g' H. unfold p_factor_id in H.
    apply bind_inv_ok in H as (u & g1 & _ & H). now inversion H.
  - intros e IH g a g' H.
    apply bind_inv_ok in H as (a1 & g1 & H1 & H).
    apply IH in H1. inversion H. now subst.
Qed.

Lemma p_expression_text (e : expression) (g g' : globals) (a : string) :
  p_expression e g = (Ok a, g') -> a = expression_text e.
Proof. apply p_expression_text_all. Qed.

Lemma frames_expression_all :
  (forall e rf T N, incl (expression_ids e) N -> frames rf T N (p_expression e)) /\
  (forall t rf T N, incl (term_ids t) N -> frames rf T N (p_term t)) /\
  (forall f rf T N, incl (factor_ids f) N -> frames rf T N (p_factor f)).
Proof.
  apply expression_mutual_ind;
    cbn [p_expression p_term p_factor expression_ids term_ids factor_ids].
  - intros e1 IH1 op t IH2 rf T N I. apply incl_app_inv in I as [I1 I2].
    apply frames_bind; [now apply IH1 | intros ? ? ? _].
    apply frames_bind; [now apply IH2 | intros; apply frames_ret].
  - auto.
  - intros t1 IH1 op f IH2 rf T N I. apply incl_app_inv in I as [I1 I2].
    apply frames_bind; [now apply IH1 | intros ? ? ? _].
    apply frames_bind; [now apply IH2 | intros; apply frames_ret].
  - auto.
  - intros. apply frames_ret.
  - intros x rf T N I. unfold p_factor_id.
    apply frames_bind; [|intros; apply frames_ret].
    apply frames_ensure_type. right. apply I. now left.
  - intros e IH rf T N I.
    apply frames_bind; [now apply IH | intros; apply frames_ret].
Qed.

Lemma frames_p_expression rf T N (e : expression) :
  incl (expression_ids e) N -> frames rf T N (p_expression e).
Proof. apply frames_expression_all. Qed.

Lemma frames_p_condition rf T N (c : condition) :
  incl (condition_ids c) N -> frames rf T N (p_condition c).
Proof.
  destruct c as [l op r]. cbn [condition_ids p_condition]. intros I.
  apply incl_app_inv in I as [I1 I2].
  apply frames_bind; [now apply frames_p_expression | intros ? ? ? _].
  apply frames_bind; [now apply frames_p_expression | intros; apply frames_ret].
Qed.

Lemma frames_p_condition_opt rf T N (c : option condition) :
  incl (condition_opt_ids c) N -> frames rf T N (p_condition_opt c).
Proof.
  destruct c as [c|]; cbn [condition_opt_ids p_condition_opt]; intros I.
  - apply frames_bind; [now apply frames_p_condition | intros; apply frames_ret].
  - apply frames_ret.
Qed.

Lemma frames_for_assign_action rf T N (x : string) (v : pyval) :
  In x T ->
  (forall s, v = PStr s -> incl (source_ids s) N) ->
  frames rf T N (for_assign_action x v).
Proof.
  intros I S. unfold for_assign_action.
  apply frames_bind; [|intros; apply frames_ret].
  apply frames_handle_assignment; [exact I|].
  intros s -> B. cbn [for_is_expr] in B.
  apply andb_true_iff in B as [_ B]. right.
  apply (S s eq_refl). unfold source_ids. rewrite B. now left.
Qed.

Lemma frames_for_assign rf T N (a : for_assign) :
  incl (for_assign_targets a) T -> incl (for_assign_ids a) N ->
  frames rf T N (p_for_init_opt a) /\ frames rf T N (p_for_update_opt a).
Proof.
  destruct a as [x n|x val|x e|];
    cbn [for_assign_targets for_assign_ids p_for_init_opt p_for_update_opt];
    intros IT IN.
  - split; (apply frames_for_assign_action;
            [apply IT; now left | destruct n; discriminate]).
  - split; (apply frames_for_assign_action; [apply IT; now left|]);
      intros s E; inversion E; subst s;
      intros k K; apply IN; now right.
  - apply incl_app_inv in IN as [IE IS].
    split; (apply frames_bind; [now apply frames_p_expression|]);
      intros g a g' H; apply p_expression_text in H; subst a;
      (apply frames_for_assign_action; [apply IT; now left|]);
      intros s E; inversion E; subst s;
      intros k K; apply IS; now right.
  - split; apply frames_ret.
Qed.

Lemma frames_p_stmt_list_with rf T N (f : statement -> M node)
  (l : list statement) :
  Forall (fun s => frames rf T N (f s)) l ->
  frames rf T N (p_stmt_list_with f l).
Proof.
  induction 1 as [|s r Hs Hr IH]; cbn [p_stmt_list_with].
  - apply frames_ret.
  - apply frames_bind; [exact Hs | intros ? ? ? _].
    apply frames_bind; [exact IH | intros; apply frames_ret].
Qed.

Lemma incl_flat_map {A B} (f : A -> list B) (l : list A) (m : list B) (a : A) :
  incl (flat_map f l) m -> In a l -> incl (f a) m.
Proof.
  intros I Ha b Hb. apply I, in_flat_map. eauto.
Qed.

Lemma existsb_member {A} (f : A -> bool) (l : list A) (a : A) :
  In a l -> f a = true -> existsb f l = true.
Proof. intros I F. apply existsb_exists. eauto. Qed.

(** What a statement writes: it may overwrite the names it assigns to, add
    the names it gives a type to, and add the reserved key and raise the flag
    when a [return] stands in it. *)
Lemma frames_p_statement (s : statement) :
  forall rf T N,
    incl (statement_targets s) T ->
    incl (statement_ids s) N ->
    (contains_return s = true -> rf = true /\ In return_key N) ->
    frames rf T N (p_statement s).
Proof.
  induction s as [x n|x val|x e|c body IH|c body IH|init c update body IH
                  |val|n|e] using statement_body_ind;
    intros rf T N IT IN R;
    cbn [p_statement statement_targets statement_ids contains_return] in *.
  - apply frames_bind; [|intros; apply frames_ret].
    apply frames_handle_assignment; [apply IT; now left|].
    destruct n; discriminate.
  - apply frames_bind; [|intros; apply frames_ret].
    apply frames_handle_assignment; [apply IT; now left|].
    intros s E B. inversion E. subst s. right. apply IN. right.
    unfold source_ids. apply andb_true_iff in B as [_ B]. rewrite B. now left.
  - apply incl_app_inv in IN as [IE IX].
    apply frames_bind; [now apply frames_p_expression | intros ? ? ? _].
    apply frames_bind; [|intros; apply frames_ret].
    apply frames_handle_assignment; [apply IT; now left|].
    intros s _ B. discriminate.
  - apply incl_app_inv in IN as [IC IB].
    apply frames_bind; [now apply frames_p_condition | intros ? ? ? _].
    apply frames_bind; [|intros; apply frames_ret].
    apply frames_p_stmt_list_with. rewrite Forall_forall in *.
    intros s Hs. apply IH; [exact Hs|..].
    + eapply incl_flat_map; eauto.
    + eapply incl_flat_map; eauto.
    + intros Rs. apply R. eapply existsb_member; eauto.
  - apply incl_app_inv in IN as [IC IB].
    apply frames_bind; [now apply frames_p_condition | intros ? ? ? _].
    apply frames_bind; [|intros; apply frames_ret].
    apply frames_p_stmt_list_with. rewrite Forall_forall in *.
    intros s Hs. apply IH; [exact Hs|..].
    + eapply incl_flat_map; eauto.
    + eapply incl_flat_map; eauto.
    + intros Rs. apply R. eapply existsb_member; eauto.
  - apply incl_app_inv in IT as [IT1 IT]. apply incl_app_inv in IT as [IT2 IT3].
    apply incl_app_inv in IN as [IN1 IN]. apply incl_app_inv in IN as [IN2 IN].
    apply incl_app_inv in IN as [IN3 IN4].
    apply frames_bind; [now apply frames_for_assign | intros ? ? ? _].
    apply frames_bind; [now apply frames_p_condition_opt | intros ? ? ? _].
    apply frames_bind; [now apply frames_for_assign | intros ? ? ? _].
    apply frames_bind; [|intros; apply frames_ret].
    apply frames_p_stmt_list_with. rewrite Forall_forall in *.
    intros s Hs. apply IH; [exact Hs|..].
    + eapply incl_flat_map; eauto.
    + eapply incl_flat_map; eauto.
    + intros Rs. apply R. eapply existsb_member; eauto.
  - destruct (R eq_refl) as [-> I]. now apply frames_p_statement_return.
  - destruct (R eq_refl) as [-> I]. now apply frames_p_statement_return.
  - destruct (R eq_refl) as [-> I].
    apply frames_bind; [now apply frames_p_expression | intros ? ? ? _].
    now apply frames_p_statement_return.
Qed.

(** What the statements of a body write. *)
Lemma frames_p_stmt_list (body : list statement) :
  frames (body_returns body) (body_targets body) (body_keys body)
    (p_stmt_list body).
Proof.
  apply frames_p_stmt_list_with, Forall_forall. intros s Hs.
  apply frames_p_statement.
  - intros k K. apply in_flat_map. eauto.
  - intros k K. apply in_or_app. left. apply in_flat_map. eauto.
  - intros R. assert (B : body_returns body = true).
    { eapply existsb_member; eauto. }
    split; [exact B|]. unfold body_keys. rewrite B.
    apply in_or_app. right. now left.
Qed.

(** ** What the actions leave in the table when they succeed *)

Lemma grows_ret {A} (a : A) : grows (ret a).
Proof. intros g. cbn. auto. Qed.

Lemma grows_bind {A B} (m : M A) (k : A -> M B) :
  grows m -> (forall a, grows (k a)) -> grows (bind m k).
Proof.
  intros Hm Hk g. unfold bind. destruct (Hm g) as [D R].
  destruct (m g) as [[a|e] g1]; cbn [snd] in *; [|auto].
  destruct (Hk a g1) as [D' R']. auto.
Qed.

Lemma grows_handle_assignment (x : string) (v : pyval) (e : bool) :
  grows (handle_assignment x v e).
Proof.
  apply (frames_grows false [x] (match v with PStr s => [s] | _ => [] end)).
  apply frames_handle_assignment; [now left|].
  intros s -> _. right. now left.
Qed.

Lemma grows_p_expression (e : expression) : grows (p_expression e).
Proof.
  apply (frames_grows false [] (expression_ids e)).
  apply frames_p_expression, incl_refl.
Qed.

Lemma grows_p_condition (c : condition) : grows (p_condition c).
Proof.
  apply (frames_grows false [] (condition_ids c)).
  apply frames_p_condition, incl_refl.
Qed.

Lemma grows_p_condition_opt (c : option condition) : grows (p_condition_opt c).
Proof.
  apply (frames_grows false [] (condition_opt_ids c)).
  apply frames_p_condition_opt, incl_refl.
Qed.

Lemma grows_for_assign (a : for_assign) :
  grows (p_for_init_opt a) /\ grows (p_for_update_opt a).
Proof.
  destruct (frames_for_assign false (for_assign_targets a) (for_assign_ids a) a)
    as [H1 H2]; try apply incl_refl.
  split; eapply frames_grows; eauto.
Qed.

Lemma grows_p_statement_return (v : pyval) : grows (p_statement_return v).
Proof.
  apply (frames_grows true [] [return_key]).
  apply frames_p_statement_return. now left.
Qed.

Lemma grows_p_stmt_list (body : list statement) : grows (p_stmt_list body).
Proof. eapply frames_grows, frames_p_stmt_list. Qed.

Lemma grows_p_statement (s : statement) : grows (p_statement s).
Proof.
  apply (frames_grows true (statement_targets s)
           (return_key :: statement_ids s)).
  apply frames_p_statement.
  - apply incl_refl.
  - apply incl_tl, incl_refl.
  - intros _. split; [reflexivity | now left].
Qed.

Lemma ensures_ret {A} (a : A) : ensures false [] (ret a).
Proof. intros g b g' _. split; [discriminate | intros k []]. Qed.

Lemma ensures_bind {A B} rf1 rf2 N1 N2 (m : M A) (k : A -> M B) :
  ensures rf1 N1 m ->
  (forall a, grows (k a)) ->
  (forall g a g', m g = (Ok a, g') -> ensures rf2 N2 (k a)) ->
  ensures (rf1 || rf2) (N1 ++ N2) (bind m k).
Proof.
  intros Hm Gk Hk g b g' H.
  apply bind_inv_ok in H as (a & g1 & H1 & H2).
  destruct (Hm g a g1 H1) as [R1 E1].
  destruct (Hk g a g1 H1 g1 b g' H2) as [R2 E2].
  destruct (Gk a g1) as [D F]. rewrite H2 in D, F. cbn [snd] in D, F.
  split.
  - intros R. apply orb_true_iff in R as [R|R]; [|auto].
    destruct (R1 R). auto.
  - intros x I. apply in_app_or in I as [I|I]; auto.
Qed.

Lemma ensures_weaken {A} (rf rf' : bool) N N' (m : M A) :
  (rf' = true -> rf = true) -> incl N' N ->
  ensures rf N m -> ensures rf' N' m.
Proof.
  intros R I H g a g' E. destruct (H g a g' E) as [H1 H2]. split; auto.
Qed.

Lemma ensures_ensure_type (x : string) : ensures false [x] (ensure_type x).
Proof.
  intros g a g' H. split; [discriminate|]. intros k [<-|[]].
  rewrite ensure_type_eq in H.
  destruct (dict_in x (symbol_table g)) eqn:D.
  - inversion H. now subst.
  - destruct (ask_type x g) as [[t|e] g1]; inversion H.
    cbn [with_table symbol_table]. rewrite dict_in_set, String.eqb_refl.
    reflexivity.
Qed.

(** After a successful assignment the target has a type, and so has the
    identifier the type was copied from. *)
Lemma ensures_handle_assignment (x : string) (v : pyval) (e : bool) :
  ensures false
    (x :: match v with
          | PStr s => if negb e && isidentifier s then [s] else []
          | _ => []
          end)
    (handle_assignment x v e).
Proof.
  intros g a g' H. split; [discriminate|]. intros k K.
  unfold handle_assignment in H.
  apply bind_inv_ok in H as (u & g1 & H & E). inversion E. subst g1.
  destruct v as [n|r|s]; cbn [infer_type] in H.
  - destruct K as [<-|[]]. inversion H.
    cbn. rewrite dict_in_set, String.eqb_refl. reflexivity.
  - destruct K as [<-|[]]. inversion H.
    cbn. rewrite dict_in_set, String.eqb_refl. reflexivity.
  - destruct (negb e && isidentifier s).
    + apply bind_inv_ok in H as (u1 & g1 & A1 & A2).
      pose proof (ensures_ensure_type s g u1 g1 A1) as [_ S1].
      specialize (S1 s (or_introl eq_refl)).
      unfold bind, get_table in A2.
      destruct (dict_get (symbol_table g1) s) as [t|]; [|discriminate].
      inversion A2. cbn [with_table symbol_table]. rewrite dict_in_set.
      destruct K as [<-|[<-|[]]].
      * now rewrite String.eqb_refl.
      * rewrite S1. apply orb_true_r.
    + destruct K as [<-|[]].
      pose proof (ensures_ensure_type x g u g' H) as [_ S1].
      apply S1. now left.
Qed.

Lemma ensures_bind_ret {A B} rf N (m : M A) (f : A -> B) :
  ensures rf N m -> ensures rf N (bind m (fun a => ret (f a))).
Proof.
  intros H g b g' E. apply bind_inv_ok in E as (a & g1 & E1 & E2).
  inversion E2. subst. eauto.
Qed.

Lemma grows_expression_all :
  (forall e, grows (p_expression e)) /\
  (forall t, grows (p_term t)) /\
  (forall f, grows (p_factor f)).
Proof.
  destruct frames_expression_all as (He & Ht & Hf).
  split; [|split]; intros x.
  - apply (frames_grows false [] (expression_ids x)), He, incl_refl.
  - apply (frames_grows false [] (term_ids x)), Ht, incl_refl.
  - apply (frames_grows false [] (factor_ids x)), Hf, incl_refl.
Qed.

Lemma ensures_expression_all :
  (forall e, ensures false (expression_ids e) (p_expression e)) /\
  (forall t, ensures false (term_ids t) (p_term t)) /\
  (forall f, ensures false (factor_ids f) (p_factor f)).
Proof.
  destruct grows_expression_all as (Ge & Gt & Gf).
  apply expression_mutual_ind;
    cbn [p_expression p_term p_factor expression_ids term_ids factor_ids].
  - intros e1 IH1 op t IH2.
    apply (ensures_bind false false); [exact IH1 | |].
    + intros a. apply grows_bind; [apply Gt | intros; apply grows_ret].
    + intros. now apply ensures_bind_ret.
  - auto.
  - intros t1 IH1 op f IH2.
    apply (ensures_bind false false); [exact IH1 | |].
    + intros a. apply grows_bind; [apply Gf | intros; apply grows_ret].
    + intros. now apply ensures_bind_ret.
  - auto.
  - intros n. apply ensures_ret.
  - intros x. unfold p_factor_id.
    apply (ensures_bind_ret false [x]), ensures_ensure_type.
  - intros e IH. now apply ensures_bind_ret.
Qed.

Lemma ensures_p_expression (e : expression) :
  ensures false (expression_ids e) (p_expression e).
Proof. apply ensures_expression_all. Qed.

Lemma ensures_p_condition (c : condition) :
  ensures false (condition_ids c) (p_condition c).
Proof.
  destruct c as [l op r]. cbn [p_condition condition_ids].
  apply (ensures_bind false false); [apply ensures_p_expression | |].
  - intros a. apply grows_bind; [apply grows_p_expression | intros; apply grows_ret].
  - intros. apply ensures_bind_ret, ensures_p_expression.
Qed.

Lemma ensures_p_condition_opt (c : option condition) :
  ensures false (condition_opt_ids c) (p_condition_opt c).
Proof.
  destruct c as [c|]; cbn [p_condition_opt condition_opt_ids].
  - apply ensures_bind_ret, ensures_p_condition.
  - apply ensures_ret.
Qed.

Lemma ensures_for_assign_action (x : string) (v : pyval) :
  ensures false
    (x :: match v with PStr s => source_ids s | _ => [] end)
    (for_assign_action x v).
Proof.
  unfold for_assign_action. apply ensures_bind_ret.
  eapply ensures_weaken; [| |apply ensures_handle_assignment]; [auto|].
  destruct v as [n|r|s]; try apply incl_refl.
  unfold source_ids. cbn [for_is_expr].
  destruct (isidentifier s); apply incl_refl.
Qed.

Lemma grows_for_assign_action (x : string) (v : pyval) :
  grows (for_assign_action x v).
Proof.
  unfold for_assign_action.
  apply grows_bind; [apply grows_handle_assignment | intros; apply grows_ret].
Qed.

Lemma ensures_for_assign (a : for_assign) :
  ensures false (for_assign_ids a) (p_for_init_opt a) /\
  ensures false (for_assign_ids a) (p_for_update_opt a).
Proof.
  destruct a as [x n|x val|x e|];
    cbn [for_assign_ids p_for_init_opt p_for_update_opt].
  - split; (eapply ensures_weaken; [| |apply ensures_for_assign_action]);
      auto; destruct n; apply incl_refl.
  - split; apply (ensures_for_assign_action x (PStr val)).
  - split; (apply (ensures_bind false false (expression_ids e)
                     (x :: source_ids (expression_text e)));
            [apply ensures_p_expression
            |intros; apply grows_for_assign_action
            |intros g a g' H; apply p_expression_text in H; subst a;
             apply (ensures_for_assign_action x (PStr (expression_text e)))]).
  - split; apply ensures_ret.
Qed.

(** After a [return] that succeeds the flag is raised and the reserved key
    has a type. *)
Lemma ensures_p_statement_return (v : pyval) :
  ensures true [] (p_statement_return v).
Proof.
  intros g a g' H. split; [intros _ | intros k []].
  unfold p_statement_return in H.
  apply bind_inv_ok in H as (u & g1 & H1 & H). inversion H1. subst g1. clear H1.
  apply bind_inv_ok in H as (d & g1 & H1 & H). inversion H1. subst d g1. clear H1.
  apply bind_inv_ok in H as (u1 & g1 & H1 & H). inversion H. subst g1. clear H.
  cbn [symbol_table] in H1.
  destruct (dict_in return_key (symbol_table g)) eqn:D.
  - inversion H1. cbn. auto.
  - destruct (infer_type v) as [t|].
    + inversion H1. cbn. rewrite dict_in_set, String.eqb_refl. auto.
    + apply bind_inv_ok in H1 as (t & g1 & A & S).
      pose proof (ask_type_state "function_return_type"
                    (mkGlobals (symbol_table g) true (type_provider g)
                               (oracle_calls g))) as (_ & F & _).
      rewrite A in F. cbn in F. inversion S. cbn.
      rewrite dict_in_set, String.eqb_refl. auto.
Qed.

Lemma grows_p_stmt_list_with (f : statement -> M node) (l : list statement) :
  Forall (fun s => grows (f s)) l -> grows (p_stmt_list_with f l).
Proof.
  induction 1; cbn [p_stmt_list_with]; [apply grows_ret|].
  apply grows_bind; [assumption | intros].
  apply grows_bind; [assumption | intros; apply grows_ret].
Qed.

Lemma ensures_p_stmt_list_with (f : statement -> M node)
  (cr : statement -> bool) (ids : statement -> list string)
  (l : list statement) :
  Forall (fun s => grows (f s)) l ->
  Forall (fun s => ensures (cr s) (ids s) (f s)) l ->
  ensures (existsb cr l) (flat_map ids l) (p_stmt_list_with f l).
Proof.
  intros G. induction 1 as [|s r Hs Hr IH];
    cbn [p_stmt_list_with existsb flat_map].
  - apply ensures_ret.
  - inversion G as [|? ? Gs Gr]. subst.
    apply ensures_bind; [exact Hs | |].
    + intros a. apply grows_bind; [|intros; apply grows_ret].
      now apply grows_p_stmt_list_with.
    + intros. apply ensures_bind_ret. now apply IH.
Qed.

(** After a statement that succeeds, every name it gives a type to has one;
    when a [return] stands in it, the flag is raised and the reserved key has
    a type. *)
Lemma ensures_p_statement (s : statement) :
  ensures (contains_return s) (statement_ids s) (p_statement s).
Proof.
  assert (GL : forall body, Forall (fun s => grows (p_statement s)) body).
  { intros body. apply Forall_forall. intros. apply grows_p_statement. }
  assert (GB : forall body (f : list node -> node),
             grows (p6 <- p_stmt_list_with p_statement body ;; ret (f p6))).
  { intros. apply grows_bind; [|intros; apply grows_ret].
    apply grows_p_stmt_list_with, GL. }
  induction s as [x n|x val|x e|c body IH|c body IH|init c update body IH
                  |val|n|e] using statement_body_ind;
    cbn [p_statement statement_ids contains_return].
  - apply ensures_bind_ret.
    eapply ensures_weaken; [| |apply ensures_handle_assignment]; auto.
    destruct n; apply incl_refl.
  - apply ensures_bind_ret. apply (ensures_handle_assignment x (PStr val) false).
  - apply (ensures_bind false false); [apply ensures_p_expression | |].
    + intros. apply grows_bind; [apply grows_handle_assignment|].
      intros. apply grows_ret.
    + intros. apply ensures_bind_ret.
      eapply ensures_weaken; [| |apply ensures_handle_assignment]; auto.
      intros k [<-|[]]. now left.
  - apply (ensures_bind false (existsb contains_return body));
      [apply ensures_p_condition | intros; apply GB |].
    intros. apply ensures_bind_ret.
    now apply ensures_p_stmt_list_with.
  - apply (ensures_bind false (existsb contains_return body));
      [apply ensures_p_condition | intros; apply GB |].
    intros. apply ensures_bind_ret.
    now apply ensures_p_stmt_list_with.
  - apply (ensures_bind false (existsb contains_return body));
      [apply ensures_for_assign | |].
    { intros. apply grows_bind; [apply grows_p_condition_opt | intros].
      apply grows_bind; [apply grows_for_assign | intros]. apply GB. }
    intros.
    apply (ensures_bind false (existsb contains_return body));
      [apply ensures_p_condition_opt | |].
    { intros. apply grows_bind; [apply grows_for_assign | intros]. apply GB. }
    intros.
    apply (ensures_bind false (existsb contains_return body));
      [apply ensures_for_assign | intros; apply GB |].
    intros. apply ensures_bind_ret.
    now apply ensures_p_stmt_list_with.
  - apply ensures_p_statement_return.
  - apply ensures_p_statement_return.
  - eapply ensures_weaken;
      [| |apply (ensures_bind false true (expression_ids e) [])].
    + auto.
    + apply incl_appl, incl_refl.
    + apply ensures_p_expression.
    + intros. apply grows_p_statement_return.
    + intros. apply ensures_p_statement_return.
Qed.

(** After a body that succeeds. *)
Lemma ensures_p_stmt_list (body : list statement) :
  ensures (body_returns body) (body_ids body) (p_stmt_list body).
Proof.
  apply ensures_p_stmt_list_with; apply Forall_forall; intros.
  - apply grows_p_statement.
  - apply ensures_p_statement.
Qed.

(** ** The whole parse *)

Lemma p_stmt_list_app (f : statement -> M node) (l1 l2 : list statement)
  (g g' : globals) (nodes : list node) :
  p_stmt_list_with f (l1 ++ l2) g = (Ok nodes, g') ->
  exists n1 n2 g1,
    p_stmt_list_with f l1 g = (Ok n1, g1) /\
    p_stmt_list_with f l2 g1 = (Ok n2, g') /\
    nodes = (n1 ++ n2)%list.
Proof.
  revert g nodes. induction l1 as [|s r IH]; intros g nodes H.
  - exists [], nodes, g. auto.
  - cbn [app] in H. rewrite p_stmt_list_cons in H. rewrite p_stmt_list_cons.
    destruct (f s g) as [[n|e] g0]; [|discriminate].
    destruct (p_stmt_list_with f (r ++ l2) g0) as [[ns|e] g2] eqn:E;
      [|discriminate].
    inversion H. subst.
    destruct (IH _ _ E) as (n1 & n2 & g1 & E1 & E2 & ->).
    rewrite E1. exists (n :: n1), n2, g1. auto.
Qed.

(** A parse that succeeds ran the body on the reset globals, took the
    return type out of the table and gave every parameter a type. *)
Lemma parse_code_inv (code : function_def) (g g' : globals) (ast : list node) :
  parse_code code g = (Ok ast, g') ->
  exists nodes g1,
    p_stmt_list (fn_body code) (reset_globals g) = (Ok nodes, g1) /\
    ensure_param_types (fn_params code) (after_promotion g1) = (Ok tt, g') /\
    ast = [NFunction (fn_name code) (fn_params code) nodes (promoted_type g1)].
Proof.
  intros H.
  change (parse_code code g) with (p_program code (reset_globals g)) in H.
  unfold p_program, p_function in H.
  apply bind_inv_ok in H as (p1 & g3 & H & E). inversion E. subst. clear E.
  apply bind_inv_ok in H as (nodes & g1 & B & H).
  exists nodes, g1. split; [exact B|].
  unfold bind at 1 in H. unfold get_has_return at 1 in H.
  unfold bind at 1 in H. unfold get_table at 1 in H.
  unfold after_promotion, promoted, promoted_type.
  apply bind_inv_ok in H as (rt & g2 & R & H).
  apply bind_inv_ok in H as (u & g4 & P & E). inversion E. subst. clear E.
  destruct u.
  destruct (has_return g1) eqn:HR; cbn [andb] in *.
  - unfold dict_in in *.
    destruct (dict_get (symbol_table g1) return_key) as [t|] eqn:G.
    + inversion R. subst. auto.
    + inversion R. subst. auto.
  - inversion R. subst. rewrite P.
    destruct (dict_get _ return_key); auto.
Qed.

Lemma statement_targets_ids (s : statement) :
  incl (statement_targets s) (statement_ids s).
Proof.
  induction s as [x n|x val|x e|c body IH|c body IH|init c update body IH
                  |val|n|e] using statement_body_ind;
    cbn [statement_targets statement_ids].
  - apply incl_refl.
  - intros k [<-|[]]. now left.
  - intros k [<-|[]]. apply in_or_app. right. now left.
  - apply incl_appr. intros k K. apply in_flat_map in K as (s & Hs & K).
    rewrite Forall_forall in IH. apply in_flat_map. exists s. split; auto.
    now apply IH.
  - apply incl_appr. intros k K. apply in_flat_map in K as (s & Hs & K).
    rewrite Forall_forall in IH. apply in_flat_map. exists s. split; auto.
    now apply IH.
  - assert (FA : forall a, incl (for_assign_targets a) (for_assign_ids a)).
    { intros [y m|y v|y ex|]; cbn; intros k K; try destruct K as [<-|[]];
        auto using in_eq.
      apply in_or_app. right. now left. }
    intros k K. apply in_app_or in K as [K|K].
    { apply in_or_app. left. now apply FA. }
    apply in_app_or in K as [K|K].
    { apply in_or_app. right. apply in_or_app. right.
      apply in_or_app. left. now apply FA. }
    apply in_or_app. right. apply in_or_app. right. apply in_or_app. right.
    apply in_flat_map in K as (s & Hs & K).
    rewrite Forall_forall in IH. apply in_flat_map. exists s. split; auto.
    now apply IH.
  - intros k [].
  - intros k [].
  - intros k [].
Qed.

Lemma body_targets_ids (body : list statement) :
  incl (body_targets body) (body_ids body).
Proof.
  intros k K. apply in_flat_map in K as (s & Hs & K).
  apply in_flat_map. exists s. split; [exact Hs|].
  now apply statement_targets_ids.
Qed.

(** ** The reserved key and the return statements *)

(** C6 (amended).  For every function that parses, and in whose body no
    variable is named as the reserved key: when the body is reduced and
    [p_function] has not yet taken the return type out of the table, the
    reserved key is in the table if and only if a [return] statement was
    parsed.  With no [return] the node's return type is [void]; with one it
    is the type recorded under the reserved key. *)
Theorem return_key_tracks_return (code : function_def) (g g' : globals)
  (ast : list node) :
  ~ In return_key (body_ids (fn_body code)) ->
  parse_code code g = (Ok ast, g') ->
  exists nodes g1,
    p_stmt_list (fn_body code) (reset_globals g) = (Ok nodes, g1) /\
    (dict_in return_key (symbol_table g1) = true
     <-> body_returns (fn_body code) = true) /\
    (body_returns (fn_body code) = false ->
     ast = [NFunction (fn_name code) (fn_params code) nodes "void"]) /\
    (body_returns (fn_body code) = true ->
     exists t, dict_get (symbol_table g1) return_key = Some t /\
               ast = [NFunction (fn_name code) (fn_params code) nodes t]).
Proof.
  intros NK H. apply parse_code_inv in H as (nodes & g1 & B & P & E).
  exists nodes, g1. split; [exact B|].
  pose proof (frames_p_stmt_list (fn_body code) (reset_globals g)) as F.
  unfold frames_at in F. rewrite B in F. cbn [snd] in F.
  destruct F as (_ & R1 & _ & W1 & _).
  destruct (ensures_p_stmt_list (fn_body code) _ _ _ B) as [E1 _].
  destruct (body_returns (fn_body code)) eqn:BR.
  - destruct (E1 eq_refl) as [HR DK]. repeat split; auto; try discriminate.
    intros _. apply dict_in_true in DK as [t DK]. exists t. split; [exact DK|].
    subst ast. unfold promoted_type. now rewrite DK, HR.
  - assert (G : dict_get (symbol_table g1) return_key = None).
    { rewrite W1; [reflexivity | |].
      - intros K. apply NK. now apply body_targets_ids.
      - right. unfold body_keys. rewrite BR, app_nil_r. exact NK. }
    repeat split; try discriminate.
    + intros D. apply dict_in_true in D as [t D]. congruence.
    + intros _. subst ast. unfold promoted_type. now rewrite G.
Qed.

Lemma return_key_tracks_return_witness :
  exists nodes g1,
    p_stmt_list (fn_body scenario_two)
      (reset_globals (globals_with (Some (always "int"))))
    = (Ok nodes, g1) /\
    (dict_in return_key (symbol_table g1) = true
     <-> body_returns (fn_body scenario_two) = true).
Proof.
  destruct (return_key_tracks_return scenario_two
              (globals_with (Some (always "int")))
              (mkGlobals [("x", "int"); ("y", "int")] true
                         (Some (always "int")) ["function_return_type"])
              [NFunction "f" []
                 [NAssign (AssignNode "x" "5"); NAssign (AssignNode "y" "x");
                  NReturn (PStr "y")] "int"])
    as (nodes & g1 & B & I & _).
  - cbn. intros [H|[H|[H|[]]]]; discriminate.
  - reflexivity.
  - exists nodes, g1. split; assumption.
Defined.

(** C6, as stated, fails on a function with a variable named as the
    reserved key: [fn f() { __return_type__ = 5; }] parses, no [return] was
    parsed, and the reserved key is in the table when the body is reduced. *)
Lemma reserved_key_without_return :
  body_returns (fn_body shadowed_key) = false /\
  p_stmt_list (fn_body shadowed_key) (reset_globals initial_globals)
  = (Ok [NAssign (AssignNode return_key "5")],
     mkGlobals [(return_key, "int")] false None []) /\
  dict_in return_key [(return_key, "int")] = true /\
  parse_code shadowed_key initial_globals
  = (Ok [NFunction "f" [] [NAssign (AssignNode return_key "5")] "void"],
     mkGlobals [(return_key, "int")] false None []).
Proof. repeat split. Qed.

(** [p_statement_return] on a value without a literal shape, met while the
    reserved key has no type. *)
Lemma p_statement_return_asks (v : pyval) (g : globals) :
  infer_type v = None ->
  dict_in return_key (symbol_table g) = false ->
  p_statement_return v g
  = match ask_type "function_return_type"
            (mkGlobals (symbol_table g) true (type_provider g) (oracle_calls g))
    with
    | (Ok t, g1) =>
        (Ok (NReturn v), with_table (dict_set (symbol_table g1) return_key t) g1)
    | (Raise e, g1) => (Raise e, g1)
    end.
Proof.
  intros I D. unfold p_statement_return.
  unfold bind at 1. unfold set_has_return at 1.
  unfold bind at 1. unfold get_table at 1. cbn [symbol_table].
  rewrite D, I. unfold bind.
  destruct (ask_type _ _) as [[t|e] g1]; reflexivity.
Qed.




(** In a body in which no variable is named as the reserved key, the key has
    no type as long as no [return] was parsed: the first [return] of the
    body meets the table in the state C9 (amended) asks for. *)
Lemma first_return_meets_no_key (before : list statement) (g g1 : globals)
  (nodes : list node) :
  ~ In return_key (body_ids before) ->
  body_returns before = false ->
  p_stmt_list before (reset_globals g) = (Ok nodes, g1) ->
  dict_in return_key (symbol_table g1) = false /\ has_return g1 = false.
Proof.
  intros NK BR B.
  pose proof (frames_p_stmt_list before (reset_globals g)) as F.
  unfold frames_at in F. rewrite B in F. cbn [snd] in F.
  destruct F as (_ & R1 & _ & W1 & _). split.
  - apply dict_in_false. rewrite W1; [reflexivity | |].
    + intros K. apply NK. now apply body_targets_ids.
    + right. unfold body_keys. rewrite BR, app_nil_r. exact NK.
  - destruct R1 as [R1|[R1 _]]; [exact R1 | congruence].
Qed.


(** ** Propagation *)

Lemma frames_ensure_param_types rf T N (params : list string) :
  incl params N -> frames rf T N (ensure_param_types params).
Proof.
  induction params as [|x r IH]; cbn [ensure_param_types]; intros I.
  - apply frames_ret.
  - apply frames_bind.
    + apply frames_ensure_type. right. apply I. now left.
    + intros. apply IH. intros k K. apply I. now right.
Qed.

(** The promotion of the return type and the typing of the parameters leave
    the type of every variable of the table that is not named as the
    reserved key. *)
Lemma p_function_tail_keeps (params : list string) (g1 g' : globals)
  (k t : string) :
  k <> return_key ->
  dict_get (symbol_table g1) k = Some t ->
  ensure_param_types params (after_promotion g1) = (Ok tt, g') ->
  dict_get (symbol_table g') k = Some t.
Proof.
  intros NK G P.
  assert (G2 : dict_get (symbol_table (after_promotion g1)) k = Some t).
  { unfold after_promotion. destruct (promoted g1); [|exact G].
    cbn [with_table symbol_table]. now rewrite dict_get_remove_other. }
  pose proof (frames_ensure_param_types false [] params params (incl_refl _)
                (after_promotion g1)) as F.
  unfold frames_at in F. rewrite P in F. cbn [snd] in F.
  destruct F as (_ & _ & _ & W & _).
  rewrite W; [exact G2 | intros [] |].
  left. apply dict_in_true. eauto.
Qed.

Lemma p_statement_assign_id (b a t : string) (g : globals) :
  isidentifier a = true ->
  dict_get (symbol_table g) a = Some t ->
  p_statement (StAssignId b a) g
  = (Ok (NAssign (AssignNode b a)),
     with_table (dict_set (symbol_table g) b t) g).
Proof.
  intros I G. cbn [p_statement]. unfold bind.
  rewrite (handle_assignment_identifier b a g I), G. reflexivity.
Qed.

(** The type of a variable at the end of the parse is the one of the last
    literal assigned to it, whatever was recorded before, when nothing
    assigns the variable afterwards. *)
Lemma last_literal_assignment_wins (name : string) (params : list string)
  (before after : list statement) (x : string) (n : number)
  (g g' : globals) (ast : list node) :
  x <> return_key ->
  ~ In x (body_targets after) ->
  parse_code
    (FunctionDef name params (before ++ StAssignNumber x n :: after)) g
  = (Ok ast, g') ->
  dict_get (symbol_table g') x = infer_type (number_value n).
Proof.
  intros Nx Tx H.
  apply parse_code_inv in H as (nodes & g1 & B & P & _).
  cbn [fn_body fn_params] in B, P. unfold p_stmt_list in B.
  apply p_stmt_list_app in B as (n1 & n2 & gm & _ & B & _).
  set (t := match n with NumInt _ => "int" | NumFloat _ => "float" end).
  rewrite p_stmt_list_cons, p_statement_assign_number in B. fold t in B.
  set (g2 := with_table (dict_set (symbol_table gm) x t) gm) in *.
  destruct (p_stmt_list_with p_statement after g2) as [[ns|e] g3] eqn:A;
    [|discriminate].
  inversion B. subst g3. clear B.
  pose proof (frames_p_stmt_list after g2) as F.
  unfold frames_at, p_stmt_list in F. rewrite A in F. cbn [snd] in F.
  destruct F as (_ & _ & _ & W & _).
  assert (G2 : dict_get (symbol_table g2) x = Some t).
  { cbn. apply dict_get_set_same. }
  assert (G1 : dict_get (symbol_table g1) x = Some t).
  { rewrite W; [exact G2 | exact Tx |]. left. apply dict_in_true. eauto. }
  rewrite (p_function_tail_keeps params g1 g' x t Nx G1 P).
  now rewrite infer_type_number.
Qed.

(** ** Statements at any depth *)

(** What an action that frames its writes keeps: the flag, when it may not
    raise it, and the type of every key it does not write under. *)
Lemma frames_at_kept {A} rf T N (m : M A) (g : globals) (k t : string) :
  frames_at rf T N m g ->
  ~ In k T ->
  dict_get (symbol_table g) k = Some t ->
  dict_get (symbol_table (snd (m g))) k = Some t.
Proof.
  intros (_ & _ & _ & W & _) NT G.
  rewrite W; [exact G | exact NT |]. left. apply dict_in_true. eauto.
Qed.

Lemma frames_at_untouched {A} T N (m : M A) (g : globals) :
  frames_at false T N m g ->
  has_return (snd (m g)) = has_return g /\
  type_provider (snd (m g)) = type_provider g /\
  (forall k, ~ In k T -> ~ In k N ->
             dict_get (symbol_table (snd (m g))) k = dict_get (symbol_table g) k).
Proof.
  intros (P & R & _ & W & _). split; [|split; [exact P|]].
  - destruct R as [R|[R _]]; [exact R | discriminate].
  - intros k NT NN. apply W; auto.
Qed.

(** The statements after a place keep the type of a variable they do not
    assign to. *)
Lemma p_stmt_list_keeps (after : list statement) (g g' : globals)
  (nodes : list node) (k t : string) :
  p_stmt_list after g = (Ok nodes, g') ->
  ~ In k (body_targets after) ->
  dict_get (symbol_table g) k = Some t ->
  dict_get (symbol_table g') k = Some t.
Proof.
  intros H NT G.
  pose proof (frames_at_kept _ _ _ _ g k t (frames_p_stmt_list after g) NT G) as K.
  now rewrite H in K.
Qed.

Lemma for_assign_targets_ids (a : for_assign) :
  incl (for_assign_targets a) (for_assign_ids a).
Proof.
  destruct a as [y m|y v|y ex|]; cbn; intros k K;
    try destruct K as [<-|[]]; auto using in_eq.
  apply in_or_app. right. now left.
Qed.

(** A statement with a body parses its header, which gives a type to the
    names of the header only and leaves the flag and the provider, and then
    its body; the globals after the body are those after the statement. *)
Lemma encloses_inv (s : statement) (body : list statement) (g g' : globals)
  (n : node) :
  encloses s body ->
  p_statement s g = (Ok n, g') ->
  exists g0 nodes,
    p_stmt_list body g0 = (Ok nodes, g') /\
    has_return g0 = has_return g /\
    type_provider g0 = type_provider g /\
    (forall k, ~ In k (header_ids s) ->
               dict_get (symbol_table g0) k = dict_get (symbol_table g) k).
Proof.
  intros E H. destruct E as [c body|c body|init c update body];
    cbn [p_statement header_ids] in *.
  - apply bind_inv_ok in H as (p3 & g0 & C & H).
    apply bind_inv_ok in H as (p6 & g2 & B & H). inversion H. subst g2.
    exists g0, p6. split; [exact B|].
    pose proof (frames_at_untouched _ _ _ g
                  (frames_p_condition false [] (condition_ids c) c
                     (incl_refl _) g)) as (R & P & W).
    rewrite C in R, P, W. cbn [snd] in R, P, W.
    split; [exact R|]. split; [exact P|].
    intros k NK. apply W; [intros [] | exact NK].
  - apply bind_inv_ok in H as (p3 & g0 & C & H).
    apply bind_inv_ok in H as (p6 & g2 & B & H). inversion H. subst g2.
    exists g0, p6. split; [exact B|].
    pose proof (frames_at_untouched _ _ _ g
                  (frames_p_condition false [] (condition_ids c) c
                     (incl_refl _) g)) as (R & P & W).
    rewrite C in R, P, W. cbn [snd] in R, P, W.
    split; [exact R|]. split; [exact P|].
    intros k NK. apply W; [intros [] | exact NK].
  - apply bind_inv_ok in H as (p3 & ga & I & H).
    apply bind_inv_ok in H as (p5 & gb & C & H).
    apply bind_inv_ok in H as (p7 & g0 & U & H).
    apply bind_inv_ok in H as (p10 & g2 & B & H). inversion H. subst g2.
    exists g0, p10. split; [exact B|].
    pose proof (frames_at_untouched _ _ _ g
                  (proj1 (frames_for_assign false _ _ init
                            (incl_refl _) (incl_refl _)) g)) as (R1 & P1 & W1).
    pose proof (frames_at_untouched _ _ _ ga
                  (frames_p_condition_opt false [] (condition_opt_ids c) c
                     (incl_refl _) ga)) as (R2 & P2 & W2).
    pose proof (frames_at_untouched _ _ _ gb
                  (proj2 (frames_for_assign false _ _ update
                            (incl_refl _) (incl_refl _)) gb)) as (R3 & P3 & W3).
    rewrite I in R1, P1, W1. rewrite C in R2, P2, W2. rewrite U in R3, P3, W3.
    cbn [snd] in *. split; [congruence|]. split; [congruence|].
    intros k NK.
    assert (N1 : ~ In k (for_assign_ids init)).
    { intros K. apply NK. apply in_or_app. now left. }
    assert (N2 : ~ In k (condition_opt_ids c)).
    { intros K. apply NK. apply in_or_app. right. apply in_or_app. now left. }
    assert (N3 : ~ In k (for_assign_ids update)).
    { intros K. apply NK. apply in_or_app. right. apply in_or_app. now right. }
    rewrite W3, W2, W1; auto.
    + intros K. now apply N1, for_assign_targets_ids.
    + intros K. now apply N3, for_assign_targets_ids.
Qed.

(** The place of a statement in a list that has parsed: the statements
    before it, the statement, the statements after it. *)
Lemma p_stmt_list_place (before after : list statement) (s : statement)
  (g g' : globals) (nodes : list node) :
  p_stmt_list (before ++ s :: after) g = (Ok nodes, g') ->
  exists n1 gm n g2 n2,
    p_stmt_list before g = (Ok n1, gm) /\
    p_statement s gm = (Ok n, g2) /\
    p_stmt_list after g2 = (Ok n2, g').
Proof.
  intros H. unfold p_stmt_list in *.
  apply p_stmt_list_app in H as (n1 & n2 & gm & B1 & B2 & _).
  rewrite p_stmt_list_cons in B2.
  destruct (p_statement s gm) as [[n|e] g2] eqn:S; [|discriminate].
  destruct (p_stmt_list_with p_statement after g2) as [[ns|e] g3] eqn:A;
    [|discriminate].
  inversion B2. subst g3. eauto 8.
Qed.

(** The pair [a = n; b = a;], wherever it stands, leaves [a] and [b] with the
    type of the literal when the list it stands in has parsed. *)
Lemma pair_stands_types (a b : string) (n : number) (body : list statement) :
  isidentifier a = true ->
  pair_stands a n b body ->
  forall g g' nodes,
    p_stmt_list body g = (Ok nodes, g') ->
    dict_get (symbol_table g') a = Some (number_type n) /\
    dict_get (symbol_table g') b = Some (number_type n).
Proof.
  intros I P. induction P as [before after Ta Tb|before s body after E P IH Ta Tb];
    intros g g' nodes H.
  - apply p_stmt_list_place in H as (n1 & gm & n0 & g2 & n2 & _ & S & A).
    rewrite p_statement_assign_number in S. inversion S. subst g2. clear S.
    apply (p_stmt_list_place [] after (StAssignId b a)) in A
      as (n3 & gn & n4 & g3 & n5 & N & S & A).
    inversion N. subst gn. clear N.
    rewrite (p_statement_assign_id b a (number_type n)) in S;
      [|exact I | apply dict_get_set_same].
    inversion S. subst g3. clear S.
    split.
    + apply (p_stmt_list_keeps after _ g' n5 a _ A Ta). cbn.
      destruct (String.eqb a b) eqn:Eab.
      * apply String.eqb_eq in Eab. subst b. apply dict_get_set_same.
      * apply String.eqb_neq in Eab. rewrite dict_get_set_other by exact Eab.
        apply dict_get_set_same.
    + apply (p_stmt_list_keeps after _ g' n5 b _ A Tb). cbn.
      apply dict_get_set_same.
  - apply p_stmt_list_place in H as (n1 & gm & n0 & g2 & n2 & _ & S & A).
    apply (encloses_inv s body gm g2 n0 E) in S as (g0 & ns & B & _ & _ & _).
    destruct (IH g0 g2 ns B) as [Ga Gb]. split.
    + exact (p_stmt_list_keeps after g2 g' n2 a _ A Ta Ga).
    + exact (p_stmt_list_keeps after g2 g' n2 b _ A Tb Gb).
Qed.

(** C3 (amended).  For every program that contains the pair
    [a = <literal>; b = a;], at the top of the body or inside [if], [while]
    and [for] bodies at any depth, and assigns neither [a] nor [b] again
    after the pair ([a] and [b] not being named as the reserved key): when
    the parse completes, the type the table records for [b] is the type it
    records for [a], the one inferred from the literal. *)
Theorem type_propagation (name : string) (params : list string)
  (body : list statement) (a b : string) (n : number)
  (g g' : globals) (ast : list node) :
  isidentifier a = true ->
  a <> return_key -> b <> return_key ->
  pair_stands a n b body ->
  parse_code (FunctionDef name params body) g = (Ok ast, g') ->
  dict_get (symbol_table g') a = infer_type (number_value n) /\
  dict_get (symbol_table g') b = dict_get (symbol_table g') a.
Proof.
  intros I Na Nb P H.
  apply parse_code_inv in H as (nodes & g1 & B & T & _).
  cbn [fn_body fn_params] in B, T.
  destruct (pair_stands_types a b n body I P _ _ _ B) as [Ga Gb].
  rewrite (p_function_tail_keeps params g1 g' a _ Na Ga T).
  rewrite (p_function_tail_keeps params g1 g' b _ Nb Gb T).
  rewrite infer_type_number. auto.
Qed.

Lemma type_propagation_witness :
  let g' := snd (parse_code nested_pair (globals_with (Some (always "int")))) in
  dict_get (symbol_table g') "a" = Some "int" /\
  dict_get (symbol_table g') "b" = dict_get (symbol_table g') "a".
Proof.
  refine (type_propagation "f" []
            (fn_body nested_pair) "a" "b" (NumInt 5)
            (globals_with (Some (always "int")))
            (snd (parse_code nested_pair (globals_with (Some (always "int")))))
            [NFunction "f" []
               [NIf "c < 1" [NAssign (AssignNode "a" "5");
                             NAssign (AssignNode "b" "a")];
                NAssign (AssignNode "d" "2")] "void"]
            eq_refl _ _ _ eq_refl).
  - unfold return_key. discriminate.
  - unfold return_key. discriminate.
  - apply (pair_inside "a" (NumInt 5) "b" []
             (StIf (Condition (ExprTerm (TermFactor (FactorId "c"))) LT
                      (ExprTerm (TermFactor (FactorNumber (NumInt 1)))))
                [StAssignNumber "a" (NumInt 5); StAssignId "b" "a"])
             [StAssignNumber "a" (NumInt 5); StAssignId "b" "a"]
             [StAssignNumber "d" (NumInt 2)]).
    + constructor.
    + apply (pair_here "a" (NumInt 5) "b" [] []); simpl; tauto.
    + simpl. intros [H|[]]. discriminate.
    + simpl. intros [H|[]]. discriminate.
Defined.

(** C3, as stated, fails when [a] is assigned again after the pair: after
    the parse of [fn f() { a = 5; b = a; a = 2.5; }] the table records
    [float] for [a] and [int] for [b]. *)
Lemma reassigned_source_differs :
  parse_code reassigned_source initial_globals
  = (Ok [NFunction "f" []
           [NAssign (AssignNode "a" "5"); NAssign (AssignNode "b" "a");
            NAssign (AssignNode "a" "2.5")] "void"],
     mkGlobals [("a", "float"); ("b", "int")] false None []) /\
  dict_get [("a", "float"); ("b", "int")] "b"
  <> dict_get [("a", "float"); ("b", "int")] "a".
Proof. split; [reflexivity | discriminate]. Qed.

(** ** The last literal assigned to a variable *)







(** ** Literal assignments *)




(** ** Resolution failures *)

Lemma first_untyped_app (d : dict) (l1 l2 : list string) :
  first_untyped d (l1 ++ l2)
  = match first_untyped d l1 with
    | Some x => Some x
    | None => first_untyped d l2
    end.
Proof.
  unfold first_untyped. induction l1 as [|x r IH]; cbn; [reflexivity|].
  destruct (negb (dict_in x d)); [reflexivity | exact IH].
Qed.

(** With no provider registered an expression is reduced to its text when
    every operand has a type, and otherwise raises the missing-type error
    of its first operand without one; the globals are left as they were. *)
Lemma unresolved_expression_all :
  (forall e g, type_provider g = None ->
     p_expression e g
     = match first_untyped (symbol_table g) (expression_ids e) with
       | Some v => (Raise (MissingTypeError v), g)
       | None => (Ok (expression_text e), g)
       end) /\
  (forall t g, type_provider g = None ->
     p_term t g
     = match first_untyped (symbol_table g) (term_ids t) with
       | Some v => (Raise (MissingTypeError v), g)
       | None => (Ok (term_text t), g)
       end) /\
  (forall f g, type_provider g = None ->
     p_factor f g
     = match first_untyped (symbol_table g) (factor_ids f) with
       | Some v => (Raise (MissingTypeError v), g)
       | None => (Ok (factor_text f), g)
       end).
Proof.
  apply expression_mutual_ind;
    cbn [p_expression p_term p_factor expression_ids term_ids factor_ids
         expression_text term_text factor_text].
  - intros e1 IH1 op t IH2 g P. unfold bind.
    rewrite first_untyped_app, (IH1 g P).
    destruct (first_untyped (symbol_table g) (expression_ids e1));
      [reflexivity|].
    rewrite (IH2 g P).
    destruct (first_untyped (symbol_table g) (term_ids t)); reflexivity.
  - auto.
  - intros t1 IH1 op f IH2 g P. unfold bind.
    rewrite first_untyped_app, (IH1 g P).
    destruct (first_untyped (symbol_table g) (term_ids t1)); [reflexivity|].
    rewrite (IH2 g P).
    destruct (first_untyped (symbol_table g) (factor_ids f)); reflexivity.
  - auto.
  - reflexivity.
  - intros x g P. unfold p_factor_id, bind. rewrite ensure_type_eq.
    unfold first_untyped. cbn [find].
    destruct (dict_in x (symbol_table g)); cbn [negb]; [reflexivity|].
    rewrite ask_type_eq, P. reflexivity.
  - intros e IH g P. unfold bind. rewrite (IH g P).
    destruct (first_untyped (symbol_table g) (expression_ids e)); reflexivity.
Qed.

(** A statement raises what the expression it starts with raises. *)
Lemma starts_with_expression_raise (s : statement) (e : expression)
  (g g' : globals) (err : exn) :
  starts_with_expression s e ->
  p_expression e g = (Raise err, g') ->
  p_statement s g = (Raise err, g').
Proof.
  intros S H. destruct S; cbn [p_statement p_condition p_for_init_opt];
    repeat (apply bind_raise); exact H.
Qed.

(** A statement that raises, after statements that have parsed, ends the
    list with its exception. *)
Lemma p_stmt_list_raise_at (before after : list statement) (s : statement) :
  forall g n1 gm e g2,
    p_stmt_list before g = (Ok n1, gm) ->
    p_statement s gm = (Raise e, g2) ->
    p_stmt_list (before ++ s :: after) g = (Raise e, g2).
Proof.
  unfold p_stmt_list.
  induction before as [|a r IH]; intros g n1 gm e g2 B S; cbn [app].
  - inversion B. subst gm. rewrite p_stmt_list_cons, S. reflexivity.
  - rewrite p_stmt_list_cons in B |- *.
    destruct (p_statement a g) as [[n|e'] g1]; [|discriminate].
    destruct (p_stmt_list_with p_statement r g1) as [[ns|e'] g3] eqn:R;
      [|discriminate].
    inversion B. subst g3. now rewrite (IH g1 ns gm e g2 R S).
Qed.

Lemma parse_code_raise (code : function_def) (g g2 : globals) (e : exn) :
  p_stmt_list (fn_body code) (reset_globals g) = (Raise e, g2) ->
  parse_code code g = (Raise e, g2).
Proof.
  intros H.
  change (parse_code code g) with (p_program code (reset_globals g)).
  unfold p_program, p_function. now repeat (apply bind_raise).
Qed.

(** C1 (amended).  With no provider registered, [ask_type] raises the
    missing-type error of the very name asked for, at once and without
    changing anything.  With a provider whose answer, once the blanks around
    it are stripped, is none of the seven valid datatypes, [ask_type] raises
    the missing-type error of that name.  An expression with an operand
    that has no type, parsed with no provider, raises the missing-type
    error of its first such operand; the statement that starts with the
    expression raises it, and so does the whole run, whatever statements
    have parsed before it: [to_cpp] is not called and no text is
    produced.  And any exception raised while parsing is the outcome of the
    whole run. *)
Theorem missing_type_failure (x : string) (g : globals) :
  (type_provider g = None ->
     ask_type x g = (Raise (MissingTypeError x), g)) /\
  (forall (p : provider) (answer : string),
     type_provider g = Some p ->
     p x valid_dtypes = inr answer ->
     mem (strip answer) valid_dtypes = false ->
     ask_type x g = (Raise (MissingTypeError x), logged x g)) /\
  (forall (code : function_def) (e : exn) (g' : globals),
     parse_code code g = (Raise e, g') ->
     parse_then_emit code g = (Raise e, g')) /\
  (forall (e : expression),
     type_provider g = None ->
     first_untyped (symbol_table g) (expression_ids e) = Some x ->
     p_expression e g = (Raise (MissingTypeError x), g)) /\
  (forall (name : string) (params : list string)
          (before after : list statement) (s : statement) (e : expression)
          (n1 : list node) (gm : globals),
     type_provider g = None ->
     p_stmt_list before (reset_globals g) = (Ok n1, gm) ->
     starts_with_expression s e ->
     first_untyped (symbol_table gm) (expression_ids e) = Some x ->
     parse_then_emit (FunctionDef name params (before ++ s :: after)) g
     = (Raise (MissingTypeError x), gm)).
Proof.
  split; [|split; [|split; [|split]]].
  - intros P. rewrite ask_type_eq. now rewrite P.
  - intros p answer P A V. rewrite ask_type_eq. now rewrite P, A, V.
  - intros code e g' H. unfold parse_then_emit. now apply bind_raise.
  - intros e P F. rewrite (proj1 unresolved_expression_all e g P). now rewrite F.
  - intros name params before after s e n1 gm P B S F.
    assert (Pm : type_provider gm = None).
    { pose proof (frames_p_stmt_list before (reset_globals g)) as (Q & _).
      rewrite B in Q. cbn [snd reset_globals type_provider] in Q. congruence. }
    unfold parse_then_emit. apply bind_raise, parse_code_raise.
    cbn [fn_body]. apply (p_stmt_list_raise_at before after s _ n1 gm); [exact B|].
    apply (starts_with_expression_raise s e); [exact S|].
    rewrite (proj1 unresolved_expression_all e gm Pm). now rewrite F.
Qed.

Lemma missing_type_failure_witness :
  ask_type "z" initial_globals = (Raise (MissingTypeError "z"), initial_globals) /\
  ask_type "z" (globals_with (Some (always "double")))
  = (Raise (MissingTypeError "z"), logged "z" (globals_with (Some (always "double")))) /\
  fst (parse_then_emit scenario_four initial_globals)
  = Raise (MissingTypeError "z").
Proof.
  destruct (missing_type_failure "z" initial_globals) as (H1 & _ & _ & _ & H5).
  destruct (missing_type_failure "z" (globals_with (Some (always "double"))))
    as (_ & H2 & _).
  split; [apply H1; reflexivity|].
  split; [apply (H2 (always "double") "double"); reflexivity|].
  exact (f_equal fst
           (H5 "f" [] [] []
              (StIf (Condition (ExprTerm (TermFactor (FactorId "z"))) LT
                       (ExprTerm (TermFactor (FactorNumber (NumInt 1))))) [])
              (ExprTerm (TermFactor (FactorId "z"))) [] initial_globals
              eq_refl eq_refl (starts_if _ _ _ _) eq_refl)).
Defined.

(** C1, as stated, fails on an answer with blanks around a valid datatype:
    the answer is none of the seven labels, yet [ask_type] strips it and
    resolves the name.  The blanks are those of [str.strip], the next-line
    control and the no-break space among them. *)
Lemma padded_answer_is_accepted :
  mem " int" valid_dtypes = false /\
  ask_type "x" (globals_with (Some (always " int")))
  = (Ok "int", logged "x" (globals_with (Some (always " int")))) /\
  let wide := String no_break_space ("int" ++ String next_line EmptyString) in
  mem wide valid_dtypes = false /\
  ask_type "x" (globals_with (Some (always wide)))
  = (Ok "int", logged "x" (globals_with (Some (always wide)))).
Proof. repeat split. Qed.




(** ** Declarations *)

Lemma mem_In (x : string) (l : list string) : mem x l = true <-> In x l.
Proof.
  unfold mem. rewrite existsb_exists. split.
  - intros (y & I & E). apply String.eqb_eq in E. now subst.
  - intros I. exists x. split; [exact I | apply String.eqb_refl].
Qed.

Lemma mem_cons_other (x y : string) (l : list string) :
  y <> x -> mem x (y :: l) = mem x l.
Proof.
  intros N. unfold mem. cbn. destruct (String.eqb x y) eqn:E; [|reflexivity].
  apply String.eqb_eq in E. congruence.
Qed.

(** The count of the declaration lines of a name: none when the name is
    declared already, one when the table holds it with a type. *)
Lemma vars_to_declare_count (d : dict) (k : string) :
  forall fd,
    declaration_count (fst (vars_to_declare d fd)) k
    = if mem k fd then 0%nat
      else if existsb (fun kv => String.eqb (fst kv) k && truthy (snd kv)) d
           then 1%nat else 0%nat.
Proof.
  unfold declaration_count, declared_names.
  induction d as [|[v dtype] r IH]; intros fd; cbn [vars_to_declare existsb fst snd].
  - cbn. now destruct (mem k fd).
  - destruct (negb (mem v fd) && truthy dtype) eqn:C.
    + apply andb_true_iff in C as [C1 C2]. apply negb_true_iff in C1.
      specialize (IH (v :: fd)).
      destruct (vars_to_declare r (v :: fd)) as [vs fd'].
      cbn [fst snd map count_occ] in *.
      destruct (string_dec v k) as [->|N].
      * rewrite IH, C1, String.eqb_refl, C2.
        unfold mem. cbn. now rewrite String.eqb_refl.
      * rewrite IH, (mem_cons_other k v fd N).
        apply String.eqb_neq in N. now rewrite N.
    + rewrite IH. destruct (mem k fd) eqn:K; [reflexivity|].
      destruct (String.eqb v k) eqn:E; [|reflexivity].
      apply String.eqb_eq in E. subst v. rewrite K in C. cbn in C.
      now rewrite C.
Qed.

Lemma existsb_entry (d : dict) (k t : string) :
  dict_get d k = Some t -> truthy t = true ->
  existsb (fun kv => String.eqb (fst kv) k && truthy (snd kv)) d = true.
Proof.
  intros G V. apply existsb_exists. exists (k, t). split.
  - now apply dict_get_In.
  - cbn. now rewrite String.eqb_refl, V.
Qed.

(** A parameter list whose names all have a type is rendered without asking
    and without touching the globals. *)
Lemma param_parts_known (params : list string) (g : globals) :
  table_ok (symbol_table g) ->
  (forall p, In p params -> dict_in p (symbol_table g) = true) ->
  exists parts, param_parts params g = (Ok parts, g).
Proof.
  intros O. induction params as [|p r IH]; intros H; cbn [param_parts].
  - eexists. reflexivity.
  - destruct IH as [parts IH]; [intros; apply H; now right|].
    assert (D : dict_in p (symbol_table g) = true) by (apply H; now left).
    apply dict_in_true in D as [t D].
    assert (V : truthy t = true) by (eapply O, dict_get_In, D).
    unfold bind at 1. unfold get_table at 1. rewrite D.
    unfold bind at 1. rewrite V. unfold ret at 1.
    unfold bind. rewrite IH. eexists. reflexivity.
Qed.

Lemma ensures_ensure_param_types (params : list string) :
  ensures false params (ensure_param_types params).
Proof.
  induction params as [|p r IH]; cbn [ensure_param_types].
  - apply ensures_ret.
  - apply (ensures_bind false false [p] r).
    + apply ensures_ensure_type.
    + intros _. apply (frames_grows false [] r).
      apply frames_ensure_param_types, incl_refl.
    + intros. exact IH.
Qed.

(** After a parse that succeeds every recorded type is a text that is not
    empty, every parameter has a type, and so has every name the body gave a
    type to, the reserved key apart. *)
Lemma parse_code_table (code : function_def) (g g' : globals) (ast : list node) :
  parse_code code g = (Ok ast, g') ->
  table_ok (symbol_table g') /\
  (forall p, In p (fn_params code) -> dict_in p (symbol_table g') = true) /\
  (forall k, In k (body_ids (fn_body code)) -> k <> return_key ->
             dict_in k (symbol_table g') = true).
Proof.
  intros H. apply parse_code_inv in H as (nodes & g1 & B & P & _).
  pose proof (frames_p_stmt_list (fn_body code) (reset_globals g)) as F.
  unfold frames_at in F. rewrite B in F. cbn [snd] in F.
  destruct F as (_ & _ & _ & _ & O1).
  destruct (ensures_p_stmt_list (fn_body code) _ _ _ B) as [_ E1].
  pose proof (frames_ensure_param_types false [] (fn_params code)
                (fn_params code) (incl_refl _) (after_promotion g1)) as F.
  unfold frames_at in F. rewrite P in F. cbn [snd] in F.
  destruct F as (_ & _ & D2 & _ & O2).
  destruct (ensures_ensure_param_types (fn_params code) _ _ _ P) as [_ E2].
  repeat split.
  - apply O2. unfold after_promotion.
    destruct (promoted g1); [apply table_ok_remove|]; apply O1; intros k v [].
  - exact E2.
  - intros k K NK. apply D2. unfold after_promotion.
    destruct (promoted g1); [|now apply E1].
    cbn [with_table symbol_table]. unfold dict_in.
    rewrite dict_get_remove_other by exact NK. now apply E1.
Qed.

Lemma append_empty_r (s : string) : s ++ EmptyString = s.
Proof. induction s; cbn; congruence. Qed.

(** X15.  For every generated output: the text is the preamble, the
    signature line, the declaration lines, the rendering of the body, the
    closing brace and [main], in this order, so every declaration line
    stands before the first rendered statement.  Every name the body assigns
    to, copies a type from or uses as an operand of an expression or of a
    condition has exactly one declaration line, unless it is a parameter
    (declared in the signature, with no line of its own) or is named as the
    reserved key; no name has two lines. *)
Theorem declarations_hoisted (code : function_def) (g g' : globals)
  (text : string) :
  parse_then_emit code g = (Ok text, g') ->
  exists (nodes : list node) (rt sig inner : string)
         (vs : list (string * string)) (fd : list string) (gp : globals),
    text = cpp_header
             ++ ((rt ++ " " ++ fn_name code ++ "(" ++ sig ++ ") {" ++ nl)
                   ++ declarations 0 vs ++ inner ++ "}" ++ nl ++ nl)
             ++ cpp_main (fn_name code) /\
    vars_to_declare (symbol_table gp) (fn_params code) = (vs, fd) /\
    generate_cpp nodes 1 fd gp = (Ok inner, g') /\
    (forall k, In k (body_ids (fn_body code)) ->
               ~ In k (fn_params code) -> k <> return_key ->
               declaration_count vs k = 1%nat) /\
    (forall k, In k (fn_params code) -> declaration_count vs k = 0%nat) /\
    (forall k, (declaration_count vs k <= 1)%nat).
Proof.
  intros H.
  unfold parse_then_emit in H.
  apply bind_inv_ok in H as (ast & gp & HP & HT).
  destruct (parse_code_table code g gp ast HP) as (O & PM & BD).
  apply parse_code_inv in HP as (nodes & g1 & _ & _ & ->).
  unfold to_cpp in HT.
  apply bind_inv_ok in HT as (body & g2 & HG & HT).
  cbn [bind ret] in HT. inversion HT. subst g2 text. clear HT.
  unfold generate_cpp in HG. cbn [generate_cpp_with] in HG.
  apply bind_inv_ok in HG as (piece & g3 & HS & HG).
  cbn [bind ret] in HG. inversion HG. subst g3 body. clear HG.
  cbn [generate_stmt] in HS.
  destruct (param_parts_known (fn_params code) gp O PM) as [parts PP].
  rewrite (bind_ok _ _ _ _ _ PP) in HS.
  unfold bind at 1 in HS. unfold get_table at 1 in HS.
  destruct (vars_to_declare (symbol_table gp) (fn_params code))
    as [vs fd] eqn:V.
  apply bind_inv_ok in HS as (inner & g4 & HI & HS).
  inversion HS. subst g4 piece. clear HS.
  exists nodes, (promoted_type g1), (join ", " parts), inner, vs, fd, gp.
  rewrite append_empty_r.
  assert (C : forall k,
            declaration_count vs k
            = if mem k (fn_params code) then 0%nat
              else if existsb (fun kv => String.eqb (fst kv) k && truthy (snd kv))
                              (symbol_table gp)
                   then 1%nat else 0%nat).
  { intros k. pose proof (vars_to_declare_count (symbol_table gp) k
                            (fn_params code)) as C.
    now rewrite V in C. }
  repeat split; auto.
  - intros k K NP NK. rewrite C.
    destruct (mem k (fn_params code)) eqn:M;
      [apply mem_In in M; contradiction|].
    specialize (BD k K NK). apply dict_in_true in BD as [t G].
    rewrite (existsb_entry _ k t G); [reflexivity|].
    eapply O, dict_get_In, G.
  - intros k K. rewrite C. apply mem_In in K. now rewrite K.
  - intros k. rewrite C. destruct (mem k (fn_params code)); [lia|].
    destruct (existsb _ _); lia.
Qed.

Lemma declarations_hoisted_witness :
  exists vs : list (string * string),
    declaration_count vs "x" = 1%nat /\ declaration_count vs "y" = 1%nat.
Proof.
  destruct (declarations_hoisted scenario_two
              (globals_with (Some (always "int")))
              (mkGlobals [("x", "int"); ("y", "int")] true
                         (Some (always "int")) ["function_return_type"])
              (cpp_header
                 ++ (("int f() {" ++ nl)
                       ++ declarations 0 [("x", "int"); ("y", "int")]
                       ++ ("    x = 5;" ++ nl ++ "    y = x;" ++ nl
                             ++ "    return y;" ++ nl)
                       ++ "}" ++ nl ++ nl)
                 ++ cpp_main "f")
              eq_refl)
    as (nodes & rt & sig & inner & vs & fd & gp & _ & _ & _ & C & _).
  exists vs. split; apply C; simpl; try tauto;
    try (intros [H|[]]; discriminate); unfold return_key; discriminate.
Defined.

(** C4.  The generator declares the entries of the symbol table, and
    [return y;], the ID alternative of [p_statement_return], records nothing
    for [y]: [fn f() { return y; }] is translated to a function that uses [y]
    and has no declaration line at all, against the law that every
    identifier used in the body has one.  The expression alternative does
    record its operands: [fn f() { return y + 1; }] is translated with the
    line [int y;]. *)
Theorem returned_identifier_undeclared :
  let g := globals_with (Some (always "int")) in
  fst (parse_then_emit return_only g)
  = Ok (cpp_header
          ++ ("int f() {" ++ nl ++ "    return y;" ++ nl ++ "}" ++ nl ++ nl)
          ++ cpp_main "f") /\
  symbol_table (snd (parse_code return_only g)) = [] /\
  vars_to_declare (symbol_table (snd (parse_code return_only g)))
    (fn_params return_only) = ([], []) /\
  declaration_count [] "y" = 0%nat /\
  fst (parse_then_emit return_sum g)
  = Ok (cpp_header
          ++ ("int f() {" ++ nl ++ "    int y;" ++ nl ++ nl
                ++ "    return y + 1;" ++ nl ++ "}" ++ nl ++ nl)
          ++ cpp_main "f") /\
  symbol_table (snd (parse_code return_sum g)) = [("y", "int")].
Proof. repeat split. Qed.

(** * Further properties of the parser and of the generator *)

(** ** Recorded types are valid datatypes *)

Lemma table_valid_set (d : dict) (k v : string) :
  mem v valid_dtypes = true -> table_valid d -> table_valid (dict_set d k v).
Proof.
  intros V. unfold table_valid.
  induction d as [|[k0 v0] r IH]; intros H; cbn [dict_set].
  - constructor; [exact V | constructor].
  - inversion H as [|? ? H0 Hr]. subst.
    destruct (String.eqb k0 k); constructor; auto.
Qed.

Lemma table_valid_remove (d : dict) (k : string) :
  table_valid d -> table_valid (dict_remove d k).
Proof.
  unfold table_valid. induction d as [|[k0 v0] r IH]; intros H; cbn [dict_remove].
  - constructor.
  - inversion H as [|? ? H0 Hr]. subst.
    destruct (String.eqb k0 k); [exact Hr|]. constructor; auto.
Qed.

Lemma table_valid_get (d : dict) (k v : string) :
  table_valid d -> dict_get d k = Some v -> mem v valid_dtypes = true.
Proof.
  intros H G. apply dict_get_In in G. unfold table_valid in H.
  rewrite Forall_forall in H. exact (H (k, v) G).
Qed.

Lemma infer_type_valid (v : pyval) (t : string) :
  infer_type v = Some t -> mem t valid_dtypes = true.
Proof.
  destruct v as [n|r|s]; unfold infer_type; intros IT;
    repeat match type of IT with
           | (if ?b then _ else _) = _ => destruct b
           end;
    inversion IT; reflexivity.
Qed.

Lemma valid_ret {A} (a : A) : keeps_valid (ret a).
Proof. intros g H. exact H. Qed.

Lemma valid_raise {A} (e : exn) : keeps_valid (@raise A e).
Proof. intros g H. exact H. Qed.

Lemma valid_bind {A B} (m : M A) (k : A -> M B) :
  keeps_valid m -> (forall a, keeps_valid (k a)) -> keeps_valid (bind m k).
Proof.
  intros Hm Hk g H. unfold bind. specialize (Hm g H).
  destruct (m g) as [[a|e] g1]; cbn [snd] in *; [now apply Hk | exact Hm].
Qed.

Lemma valid_get_table : keeps_valid get_table.
Proof. intros g H. exact H. Qed.

Lemma valid_get_has_return : keeps_valid get_has_return.
Proof. intros g H. exact H. Qed.

Lemma valid_set_has_return (b : bool) : keeps_valid (set_has_return b).
Proof. intros g H. exact H. Qed.

Lemma valid_ask_type (x : string) : keeps_valid (ask_type x).
Proof.
  intros g H. now destruct (ask_type_state x g) as (-> & _).
Qed.

Lemma valid_table_store (k v : string) :
  mem v valid_dtypes = true -> keeps_valid (table_store k v).
Proof. intros V g H. cbn. now apply table_valid_set. Qed.

Lemma valid_ensure_type (x : string) : keeps_valid (ensure_type x).
Proof.
  intros g H. rewrite ensure_type_eq.
  destruct (dict_in x (symbol_table g)); [exact H|].
  pose proof (ask_type_state x g) as (S1 & _).
  pose proof (ask_type_valid x) as V. specialize V with (g := g).
  destruct (ask_type x g) as [[t|e] g1]; cbn [fst snd] in *.
  - cbn [with_table symbol_table]. rewrite S1. apply table_valid_set; auto.
  - now rewrite S1.
Qed.

Lemma valid_propagate (x s : string) :
  keeps_valid
    (d <- get_table ;;
     match dict_get d s with
     | Some t => table_store x t
     | None => raise (KeyError s)
     end).
Proof.
  intros g H. unfold bind, get_table.
  destruct (dict_get (symbol_table g) s) as [t|] eqn:G; [|exact H].
  cbn. apply table_valid_set; [|exact H]. eapply table_valid_get; eauto.
Qed.

Create HintDb valid discriminated.

#[local] Hint Resolve valid_ret valid_raise valid_get_table valid_get_has_return
  valid_set_has_return valid_ask_type valid_ensure_type valid_propagate : valid.

Lemma valid_handle_assignment (x : string) (v : pyval) (e : bool) :
  keeps_valid (handle_assignment x v e).
Proof.
  unfold handle_assignment. apply valid_bind; [|auto with valid].
  destruct v as [n|r|s]; cbn [infer_type].
  - now apply valid_table_store.
  - now apply valid_table_store.
  - destruct (negb e && isidentifier s); [|auto with valid].
    apply valid_bind; auto with valid.
Qed.

#[local] Hint Resolve valid_handle_assignment : valid.

(** Takes an action apart along its binds and its case distinctions. *)
Ltac valid_steps :=
  repeat first
    [ solve [auto with valid]
    | apply valid_bind; [|intros ?]
    | match goal with
      | |- keeps_valid (if ?b then _ else _) => destruct b
      | |- keeps_valid (match ?x with _ => _ end) => destruct x
      end ].

Lemma valid_expression :
  (forall e, keeps_valid (p_expression e)) /\
  (forall t, keeps_valid (p_term t)) /\
  (forall f, keeps_valid (p_factor f)).
Proof.
  apply expression_mutual_ind; intros; cbn [p_expression p_term p_factor];
    unfold p_factor_id; valid_steps.
Qed.

Lemma valid_p_expression (e : expression) : keeps_valid (p_expression e).
Proof. apply valid_expression. Qed.

#[local] Hint Resolve valid_p_expression : valid.

Lemma valid_p_statement_return (v : pyval) : keeps_valid (p_statement_return v).
Proof.
  unfold p_statement_return.
  apply valid_bind; [auto with valid | intros _].
  apply valid_bind; [auto with valid | intros d].
  apply valid_bind; [|auto with valid].
  destruct (dict_in return_key d); [auto with valid|].
  destruct (infer_type v) as [t|] eqn:I.
  - apply valid_table_store. now apply (infer_type_valid v).
  - intros g H. unfold bind.
    pose proof (ask_type_state return_query g) as (S1 & _).
    pose proof (ask_type_valid return_query) as V. specialize V with (g := g).
    unfold return_query in *.
    destruct (ask_type "function_return_type" g) as [[t|e] g1];
      cbn [fst snd] in *.
    + cbn. rewrite S1. apply table_valid_set; auto.
    + now rewrite S1.
Qed.

#[local] Hint Resolve valid_p_statement_return : valid.

Lemma valid_p_stmt_list_with (f : statement -> M node) (l : list statement) :
  Forall (fun s => keeps_valid (f s)) l -> keeps_valid (p_stmt_list_with f l).
Proof. induction 1; cbn [p_stmt_list_with]; valid_steps. Qed.

Lemma valid_p_condition (c : condition) : keeps_valid (p_condition c).
Proof. destruct c. cbn [p_condition]. valid_steps. Qed.

#[local] Hint Resolve valid_p_condition : valid.

Lemma valid_p_condition_opt (c : option condition) :
  keeps_valid (p_condition_opt c).
Proof. destruct c; cbn [p_condition_opt]; valid_steps. Qed.

Lemma valid_for_assign_action (x : string) (v : pyval) :
  keeps_valid (for_assign_action x v).
Proof. unfold for_assign_action. valid_steps. Qed.

#[local] Hint Resolve valid_p_condition_opt valid_for_assign_action : valid.

Lemma valid_p_for_init_opt (a : for_assign) : keeps_valid (p_for_init_opt a).
Proof. destruct a; cbn [p_for_init_opt]; valid_steps. Qed.

Lemma valid_p_for_update_opt (a : for_assign) : keeps_valid (p_for_update_opt a).
Proof. destruct a; cbn [p_for_update_opt]; valid_steps. Qed.

#[local] Hint Resolve valid_p_for_init_opt valid_p_for_update_opt : valid.

Lemma valid_p_statement (s : statement) : keeps_valid (p_statement s).
Proof.
  induction s using statement_body_ind; cbn [p_statement];
    repeat first [ solve [auto with valid]
                 | now apply valid_p_stmt_list_with
                 | apply valid_bind; [|intros ?] ].
Qed.

Lemma valid_ensure_param_types (params : list string) :
  keeps_valid (ensure_param_types params).
Proof. induction params; cbn [ensure_param_types]; valid_steps. Qed.

Lemma valid_p_program (code : function_def) : keeps_valid (p_program code).
Proof.
  unfold p_program, p_function.
  apply valid_bind; [|auto with valid].
  apply valid_bind.
  { apply valid_p_stmt_list_with, Forall_forall. intros. apply valid_p_statement. }
  intros p7. apply valid_bind; [auto with valid | intros hr].
  intros g H. unfold bind at 1. unfold get_table at 1.
  assert (T : keeps_valid (ensure_param_types (fn_params code) ;;
                           ret (NFunction (fn_name code) (fn_params code) p7 "void"))).
  { apply valid_bind; [apply valid_ensure_param_types | auto with valid]. }
  destruct (hr && dict_in return_key (symbol_table g)).
  - destruct (dict_get (symbol_table g) return_key) as [t|]; [|exact H].
    unfold bind at 1. unfold bind at 1. cbn [set_table ret].
    refine (valid_bind _ _ (valid_ensure_param_types _) _ _ _);
      [intros; apply valid_ret|].
    cbn. now apply table_valid_remove.
  - unfold bind at 1. cbn [ret].
    refine (valid_bind _ _ (valid_ensure_param_types _) _ _ H).
    intros; apply valid_ret.
Qed.

(** X1.  However a parse ends, with a list of nodes or with an exception,
    every type the symbol table holds afterwards is one of the seven valid
    datatypes: what was in the table before the parse is gone, and the
    actions record only the types [infer_type] gives and the answers
    [ask_type] has checked. *)
Theorem parse_records_valid_types (code : function_def) (g : globals) :
  Forall (fun kv => mem (snd kv) valid_dtypes = true)
         (symbol_table (snd (parse_code code g))).
Proof.
  change (parse_code code g) with (p_program code (reset_globals g)).
  apply valid_p_program. constructor.
Qed.

(** X2.  The return type of a parsed function is never a free text: when no
    [return] stands in the body it is [void], whatever the table holds, and
    when one does it is one of the seven valid datatypes. *)
Theorem return_type_is_void_or_valid (code : function_def) (g g' : globals)
  (ast : list node) :
  parse_code code g = (Ok ast, g') ->
  exists nodes rt,
    ast = [NFunction (fn_name code) (fn_params code) nodes rt] /\
    (body_returns (fn_body code) = false -> rt = "void") /\
    (body_returns (fn_body code) = true -> mem rt valid_dtypes = true).
Proof.
  intros H. apply parse_code_inv in H as (nodes & g1 & B & _ & ->).
  exists nodes, (promoted_type g1). split; [reflexivity|].
  pose proof (frames_p_stmt_list (fn_body code) (reset_globals g)) as F.
  unfold frames_at in F. rewrite B in F. cbn [snd] in F.
  destruct F as (_ & R1 & _).
  destruct (ensures_p_stmt_list (fn_body code) _ _ _ B) as [E1 _].
  assert (V : table_valid (symbol_table g1)).
  { pose proof (valid_p_stmt_list_with p_statement (fn_body code)) as V.
    unfold p_stmt_list in B.
    specialize (V (proj2 (Forall_forall _ _) (fun s _ => valid_p_statement s))
                  (reset_globals g) (Forall_nil _)).
    now rewrite B in V. }
  unfold promoted_type. split.
  - intros BR. rewrite BR in R1.
    destruct R1 as [R1|[R1 _]]; [|discriminate]. cbn in R1. rewrite R1.
    now destruct (dict_get (symbol_table g1) return_key).
  - intros BR. destruct (E1 BR) as [HR DK].
    apply dict_in_true in DK as [t DK]. rewrite DK, HR.
    eapply table_valid_get; eauto.
Qed.

Lemma return_type_is_void_or_valid_witness :
  exists nodes rt,
    fst (parse_code scenario_two (globals_with (Some (always " float "))))
    = Ok [NFunction "f" [] nodes rt] /\
    mem rt valid_dtypes = true.
Proof.
  destruct (return_type_is_void_or_valid scenario_two
              (globals_with (Some (always " float ")))
              (snd (parse_code scenario_two
                      (globals_with (Some (always " float ")))))
              [NFunction "f" []
                 [NAssign (AssignNode "x" "5"); NAssign (AssignNode "y" "x");
                  NReturn (PStr "y")] "float"]
              eq_refl) as (nodes & rt & E & _ & V).
  exists nodes, rt. split; [|now apply V].
  cbn [fn_name fn_params scenario_two] in E. now rewrite <- E.
Defined.

(** ** No key outlives a parse *)

Lemma dict_in_remove (d : dict) (k k' : string) :
  dict_in k (dict_remove d k') = true -> dict_in k d = true.
Proof.
  rewrite !dict_in_keys. unfold keys.
  induction d as [|[k0 v0] r IH]; cbn; [tauto|].
  destruct (String.eqb k0 k'); cbn; tauto.
Qed.

Lemma snd_bind_ret {A B} (m : M A) (f : A -> B) (g : globals) :
  snd (bind m (fun a => ret (f a)) g) = snd (m g).
Proof. unfold bind. now destruct (m g) as [[a|e] g1]. Qed.

(** The keys the typing of the parameters adds are parameters. *)
Lemma ensure_param_types_keys (params : list string) (g : globals) (k : string) :
  dict_in k (symbol_table (snd (ensure_param_types params g))) = true ->
  dict_in k (symbol_table g) = true \/ In k params.
Proof.
  intros D. destruct (in_dec string_dec k params) as [I|NI]; [now right|].
  destruct (dict_in k (symbol_table g)) eqn:E; [now left|].
  pose proof (frames_ensure_param_types false [] params params (incl_refl _) g)
    as (_ & _ & _ & W & _).
  apply dict_in_true in D as [t D]. rewrite W in D; auto.
  apply dict_in_false in E. congruence.
Qed.

(** X3.  However a parse ends, every key the symbol table holds afterwards
    is a name of the program parsed: a name its body gives a type to, the
    reserved key when a [return] stands in the body, or a parameter.  No key
    of an earlier parse is left. *)
Theorem parse_leaves_program_keys (code : function_def) (g : globals) :
  Forall (fun k => In k (body_keys (fn_body code) ++ fn_params code))
         (keys (symbol_table (snd (parse_code code g)))).
Proof.
  apply Forall_forall. intros k K. apply dict_in_keys in K.
  change (parse_code code g) with (p_program code (reset_globals g)) in K.
  unfold p_program in K. rewrite snd_bind_ret in K. unfold p_function in K.
  pose proof (frames_p_stmt_list (fn_body code) (reset_globals g)) as F.
  unfold frames_at in F. destruct F as (_ & _ & _ & W & _).
  assert (B : forall x, dict_in x (symbol_table
                                     (snd (p_stmt_list (fn_body code)
                                             (reset_globals g)))) = true ->
                        In x (body_keys (fn_body code))).
  { intros x D.
    destruct (in_dec string_dec x (body_keys (fn_body code))) as [I|NI];
      [exact I|].
    apply dict_in_true in D as [t D]. rewrite W in D; [discriminate | | now right].
    intros T. apply NI. unfold body_keys. apply in_or_app. left.
    now apply body_targets_ids. }
  unfold bind at 1 in K.
  destruct (p_stmt_list (fn_body code) (reset_globals g)) as [[nodes|e] g1];
    cbn [snd] in B, K; [|apply in_or_app; left; now apply B].
  unfold bind at 1 in K. unfold get_has_return at 1 in K.
  unfold bind at 1 in K. unfold get_table at 1 in K.
  destruct (has_return g1 && dict_in return_key (symbol_table g1)).
  - destruct (dict_get (symbol_table g1) return_key) as [t|].
    + unfold bind at 1 in K. unfold bind at 1 in K. cbn [set_table ret] in K.
      rewrite snd_bind_ret in K.
      apply ensure_param_types_keys in K as [K|K].
      * apply in_or_app. left. apply B. cbn in K. now apply dict_in_remove in K.
      * apply in_or_app. now right.
    + cbn in K. apply in_or_app. left. now apply B.
  - unfold bind at 1 in K. cbn [ret] in K. rewrite snd_bind_ret in K.
    apply ensure_param_types_keys in K as [K|K].
    + apply in_or_app. left. now apply B.
    + apply in_or_app. now right.
Qed.

(** ** The emission after a parse *)

Lemma append_assoc (a b c : string) : (a ++ b) ++ c = a ++ (b ++ c).
Proof. induction a; cbn; congruence. Qed.

Lemma concat_cons (x : string) (l : list string) :
  String.concat EmptyString (x :: l) = x ++ String.concat EmptyString l.
Proof. destruct l; cbn; [now rewrite append_empty_r | reflexivity]. Qed.

Lemma lines_text_cons (l : nat * string) (ls : list (nat * string)) :
  lines_text (l :: ls) = line_text l ++ lines_text ls.
Proof. unfold lines_text. cbn [map]. apply concat_cons. Qed.

Lemma lines_text_app (l1 l2 : list (nat * string)) :
  lines_text (l1 ++ l2) = lines_text l1 ++ lines_text l2.
Proof.
  induction l1 as [|l r IH]; [reflexivity|].
  cbn [app]. now rewrite !lines_text_cons, IH, append_assoc.
Qed.

(** The statements of a body are rendered one after the other. *)
Lemma generate_body_lines (body : list node) (indent : nat)
  (declared : list string) (g : globals) :
  Forall (fun n => forall i d g0,
            generate_stmt n i d g0 = (Ok (lines_text (statement_lines n i)), g0))
         body ->
  generate_cpp_with generate_stmt body indent declared g
  = (Ok (lines_text (body_lines body indent)), g).
Proof.
  induction 1 as [|n r Hn Hr IH]; [reflexivity|].
  cbn [generate_cpp_with]. rewrite (bind_ok _ _ _ _ _ (Hn indent declared g)).
  rewrite (bind_ok _ _ _ _ _ IH). unfold ret, body_lines. cbn [flat_map].
  now rewrite lines_text_app.
Qed.

(** A statement is rendered without a look at the globals. *)
Lemma generate_statement_lines (n : node) :
  is_statement n = true ->
  forall indent declared g,
    generate_stmt n indent declared g
    = (Ok (lines_text (statement_lines n indent)), g).
Proof.
  induction n as [name params body rt IH|a|c body IH|c body IH
                  |init c update body IH|val] using node_body_ind;
    cbn [is_statement]; intros S indent declared g; try discriminate.
  - cbn [generate_stmt statement_lines]. unfold ret, _format_for_assignment.
    rewrite lines_text_cons. unfold line_text, lines_text. cbn [fst snd map].
    cbn [String.concat]. now rewrite append_empty_r, !append_assoc.
  - assert (B : Forall (fun n => forall i d g0,
                          generate_stmt n i d g0
                          = (Ok (lines_text (statement_lines n i)), g0)) body).
    { rewrite Forall_forall in *. rewrite forallb_forall in S. auto. }
    cbn [generate_stmt statement_lines]. unfold generate_if_cpp.
    rewrite (bind_ok _ _ _ _ _ (generate_body_lines body _ declared g B)).
    unfold ret. rewrite lines_text_cons, lines_text_app, lines_text_cons.
    unfold line_text. cbn [fst snd]. fold (body_lines body (indent + 1)).
    change (lines_text []) with EmptyString.
    now rewrite append_empty_r, !append_assoc.
  - assert (B : Forall (fun n => forall i d g0,
                          generate_stmt n i d g0
                          = (Ok (lines_text (statement_lines n i)), g0)) body).
    { rewrite Forall_forall in *. rewrite forallb_forall in S. auto. }
    cbn [generate_stmt statement_lines]. unfold generate_while_cpp.
    rewrite (bind_ok _ _ _ _ _ (generate_body_lines body _ declared g B)).
    unfold ret. rewrite lines_text_cons, lines_text_app, lines_text_cons.
    unfold line_text. cbn [fst snd]. fold (body_lines body (indent + 1)).
    change (lines_text []) with EmptyString.
    now rewrite append_empty_r, !append_assoc.
  - assert (B : Forall (fun n => forall i d g0,
                          generate_stmt n i d g0
                          = (Ok (lines_text (statement_lines n i)), g0)) body).
    { rewrite Forall_forall in *. rewrite forallb_forall in S. auto. }
    cbn [generate_stmt statement_lines]. unfold generate_for_cpp.
    rewrite (bind_ok _ _ _ _ _ (generate_body_lines body _ declared g B)).
    unfold ret. rewrite lines_text_cons, lines_text_app, lines_text_cons.
    unfold line_text. cbn [fst snd]. fold (body_lines body (indent + 1)).
    change (lines_text []) with EmptyString.
    unfold for_header, _format_for_assignment, header_part.
    destruct init, update; now rewrite append_empty_r, !append_assoc.
  - cbn [generate_stmt statement_lines]. unfold ret.
    rewrite lines_text_cons. unfold line_text, lines_text. cbn [fst snd map].
    cbn [String.concat]. now rewrite append_empty_r, !append_assoc.
Qed.

Lemma p_stmt_list_statements (l : list statement) :
  Forall (fun s => forall g n g', p_statement s g = (Ok n, g') ->
                                  is_statement n = true) l ->
  forall g nodes g',
    p_stmt_list_with p_statement l g = (Ok nodes, g') ->
    forallb is_statement nodes = true.
Proof.
  induction 1 as [|s r Hs Hr IH]; intros g nodes g' H.
  - inversion H. reflexivity.
  - rewrite p_stmt_list_cons in H.
    destruct (p_statement s g) as [[n|e] g1] eqn:E; [|discriminate].
    destruct (p_stmt_list_with p_statement r g1) as [[ns|e] g2] eqn:R;
      [|discriminate].
    inversion H. subst. cbn [forallb].
    rewrite (Hs _ _ _ E), (IH _ _ _ R). reflexivity.
Qed.

(** The nodes the statements are reduced to are statements at every depth. *)
Lemma p_statement_is_statement (s : statement) :
  forall g n g', p_statement s g = (Ok n, g') -> is_statement n = true.
Proof.
  induction s as [x n0|x val|x e|c body IH|c body IH|init c update body IH
                  |val|n0|e] using statement_body_ind;
    intros g n g' H; cbn [p_statement] in H.
  - apply bind_inv_ok in H as (a & g1 & _ & H). now inversion H.
  - apply bind_inv_ok in H as (a & g1 & _ & H). now inversion H.
  - apply bind_inv_ok in H as (a & g1 & _ & H).
    apply bind_inv_ok in H as (a2 & g2 & _ & H). now inversion H.
  - apply bind_inv_ok in H as (a & g1 & _ & H).
    apply bind_inv_ok in H as (ns & g2 & L & H). inversion H.
    cbn [is_statement]. eapply p_stmt_list_statements; eauto.
  - apply bind_inv_ok in H as (a & g1 & _ & H).
    apply bind_inv_ok in H as (ns & g2 & L & H). inversion H.
    cbn [is_statement]. eapply p_stmt_list_statements; eauto.
  - apply bind_inv_ok in H as (a & g1 & _ & H).
    apply bind_inv_ok in H as (a2 & g2 & _ & H).
    apply bind_inv_ok in H as (a3 & g3 & _ & H).
    apply bind_inv_ok in H as (ns & g4 & L & H). inversion H.
    cbn [is_statement]. eapply p_stmt_list_statements; eauto.
  - unfold p_statement_return in H.
    apply bind_inv_ok in H as (a & g1 & _ & H).
    apply bind_inv_ok in H as (a2 & g2 & _ & H).
    apply bind_inv_ok in H as (a3 & g3 & _ & H). now inversion H.
  - unfold p_statement_return in H.
    apply bind_inv_ok in H as (a & g1 & _ & H).
    apply bind_inv_ok in H as (a2 & g2 & _ & H).
    apply bind_inv_ok in H as (a3 & g3 & _ & H). now inversion H.
  - apply bind_inv_ok in H as (a0 & g0 & _ & H). unfold p_statement_return in H.
    apply bind_inv_ok in H as (a & g1 & _ & H).
    apply bind_inv_ok in H as (a2 & g2 & _ & H).
    apply bind_inv_ok in H as (a3 & g3 & _ & H). now inversion H.
Qed.

Lemma statement_lines_levels (n : node) :
  forall indent, Forall (fun l => (indent <= fst l)%nat) (statement_lines n indent).
Proof.
  induction n as [name params body rt IH|a|c body IH|c body IH
                  |init c update body IH|val] using node_body_ind;
    intros indent; cbn [statement_lines];
    try (constructor; [cbn; lia|]); try constructor;
    try (apply Forall_app; split; [|constructor; [cbn; lia | constructor]];
         apply Forall_flat_map; rewrite Forall_forall in *; intros s Hs;
         specialize (IH s Hs (indent + 1)%nat);
         rewrite Forall_forall in *; intros l Hl; specialize (IH l Hl); lia).
Qed.

(** X4.  A statement the parser has reduced is rendered as whole lines, each
    indented by four blanks for every level of nesting, without a look at
    the globals and without a call of the provider: one line for an
    assignment or a [return]; for [if], [while] and [for] a header line and
    a closing brace at the level of the statement, and between them the
    lines of the body, all at least one level deeper. *)
Theorem statements_render_by_lines (s : statement) (g g1 : globals) (n : node) :
  p_statement s g = (Ok n, g1) ->
  forall indent declared g0,
    generate_stmt n indent declared g0
    = (Ok (lines_text (statement_lines n indent)), g0) /\
    ((exists text, statement_lines n indent = [(indent, text)]) \/
     (exists header body,
        statement_lines n indent
        = ((indent, header) :: body ++ [(indent, "}")])%list /\
        Forall (fun l => (indent + 1 <= fst l)%nat) body)).
Proof.
  intros H indent declared g0.
  pose proof (p_statement_is_statement s g n g1 H) as S.
  split; [now apply generate_statement_lines|].
  destruct n as [name params body rt|a|c body|c body|init c update body|val];
    cbn [is_statement statement_lines] in *; try discriminate;
    try (left; eexists; reflexivity);
    right; eexists; eexists; (split; [reflexivity|]);
    apply Forall_flat_map, Forall_forall; intros x _;
    apply statement_lines_levels.
Qed.

Lemma statements_render_by_lines_witness :
  generate_stmt (NAssign (AssignNode "x" "5")) 2 [] initial_globals
  = (Ok ("        x = 5;" ++ nl), initial_globals).
Proof.
  destruct (statements_render_by_lines (StAssignNumber "x" (NumInt 5))
              initial_globals
              (mkGlobals [("x", "int")] false None [])
              (NAssign (AssignNode "x" "5")) eq_refl 2%nat [] initial_globals)
    as [H _].
  exact H.
Defined.

(** A parameter list whose names all have a type is rendered from the table,
    without asking. *)
Lemma param_parts_rendered (params : list string) (g : globals) :
  table_ok (symbol_table g) ->
  (forall p, In p params -> dict_in p (symbol_table g) = true) ->
  param_parts params g
  = (Ok (map (fun p => recorded_type (symbol_table g) p ++ " " ++ p) params), g).
Proof.
  intros O. induction params as [|p r IH]; intros H; cbn [param_parts map].
  - reflexivity.
  - assert (D : dict_in p (symbol_table g) = true) by (apply H; now left).
    apply dict_in_true in D as [t D].
    assert (V : truthy t = true) by (eapply O, dict_get_In, D).
    unfold bind at 1. unfold get_table at 1. unfold recorded_type at 1.
    rewrite D. unfold bind at 1. rewrite V. unfold ret at 1.
    unfold bind. rewrite IH by (intros; apply H; now right). reflexivity.
Qed.

(** [to_cpp] on what a parse has built and left. *)
Lemma to_cpp_after_parse (code : function_def) (g g' : globals)
  (ast : list node) :
  parse_code code g = (Ok ast, g') ->
  exists nodes rt,
    ast = [NFunction (fn_name code) (fn_params code) nodes rt] /\
    to_cpp ast g'
    = (Ok (cpp_header
             ++ ((rt ++ " " ++ fn_name code ++ "("
                    ++ signature (symbol_table g') (fn_params code)
                    ++ ") {" ++ nl)
                   ++ declarations 0
                        (fst (vars_to_declare (symbol_table g') (fn_params code)))
                   ++ lines_text (body_lines nodes 1) ++ "}" ++ nl ++ nl)
             ++ cpp_main (fn_name code)),
       g').
Proof.
  intros H. destruct (parse_code_table code g g' ast H) as (O & PM & _).
  apply parse_code_inv in H as (nodes & g1 & B & _ & ->).
  exists nodes, (promoted_type g1). split; [reflexivity|].
  assert (BL : Forall (fun n => forall i d g0,
                         generate_stmt n i d g0
                         = (Ok (lines_text (statement_lines n i)), g0)) nodes).
  { apply Forall_forall. intros n I. apply generate_statement_lines.
    assert (S : forallb is_statement nodes = true).
    { eapply p_stmt_list_statements; [|exact B].
      apply Forall_forall. intros s _. apply p_statement_is_statement. }
    rewrite forallb_forall in S. now apply S. }
  assert (F : generate_stmt
                (NFunction (fn_name code) (fn_params code) nodes (promoted_type g1))
                0 [] g'
              = (Ok ((promoted_type g1 ++ " " ++ fn_name code ++ "("
                        ++ signature (symbol_table g') (fn_params code)
                        ++ ") {" ++ nl)
                       ++ declarations 0
                            (fst (vars_to_declare (symbol_table g') (fn_params code)))
                       ++ lines_text (body_lines nodes 1) ++ "}" ++ nl ++ nl),
                 g')).
  { cbn [generate_stmt].
    rewrite (bind_ok _ _ _ _ _ (param_parts_rendered _ g' O PM)).
    unfold bind at 1. unfold get_table at 1.
    destruct (vars_to_declare (symbol_table g') (fn_params code)) as [vs fd].
    rewrite (bind_ok _ _ _ _ _ (generate_body_lines nodes _ fd g' BL)).
    reflexivity. }
  assert (G : generate_cpp_with generate_stmt
                [NFunction (fn_name code) (fn_params code) nodes
                   (promoted_type g1)] 0 [] g'
              = (Ok (((promoted_type g1 ++ " " ++ fn_name code ++ "("
                         ++ signature (symbol_table g') (fn_params code)
                         ++ ") {" ++ nl)
                        ++ declarations 0
                             (fst (vars_to_declare (symbol_table g')
                                     (fn_params code)))
                        ++ lines_text (body_lines nodes 1) ++ "}" ++ nl ++ nl)
                       ++ EmptyString),
                 g')).
  { cbn [generate_cpp_with]. rewrite (bind_ok _ _ _ _ _ F). reflexivity. }
  unfold to_cpp, generate_cpp. rewrite (bind_ok _ _ _ _ _ G).
  unfold bind, ret. now rewrite append_empty_r.
Qed.

(** X5.  A run succeeds exactly when its parse does: after a parse that has
    succeeded the emission cannot fail, calls the provider for nothing and
    leaves the globals as the parse left them.  The text is the preamble,
    the signature with every parameter in order under the type the table
    records for it, the declarations of the table's entries that are not
    parameters, the lines of the body one level in, the closing brace and
    [main]. *)
Theorem emission_after_parse (code : function_def) (g g' : globals)
  (ast : list node) :
  parse_code code g = (Ok ast, g') ->
  exists nodes rt,
    ast = [NFunction (fn_name code) (fn_params code) nodes rt] /\
    parse_then_emit code g
    = (Ok (cpp_header
             ++ ((rt ++ " " ++ fn_name code ++ "("
                    ++ signature (symbol_table g') (fn_params code)
                    ++ ") {" ++ nl)
                   ++ declarations 0
                        (fst (vars_to_declare (symbol_table g') (fn_params code)))
                   ++ lines_text (body_lines nodes 1) ++ "}" ++ nl ++ nl)
             ++ cpp_main (fn_name code)),
       g').
Proof.
  intros H. destruct (to_cpp_after_parse code g g' ast H) as (nodes & rt & E & T).
  exists nodes, rt. split; [exact E|].
  unfold parse_then_emit. now rewrite (bind_ok _ _ _ _ _ H).
Qed.

Lemma emission_after_parse_witness :
  exists text,
    parse_then_emit scenario_two (globals_with (Some (always "int")))
    = (Ok text,
       mkGlobals [("x", "int"); ("y", "int")] true
                 (Some (always "int")) ["function_return_type"]).
Proof.
  destruct (emission_after_parse scenario_two
              (globals_with (Some (always "int")))
              (mkGlobals [("x", "int"); ("y", "int")] true
                         (Some (always "int")) ["function_return_type"])
              [NFunction "f" []
                 [NAssign (AssignNode "x" "5"); NAssign (AssignNode "y" "x");
                  NReturn (PStr "y")] "int"]
              eq_refl) as (nodes & rt & E & T).
  eexists. exact T.
Defined.

(** ** The provider of the server *)

Lemma valid_dtype_cases (t : string) :
  mem t valid_dtypes = true ->
  In t ["int"; "float"; "string"; "long"; "char"; "array"; "vector"].
Proof. intros H. now apply mem_In in H. Qed.

(** A valid datatype has no blank to strip. *)
Lemma strip_valid_dtype (t : string) :
  mem t valid_dtypes = true -> strip t = t.
Proof.
  intros H. apply valid_dtype_cases in H.
  repeat (destruct H as [<-|H]; [reflexivity|]). destruct H.
Qed.

Lemma http_ask_type_eq (hints : list (string * json)) (x : string) (g : globals) :
  type_provider g = Some (make_http_type_provider hints) ->
  ask_type x g
  = match hinted_type hints x with
    | Some t => (Ok t, logged x g)
    | None => (Raise (MissingTypeError x), logged x g)
    end.
Proof.
  intros P. rewrite ask_type_eq, P. unfold make_http_type_provider, hinted_type.
  destruct (find _ hints) as [[k [t|]]|]; try reflexivity.
  destruct (mem t valid_dtypes) eqn:V; [|reflexivity].
  now rewrite (strip_valid_dtype t V), V.
Qed.

(** X6.  With the provider [make_http_type_provider] builds from an object
    of type hints, [ask_type] resolves a name exactly when the object holds,
    under that name, a string that is one of the valid datatypes, and then to
    that very string; in every other case (no entry, an entry that is no
    string, a string that is no valid datatype) it raises the missing-type
    error of the name asked for.  Either way the provider was called once. *)
Theorem http_provider_resolution (hints : list (string * json)) (x : string)
  (g : globals) :
  type_provider g = Some (make_http_type_provider hints) ->
  (forall t, fst (ask_type x g) = Ok t <-> hinted_type hints x = Some t) /\
  (forall e, fst (ask_type x g) = Raise e ->
             e = MissingTypeError x /\ hinted_type hints x = None) /\
  snd (ask_type x g) = logged x g.
Proof.
  intros P. rewrite (http_ask_type_eq hints x g P).
  destruct (hinted_type hints x) as [t0|]; cbn [fst snd]; repeat split;
    try congruence; try discriminate;
    intros H; inversion H; reflexivity.
Qed.

Lemma http_provider_resolution_witness :
  let hints := [("a", JString "int"); ("b", JOther); ("c", JString "double")] in
  let g := globals_with (Some (make_http_type_provider hints)) in
  fst (ask_type "a" g) = Ok "int" /\
  fst (ask_type "b" g) = Raise (MissingTypeError "b").
Proof.
  intros hints g.
  destruct (http_provider_resolution hints "a" g eq_refl) as (Ha & _ & _).
  destruct (http_provider_resolution hints "b" g eq_refl) as (_ & Hb & _).
  split; [now apply Ha|].
  destruct (fst (ask_type "b" g)) as [t|e] eqn:E; [discriminate|].
  destruct (Hb e eq_refl) as [-> _]. reflexivity.
Defined.

(** ** Where the exceptions of a run come from *)

(** What [ask_type] gives depends on the provider only. *)
Lemma ask_type_fst_provider (v : string) (g0 g : globals) :
  type_provider g0 = type_provider g ->
  fst (ask_type v g0) = fst (ask_type v g).
Proof.
  intros P. rewrite !ask_type_eq, P.
  destruct (type_provider g) as [p|]; [|reflexivity].
  destruct (p v valid_dtypes) as [e|a]; [reflexivity|].
  now destruct (mem (strip a) valid_dtypes).
Qed.

Lemma rf_ret {A} N (a : A) (g : globals) : raises_from_at N (ret a) g.
Proof. split; [reflexivity | discriminate]. Qed.

Lemma rf_bind {A B} N (m : M A) (k : A -> M B) (g : globals) :
  raises_from_at N m g ->
  (forall a g1, m g = (Ok a, g1) -> raises_from_at N (k a) g1) ->
  raises_from_at N (bind m k) g.
Proof.
  intros [P R] Hk. unfold raises_from_at, bind.
  destruct (m g) as [[a|e] g1] eqn:E; cbn [fst snd] in *.
  - destruct (Hk a g1 eq_refl) as [P2 R2]. split; [congruence|].
    intros e H. destruct (R2 e H) as (v & I & Q).
    exists v. split; [exact I|]. now rewrite <- (ask_type_fst_provider v g1 g P).
  - split; [exact P|]. intros e' H. inversion H. subst e'. now apply R.
Qed.

Lemma rf_weaken {A} N N' (m : M A) (g : globals) :
  incl N N' -> raises_from_at N m g -> raises_from_at N' m g.
Proof.
  intros I [P R]. split; [exact P|].
  intros e H. destruct (R e H) as (v & Iv & Q). eauto.
Qed.

Lemma rf_ask_type N (x : string) (g : globals) :
  In x N -> raises_from_at N (ask_type x) g.
Proof.
  intros I. split; [apply ask_type_state | eauto].
Qed.

Lemma rf_ensure_type N (x : string) (g : globals) :
  In x N -> raises_from_at N (ensure_type x) g.
Proof.
  intros I. unfold raises_from_at. rewrite ensure_type_eq.
  destruct (dict_in x (symbol_table g)); [split; [reflexivity | discriminate]|].
  pose proof (ask_type_state x g) as (_ & _ & P).
  destruct (ask_type x g) as [[t|e] g1] eqn:E; cbn [fst snd] in *.
  - split; [exact P | discriminate].
  - split; [exact P|]. intros e' H. inversion H. subst e'.
    exists x. split; [exact I|]. now rewrite E.
Qed.

(** [handle_assignment] raises nothing of its own: its exception is the one
    of the question about the target or about the source. *)
Lemma rf_handle_assignment N (x : string) (v : pyval) (e : bool) (g : globals) :
  In x N ->
  (forall s, v = PStr s -> negb e && isidentifier s = true -> In s N) ->
  raises_from_at N (handle_assignment x v e) g.
Proof.
  intros I S. destruct v as [n|r|s].
  - change (PInt n) with (number_value (NumInt n)).
    unfold raises_from_at. rewrite handle_assignment_number.
    split; [reflexivity | discriminate].
  - change (PFloat r) with (number_value (NumFloat r)).
    unfold raises_from_at. rewrite handle_assignment_number.
    split; [reflexivity | discriminate].
  - destruct (negb e && isidentifier s) eqn:B.
    + specialize (S s eq_refl B).
      apply andb_true_iff in B as [E I2]. apply negb_true_iff in E. subst e.
      unfold raises_from_at. rewrite (handle_assignment_identifier x s g I2).
      destruct (dict_get (symbol_table g) s) as [t|];
        [split; [reflexivity | discriminate]|].
      pose proof (ask_type_state s g) as (_ & _ & P).
      destruct (ask_type s g) as [[t|err] g1] eqn:A; cbn [fst snd] in *.
      * split; [exact P | discriminate].
      * split; [exact P|]. intros e' H. inversion H. subst e'.
        exists s. split; [exact S|]. now rewrite A.
    + unfold raises_from_at. rewrite (handle_assignment_text x s e g B).
      destruct (rf_ensure_type N x g I) as [P R].
      destruct (ensure_type x g) as [[u|err] g1]; cbn [fst snd] in *.
      * split; [exact P | discriminate].
      * split; [exact P|]. intros e' H. inversion H. subst e'. now apply R.
Qed.

Lemma rf_expression_all :
  (forall e N g, incl (expression_ids e) N -> raises_from_at N (p_expression e) g) /\
  (forall t N g, incl (term_ids t) N -> raises_from_at N (p_term t) g) /\
  (forall f N g, incl (factor_ids f) N -> raises_from_at N (p_factor f) g).
Proof.
  apply expression_mutual_ind;
    cbn [p_expression p_term p_factor expression_ids term_ids factor_ids].
  - intros e1 IH1 op t IH2 N g I. apply incl_app_inv in I as [I1 I2].
    apply rf_bind; [now apply IH1 | intros].
    apply rf_bind; [now apply IH2 | intros; apply rf_ret].
  - auto.
  - intros t1 IH1 op f IH2 N g I. apply incl_app_inv in I as [I1 I2].
    apply rf_bind; [now apply IH1 | intros].
    apply rf_bind; [now apply IH2 | intros; apply rf_ret].
  - auto.
  - intros. apply rf_ret.
  - intros x N g I. unfold p_factor_id.
    apply rf_bind; [|intros; apply rf_ret].
    apply rf_ensure_type, I. now left.
  - intros e IH N g I.
    apply rf_bind; [now apply IH | intros; apply rf_ret].
Qed.

Lemma rf_p_expression N (e : expression) (g : globals) :
  incl (expression_ids e) N -> raises_from_at N (p_expression e) g.
Proof. apply rf_expression_all. Qed.

Lemma rf_p_condition N (c : condition) (g : globals) :
  incl (condition_ids c) N -> raises_from_at N (p_condition c) g.
Proof.
  destruct c as [l op r]. cbn [condition_ids p_condition]. intros I.
  apply incl_app_inv in I as [I1 I2].
  apply rf_bind; [now apply rf_p_expression | intros].
  apply rf_bind; [now apply rf_p_expression | intros; apply rf_ret].
Qed.

Lemma rf_p_condition_opt N (c : option condition) (g : globals) :
  incl (condition_opt_ids c) N -> raises_from_at N (p_condition_opt c) g.
Proof.
  destruct c as [c|]; cbn [condition_opt_ids p_condition_opt]; intros I.
  - apply rf_bind; [now apply rf_p_condition | intros; apply rf_ret].
  - apply rf_ret.
Qed.

Lemma rf_for_assign_action N (x : string) (v : pyval) (g : globals) :
  In x N ->
  (forall s, v = PStr s -> incl (source_ids s) N) ->
  raises_from_at N (for_assign_action x v) g.
Proof.
  intros I S. unfold for_assign_action.
  apply rf_bind; [|intros; apply rf_ret].
  apply rf_handle_assignment; [exact I|].
  intros s -> B. cbn [for_is_expr] in B.
  apply andb_true_iff in B as [_ B].
  apply (S s eq_refl). unfold source_ids. rewrite B. now left.
Qed.

Lemma rf_for_assign N (a : for_assign) (g : globals) :
  incl (for_assign_ids a) N ->
  raises_from_at N (p_for_init_opt a) g /\
  raises_from_at N (p_for_update_opt a) g.
Proof.
  destruct a as [x n|x val|x e|];
    cbn [for_assign_ids p_for_init_opt p_for_update_opt]; intros IN.
  - split; (apply rf_for_assign_action;
            [apply IN; now left | destruct n; discriminate]).
  - split; (apply rf_for_assign_action; [apply IN; now left|]);
      intros s E; inversion E; subst s;
      intros k K; apply IN; now right.
  - apply incl_app_inv in IN as [IE IS].
    split; (apply rf_bind; [now apply rf_p_expression|]);
      intros a g1 H; apply p_expression_text in H; subst a;
      (apply rf_for_assign_action; [apply IS; now left|]);
      intros s E; inversion E; subst s;
      intros k K; apply IS; now right.
  - split; apply rf_ret.
Qed.

Lemma rf_p_statement_return N (v : pyval) (g : globals) :
  In return_query N -> raises_from_at N (p_statement_return v) g.
Proof.
  intros I. unfold p_statement_return.
  apply rf_bind; [split; [reflexivity | discriminate] | intros u g1 _].
  apply rf_bind; [split; [reflexivity | discriminate] | intros d g2 _].
  apply rf_bind; [|intros; apply rf_ret].
  destruct (dict_in return_key d); [apply rf_ret|].
  destruct (infer_type v); [split; [reflexivity | discriminate]|].
  apply rf_bind; [now apply rf_ask_type|].
  intros. split; [reflexivity | discriminate].
Qed.

Lemma rf_p_stmt_list_with N (f : statement -> M node) (l : list statement) :
  Forall (fun s => forall g, raises_from_at N (f s) g) l ->
  forall g, raises_from_at N (p_stmt_list_with f l) g.
Proof.
  induction 1 as [|s r Hs Hr IH]; intros g; cbn [p_stmt_list_with].
  - apply rf_ret.
  - apply rf_bind; [apply Hs | intros].
    apply rf_bind; [apply IH | intros; apply rf_ret].
Qed.

Lemma rf_p_statement (s : statement) :
  forall N g,
    incl (statement_ids s) N -> In return_query N ->
    raises_from_at N (p_statement s) g.
Proof.
  induction s as [x n|x val|x e|c body IH|c body IH|init c update body IH
                  |val|n|e] using statement_body_ind;
    intros N g IN RQ; cbn [p_statement statement_ids] in *.
  - apply rf_bind; [|intros; apply rf_ret].
    apply rf_handle_assignment; [apply IN; now left|].
    destruct n; discriminate.
  - apply rf_bind; [|intros; apply rf_ret].
    apply rf_handle_assignment; [apply IN; now left|].
    intros s E B. inversion E. subst s. apply IN. right.
    unfold source_ids. apply andb_true_iff in B as [_ B]. rewrite B. now left.
  - apply incl_app_inv in IN as [IE IX].
    apply rf_bind; [now apply rf_p_expression | intros].
    apply rf_bind; [|intros; apply rf_ret].
    apply rf_handle_assignment; [apply IX; now left | discriminate].
  - apply incl_app_inv in IN as [IC IB].
    apply rf_bind; [now apply rf_p_condition | intros].
    apply rf_bind; [|intros; apply rf_ret].
    apply rf_p_stmt_list_with. rewrite Forall_forall in *.
    intros s Hs gx. apply IH; [exact Hs | | exact RQ].
    eapply incl_flat_map; eauto.
  - apply incl_app_inv in IN as [IC IB].
    apply rf_bind; [now apply rf_p_condition | intros].
    apply rf_bind; [|intros; apply rf_ret].
    apply rf_p_stmt_list_with. rewrite Forall_forall in *.
    intros s Hs gx. apply IH; [exact Hs | | exact RQ].
    eapply incl_flat_map; eauto.
  - apply incl_app_inv in IN as [IN1 IN]. apply incl_app_inv in IN as [IN2 IN].
    apply incl_app_inv in IN as [IN3 IN4].
    apply rf_bind; [now apply rf_for_assign | intros].
    apply rf_bind; [now apply rf_p_condition_opt | intros].
    apply rf_bind; [now apply rf_for_assign | intros].
    apply rf_bind; [|intros; apply rf_ret].
    apply rf_p_stmt_list_with. rewrite Forall_forall in *.
    intros s Hs gx. apply IH; [exact Hs | | exact RQ].
    eapply incl_flat_map; eauto.
  - now apply rf_p_statement_return.
  - now apply rf_p_statement_return.
  - apply rf_bind; [now apply rf_p_expression | intros].
    now apply rf_p_statement_return.
Qed.

Lemma rf_ensure_param_types N (params : list string) :
  incl params N -> forall g, raises_from_at N (ensure_param_types params) g.
Proof.
  induction params as [|p r IH]; intros I g; cbn [ensure_param_types].
  - apply rf_ret.
  - apply rf_bind.
    + apply rf_ensure_type, I. now left.
    + intros. apply IH. intros k K. apply I. now right.
Qed.

(** The parser raises nothing of its own. *)
Lemma rf_parse_code (code : function_def) (g : globals) :
  raises_from_at (program_names code) (parse_code code) g.
Proof.
  assert (R : raises_from_at (program_names code) (p_program code)
                (reset_globals g)).
  { unfold p_program, p_function.
    apply rf_bind; [|intros; apply rf_ret].
    apply rf_bind.
    { apply rf_p_stmt_list_with, Forall_forall. intros s Hs g0.
      apply rf_p_statement.
      - intros k K. unfold program_names. apply in_or_app. left.
        apply in_flat_map. eauto.
      - unfold program_names. apply in_or_app. right.
        apply in_or_app. right. now left. }
    intros nodes g1 _.
    apply rf_bind; [split; [reflexivity | discriminate] | intros hr g2 _].
    apply rf_bind; [split; [reflexivity | discriminate] | intros d g3 G].
    inversion G. subst d g3. clear G.
    apply rf_bind.
    - destruct (hr && dict_in return_key (symbol_table g2)) eqn:C;
        [|apply rf_ret].
      apply andb_true_iff in C as [_ C]. apply dict_in_true in C as [t C].
      rewrite C. apply rf_bind; [split; [reflexivity | discriminate]|].
      intros. apply rf_ret.
    - intros rt g4 _.
      apply rf_bind; [|intros; apply rf_ret].
      apply rf_ensure_param_types. unfold program_names.
      intros k K. apply in_or_app. right. apply in_or_app. now left. }
  destruct R as [P R]. split; [exact P|].
  intros e H. destruct (R e H) as (v & I & Q). exists v. split; [exact I|].
  rewrite <- Q. now apply ask_type_fst_provider.
Qed.

(** A run that raises has raised in its parse, and what it raised is what
    [ask_type] raises for one of the names of the program. *)
Lemma parse_then_emit_raise (code : function_def) (g g' : globals) (e : exn) :
  parse_then_emit code g = (Raise e, g') ->
  parse_code code g = (Raise e, g') /\
  exists v, In v (program_names code) /\ fst (ask_type v g) = Raise e.
Proof.
  intros H. unfold parse_then_emit in H.
  apply bind_inv_raise in H as [H|(ast & g1 & H & T)].
  - split; [exact H|]. destruct (rf_parse_code code g) as [_ R].
    apply R. now rewrite H.
  - destruct (to_cpp_after_parse code g g1 ast H) as (nodes & rt & _ & T').
    rewrite T' in T. discriminate.
Qed.

(** X7.  The parser and the generator raise nothing of their own.  When a
    run ends with an exception, the parse has raised it, and it is the
    exception [ask_type] raises for one name of the program: a name to which
    the body gives a type, a parameter, or [function_return_type].  With no
    provider registered it is the missing-type error of that name. *)
Theorem run_raises_from_ask_type (code : function_def) (g g' : globals)
  (e : exn) :
  parse_then_emit code g = (Raise e, g') ->
  parse_code code g = (Raise e, g') /\
  exists v,
    In v (program_names code) /\
    fst (ask_type v g) = Raise e /\
    (type_provider g = None -> e = MissingTypeError v).
Proof.
  intros H. apply parse_then_emit_raise in H as [H (v & I & Q)].
  split; [exact H|]. exists v. repeat split; auto.
  intros P. rewrite ask_type_eq, P in Q. cbn in Q. now inversion Q.
Qed.

Lemma run_raises_from_ask_type_witness :
  exists v,
    In v (program_names scenario_four) /\
    fst (ask_type v initial_globals) = Raise (MissingTypeError "z").
Proof.
  destruct (run_raises_from_ask_type scenario_four initial_globals
              initial_globals (MissingTypeError "z") eq_refl)
    as [_ (v & I & Q & _)].
  exists v. split; assumption.
Defined.

(** X8.  What [convert] comes to, for any object of type hints and any
    program: either the generated text, or the missing-type error of one
    name of the program for which the hints hold no valid datatype.  No
    other exception leaves the parser or the generator. *)
Theorem convert_outcome (hints : list (string * json)) (code : function_def)
  (g : globals) :
  (exists text, fst (convert hints code g) = Ok text) \/
  (exists v,
     fst (convert hints code g) = Raise (MissingTypeError v) /\
     In v (program_names code) /\
     hinted_type hints v = None).
Proof.
  unfold convert, bind, register_type_provider.
  set (gr := mkGlobals (symbol_table g) (has_return g)
               (Some (make_http_type_provider hints)) (oracle_calls g)).
  destruct (parse_then_emit code gr) as [[text|e] g'] eqn:E.
  - left. exists text. reflexivity.
  - right. apply parse_then_emit_raise in E as [_ (v & I & Q)].
    rewrite (http_ask_type_eq hints v gr eq_refl) in Q.
    destruct (hinted_type hints v) eqn:HT; [discriminate|].
    cbn in Q. inversion Q. exists v. repeat split; auto.
Qed.

(** X9.  A provider that answers every name of the program with a valid
    datatype, blanks around it allowed, makes the run succeed: the parse
    and the emission raise nothing. *)
Theorem run_succeeds_with_answers (code : function_def) (g : globals)
  (p : provider) :
  type_provider g = Some p ->
  (forall v, In v (program_names code) ->
             exists a, p v valid_dtypes = inr a /\
                       mem (strip a) valid_dtypes = true) ->
  exists text g', parse_then_emit code g = (Ok text, g').
Proof.
  intros P A. destruct (parse_then_emit code g) as [[text|e] g'] eqn:E.
  - eauto.
  - apply parse_then_emit_raise in E as [_ (v & I & Q)].
    destruct (A v I) as (a & Pa & V).
    rewrite ask_type_eq, P, Pa, V in Q. discriminate.
Qed.

Lemma run_succeeds_with_answers_witness :
  exists text g',
    parse_then_emit scenario_two (globals_with (Some (always " long ")))
    = (Ok text, g').
Proof.
  apply (run_succeeds_with_answers scenario_two
           (globals_with (Some (always " long "))) (always " long ") eq_refl).
  intros v _. exists " long ". split; reflexivity.
Defined.

(** ** The identifiers found in a text *)

Lemma all_chars_app (p : ascii -> bool) (a b : string) :
  all_chars p (a ++ b) = all_chars p a && all_chars p b.
Proof.
  induction a as [|c r IH]; cbn; [reflexivity|].
  now rewrite IH, andb_assoc.
Qed.

Lemma isidentifier_snoc (w : string) (c : ascii) :
  isidentifier w = true -> is_alnum_ c = true ->
  isidentifier (w ++ String c EmptyString) = true.
Proof.
  destruct w as [|c0 r]; cbn; [discriminate|].
  intros H C. apply andb_true_iff in H as [H1 H2].
  rewrite H1, all_chars_app, H2. cbn. now rewrite C.
Qed.

Lemma findall_identifiers :
  forall s,
    Forall (fun w => isidentifier w = true) (ids_from s) /\
    (forall acc, isidentifier acc = true ->
                 Forall (fun w => isidentifier w = true) (in_word acc s)).
Proof.
  induction s as [|c r [IH1 IH2]]; cbn [ids_from in_word].
  - split; [constructor | intros; constructor; auto].
  - split.
    + destruct (is_alpha_ c) eqn:A; [|exact IH1].
      apply IH2. cbn. now rewrite A.
    + intros acc H. destruct (is_alnum_ c) eqn:A.
      * apply IH2. now apply isidentifier_snoc.
      * constructor; assumption.
Qed.

(** A text that ends where no identifier can go on is searched apart from
    what follows it. *)
Lemma findall_app (a b : string) :
  breaks b = true ->
  ids_from (a ++ b) = (ids_from a ++ ids_from b)%list /\
  (forall acc, in_word acc (a ++ b) = (in_word acc a ++ ids_from b)%list).
Proof.
  intros B. induction a as [|c r [IH1 IH2]]; cbn [append ids_from in_word].
  - split; [reflexivity|]. intros acc.
    destruct b as [|c r]; [reflexivity|]. cbn in B. apply negb_true_iff in B.
    cbn [ids_from in_word]. rewrite B.
    unfold is_alnum_ in B. apply orb_false_iff in B as [B _]. now rewrite B.
  - split.
    + destruct (is_alpha_ c); [apply IH2 | exact IH1].
    + intros acc. destruct (is_alnum_ c); [apply IH2|].
      cbn [app]. now rewrite IH1.
Qed.

Lemma in_word_all (r : string) :
  all_chars is_alnum_ r = true ->
  forall acc, in_word acc r = [acc ++ r].
Proof.
  induction r as [|c r IH]; cbn; intros H acc.
  - now rewrite append_empty_r.
  - apply andb_true_iff in H as [C H]. rewrite C, IH by exact H.
    now rewrite append_assoc.
Qed.

(** An identifier is found whole. *)
Lemma findall_identifier (x : string) :
  isidentifier x = true -> ids_from x = [x].
Proof.
  destruct x as [|c r]; cbn; [discriminate|].
  intros H. apply andb_true_iff in H as [A R]. rewrite A.
  now rewrite in_word_all.
Qed.

(** Nothing is found in a text without a letter. *)
Lemma findall_no_letter (s : string) :
  all_chars (fun c => negb (is_alpha_ c)) s = true -> ids_from s = [].
Proof.
  induction s as [|c r IH]; cbn; [reflexivity|].
  intros H. apply andb_true_iff in H as [A R].
  apply negb_true_iff in A. rewrite A. auto.
Qed.

Lemma uint_text_no_letter (d : Decimal.uint) :
  all_chars (fun c => negb (is_alpha_ c)) (NilZero.string_of_uint d) = true.
Proof.
  assert (H : all_chars (fun c => negb (is_alpha_ c))
                (NilEmpty.string_of_uint d) = true).
  { induction d; cbn; auto. }
  destruct d; cbn; auto.
Qed.

(** The text of an [int] has no letter. *)
Lemma int_text_no_letter (n : Z) :
  all_chars (fun c => negb (is_alpha_ c)) (py_str (PInt n)) = true.
Proof.
  cbn [py_str]. unfold NilZero.string_of_int.
  destruct (Z.to_int n) as [d|d]; [apply uint_text_no_letter|].
  cbn [all_chars]. now rewrite uint_text_no_letter.
Qed.

(** The search of the text of an expression finds what the search of each
    operand finds: the operators, the blanks and the parentheses hold no
    word and join no two words. *)
Lemma findall_expression_words :
  (forall e, identifier_operands e = true ->
             ids_from (expression_text e) = expression_words e) /\
  (forall t, identifier_operands_term t = true ->
             ids_from (term_text t) = term_words t) /\
  (forall f, identifier_operands_factor f = true ->
             ids_from (factor_text f) = factor_words f).
Proof.
  apply expression_mutual_ind;
    cbn [identifier_operands identifier_operands_term
         identifier_operands_factor expression_text term_text
         factor_text expression_words term_words factor_words].
  - intros e1 IH1 op t IH2 L. apply andb_true_iff in L as [L1 L2].
    destruct (findall_app (expression_text e1)
                (" " ++ addop_text op ++ " " ++ term_text t) eq_refl) as [-> _].
    rewrite IH1 by exact L1. f_equal.
    destruct op; cbn; now apply IH2.
  - auto.
  - intros t1 IH1 op f IH2 L. apply andb_true_iff in L as [L1 L2].
    destruct (findall_app (term_text t1)
                (" " ++ mulop_text op ++ " " ++ factor_text f) eq_refl) as [-> _].
    rewrite IH1 by exact L1. f_equal.
    destruct op; cbn; now apply IH2.
  - auto.
  - reflexivity.
  - intros x L. now apply findall_identifier.
  - intros e IH L.
    change ("(" ++ expression_text e ++ ")")
      with (String "("%char (expression_text e ++ ")")).
    cbn [ids_from]. change (is_alpha_ "("%char) with false. cbv iota.
    destruct (findall_app (expression_text e) ")" eq_refl) as [-> _].
    rewrite IH by exact L. cbn. apply app_nil_r.
Qed.

(** Without a letter in the text of a NUMBER, the words are the
    identifiers. *)
Lemma words_without_letters :
  (forall e, letter_free_numbers e = true ->
             expression_words e = expression_ids e) /\
  (forall t, letter_free_numbers_term t = true -> term_words t = term_ids t) /\
  (forall f, letter_free_numbers_factor f = true ->
             factor_words f = factor_ids f).
Proof.
  apply expression_mutual_ind;
    cbn [letter_free_numbers letter_free_numbers_term
         letter_free_numbers_factor expression_words term_words factor_words
         expression_ids term_ids factor_ids].
  - intros e1 IH1 op t IH2 L. apply andb_true_iff in L as [L1 L2].
    now rewrite IH1, IH2.
  - auto.
  - intros t1 IH1 op f IH2 L. apply andb_true_iff in L as [L1 L2].
    now rewrite IH1, IH2.
  - auto.
  - intros n L. now apply findall_no_letter.
  - reflexivity.
  - auto.
Qed.

(** Every identifier of an expression is one of its words. *)
Lemma ids_among_words :
  (forall e, incl (expression_ids e) (expression_words e)) /\
  (forall t, incl (term_ids t) (term_words t)) /\
  (forall f, incl (factor_ids f) (factor_words f)).
Proof.
  apply expression_mutual_ind;
    cbn [expression_words term_words factor_words
         expression_ids term_ids factor_ids].
  - intros e1 IH1 op t IH2. now apply incl_app_app.
  - auto.
  - intros t1 IH1 op f IH2. now apply incl_app_app.
  - auto.
  - intros n k [].
  - intros x. apply incl_refl.
  - auto.
Qed.

(** X10.  Every name [_identifiers_in_expr] returns is an identifier, for
    any text; a value that is no text gives no name. *)
Theorem identifiers_in_expr_are_identifiers (expr : pyval) :
  Forall (fun w => isidentifier w = true) (_identifiers_in_expr expr) /\
  (forall n, _identifiers_in_expr (PInt n) = []) /\
  (forall r, _identifiers_in_expr (PFloat r) = []).
Proof.
  split; [|split; reflexivity].
  destruct expr as [n|r|s]; cbn; try constructor.
  apply findall_identifiers.
Qed.

(** X11.  On the text the parser builds for an expression whose IDs are
    identifiers, [_identifiers_in_expr] finds the words of the operands,
    operand after operand in the order of the text: every ID, and for every
    NUMBER the runs of letters of its text.  So every identifier of the
    expression is found, and each of them has a type in the table once the
    expression is reduced; and when no NUMBER has a letter in its text, the
    identifiers are all that is found.  A float that Python prints with an
    exponent adds the word [e]. *)
Theorem identifiers_in_expression_text (e : expression) (g g' : globals)
  (text : string) :
  identifier_operands e = true ->
  p_expression e g = (Ok text, g') ->
  _identifiers_in_expr (PStr text) = expression_words e /\
  incl (expression_ids e) (_identifiers_in_expr (PStr text)) /\
  Forall (fun x => dict_in x (symbol_table g') = true) (expression_ids e) /\
  (letter_free_numbers e = true ->
   _identifiers_in_expr (PStr text) = expression_ids e).
Proof.
  intros L H. pose proof (p_expression_text e g g' text H) as ->.
  cbn [_identifiers_in_expr].
  rewrite (proj1 findall_expression_words e L).
  split; [reflexivity|]. split; [apply ids_among_words|]. split.
  - apply Forall_forall. intros x I.
    now apply (ensures_p_expression e g _ g' H).
  - apply words_without_letters.
Qed.

Lemma identifiers_in_expression_text_witness :
  _identifiers_in_expr (PStr "x + 1e-05") = ["x"; "e"] /\
  expression_ids exponent_sum = ["x"].
Proof.
  destruct (identifiers_in_expression_text exponent_sum
              (globals_with (Some (always "int")))
              (mkGlobals [("x", "int")] false (Some (always "int")) ["x"])
              "x + 1e-05" eq_refl eq_refl) as [H _].
  split; [exact H | reflexivity].
Defined.

(** ** No name is asked about twice *)

Lemma store_key_variable (x : string) : x <> return_query -> store_key x = x.
Proof.
  intros N. unfold store_key. apply String.eqb_neq in N. now rewrite N.
Qed.

(** An action that asks nothing. *)
Lemma once_silent {A} N (m : M A) (g : globals) :
  (forall k, dict_in k (symbol_table g) = true ->
             dict_in k (symbol_table (snd (m g))) = true) ->
  oracle_calls (snd (m g)) = oracle_calls g ->
  once_at N m g.
Proof.
  intros D C. split; [exact D|]. exists []. rewrite app_nil_r.
  split; [exact C|]. split; [constructor|].
  split; [intros x [] | intros a _ x []].
Qed.

Lemma once_ret {A} N (a : A) (g : globals) : once_at N (ret a) g.
Proof. apply once_silent; auto. Qed.

Lemma once_bind {A B} N (m : M A) (k : A -> M B) (g : globals) :
  once_at N m g ->
  (forall a g1, m g = (Ok a, g1) -> once_at N (k a) g1) ->
  once_at N (bind m k) g.
Proof.
  intros [D1 (l1 & C1 & U1 & F1 & S1)] Hk. unfold once_at, bind.
  destruct (m g) as [[a|e] g1] eqn:E; cbn [fst snd] in *.
  - destruct (Hk a g1 eq_refl) as [D2 (l2 & C2 & U2 & F2 & S2)].
    split; [auto|]. exists (l1 ++ l2)%list.
    split; [now rewrite C2, C1, app_assoc|].
    split.
    { apply NoDup_app; [exact U1 | exact U2 |].
      intros x I1 I2. destruct (F2 x I2) as [_ N2].
      specialize (S1 a eq_refl x I1). congruence. }
    split.
    { intros x H. apply in_app_or in H as [H|H]; [now apply F1|].
      destruct (F2 x H) as [N1 N2]. split; [exact N1|].
      destruct (dict_in (store_key x) (symbol_table g)) eqn:Dx; [|reflexivity].
      apply D1 in Dx. congruence. }
    intros b Hb x I. apply in_app_or in I as [I|I].
    + apply D2. now apply (S1 a).
    + now apply (S2 b).
  - split; [exact D1|]. exists l1.
    split; [exact C1|]. split; [exact U1|]. split; [exact F1|]. discriminate.
Qed.

Lemma once_weaken {A} N N' (m : M A) (g : globals) :
  incl N N' -> once_at N m g -> once_at N' m g.
Proof.
  intros I [D (l & C & U & F & S)]. split; [exact D|].
  exists l. split; [exact C|]. split; [exact U|]. split; [|exact S].
  intros x H. destruct (F x H). auto.
Qed.

(** The guarded store asks about a name the table does not hold, once. *)
Lemma once_ensure_type N (x : string) (g : globals) :
  In x N -> x <> return_query -> once_at N (ensure_type x) g.
Proof.
  intros I NQ.
  destruct (grows_bind (ensure_type x) (fun _ => ret tt)
              (frames_grows false [] [x] _
                 (frames_ensure_type false [] [x] x (or_intror (or_introl eq_refl))))
              (fun _ => grows_ret tt) g) as [D0 _].
  rewrite snd_bind_ret in D0.
  split; [exact D0|]. rewrite ensure_type_eq.
  destruct (dict_in x (symbol_table g)) eqn:D.
  { exists []. cbn [snd]. rewrite app_nil_r.
    split; [reflexivity|]. split; [constructor|].
    split; [intros y [] | intros a _ y []]. }
  pose proof (ask_type_calls x g) as C.
  destruct (ask_type x g) as [[t|e] g1] eqn:A; cbn [fst snd] in *; subst g1.
  - destruct (type_provider g) eqn:P.
    + exists [x]. cbn [snd logged oracle_calls with_table symbol_table].
      split; [reflexivity|].
      split; [constructor; [intros [] | constructor]|].
      split.
      * intros y [<-|[]]. split; [exact I|]. now rewrite store_key_variable.
      * intros a _ y [<-|[]]. rewrite store_key_variable by exact NQ.
        now rewrite dict_in_set, String.eqb_refl.
    + rewrite ask_type_eq, P in A. discriminate.
  - destruct (type_provider g) eqn:P.
    + exists [x]. cbn [snd logged oracle_calls].
      split; [reflexivity|].
      split; [constructor; [intros [] | constructor]|].
      split; [|discriminate].
      intros y [<-|[]]. split; [exact I|]. now rewrite store_key_variable.
    + exists []. cbn [snd]. rewrite app_nil_r.
      split; [reflexivity|]. split; [constructor|].
      split; [intros y [] | intros a _ y []].
Qed.

Lemma once_handle_assignment N (x : string) (v : pyval) (e : bool) (g : globals) :
  In x N -> x <> return_query ->
  (forall s, v = PStr s -> negb e && isidentifier s = true ->
             In s N /\ s <> return_query) ->
  once_at N (handle_assignment x v e) g.
Proof.
  intros I NQ S. unfold handle_assignment.
  apply once_bind; [|intros; apply once_ret].
  destruct v as [n|r|s]; cbn [infer_type].
  - apply once_silent; [|reflexivity].
    intros k D. cbn. rewrite dict_in_set, D. apply orb_true_r.
  - apply once_silent; [|reflexivity].
    intros k D. cbn. rewrite dict_in_set, D. apply orb_true_r.
  - destruct (negb e && isidentifier s) eqn:B; [|now apply once_ensure_type].
    destruct (S s eq_refl B) as [Is Ns].
    apply once_bind; [now apply once_ensure_type|].
    intros u g1 _. apply once_silent.
    + intros k D. unfold bind, get_table.
      destruct (dict_get (symbol_table g1) s); [|exact D].
      cbn. rewrite dict_in_set, D. apply orb_true_r.
    + unfold bind, get_table. now destruct (dict_get (symbol_table g1) s).
Qed.

Lemma once_expression_all :
  (forall e N g, incl (expression_ids e) N -> ~ In return_query (expression_ids e) ->
                 once_at N (p_expression e) g) /\
  (forall t N g, incl (term_ids t) N -> ~ In return_query (term_ids t) ->
                 once_at N (p_term t) g) /\
  (forall f N g, incl (factor_ids f) N -> ~ In return_query (factor_ids f) ->
                 once_at N (p_factor f) g).
Proof.
  apply expression_mutual_ind;
    cbn [p_expression p_term p_factor expression_ids term_ids factor_ids].
  - intros e1 IH1 op t IH2 N g I NQ. apply incl_app_inv in I as [I1 I2].
    apply once_bind; [apply IH1; auto; intros K; apply NQ, in_or_app; auto|].
    intros. apply once_bind; [|intros; apply once_ret].
    apply IH2; auto. intros K. apply NQ, in_or_app. auto.
  - auto.
  - intros t1 IH1 op f IH2 N g I NQ. apply incl_app_inv in I as [I1 I2].
    apply once_bind; [apply IH1; auto; intros K; apply NQ, in_or_app; auto|].
    intros. apply once_bind; [|intros; apply once_ret].
    apply IH2; auto. intros K. apply NQ, in_or_app. auto.
  - auto.
  - intros. apply once_ret.
  - intros x N g I NQ. unfold p_factor_id.
    apply once_bind; [|intros; apply once_ret].
    apply once_ensure_type; [apply I; now left|].
    intros ->. apply NQ. now left.
  - intros e IH N g I NQ.
    apply once_bind; [now apply IH | intros; apply once_ret].
Qed.

Lemma once_p_expression N (e : expression) (g : globals) :
  incl (expression_ids e) N -> ~ In return_query (expression_ids e) ->
  once_at N (p_expression e) g.
Proof. apply once_expression_all. Qed.

Lemma once_p_condition N (c : condition) (g : globals) :
  incl (condition_ids c) N -> ~ In return_query (condition_ids c) ->
  once_at N (p_condition c) g.
Proof.
  destruct c as [l op r]. cbn [condition_ids p_condition]. intros I NQ.
  apply incl_app_inv in I as [I1 I2].
  apply once_bind;
    [apply once_p_expression; auto; intros K; apply NQ, in_or_app; auto|].
  intros. apply once_bind; [|intros; apply once_ret].
  apply once_p_expression; auto. intros K. apply NQ, in_or_app. auto.
Qed.

Lemma once_p_condition_opt N (c : option condition) (g : globals) :
  incl (condition_opt_ids c) N -> ~ In return_query (condition_opt_ids c) ->
  once_at N (p_condition_opt c) g.
Proof.
  destruct c as [c|]; cbn [condition_opt_ids p_condition_opt]; intros I NQ.
  - apply once_bind; [now apply once_p_condition | intros; apply once_ret].
  - apply once_ret.
Qed.

Lemma once_for_assign_action N (x : string) (v : pyval) (g : globals) :
  In x N -> x <> return_query ->
  (forall s, v = PStr s -> incl (source_ids s) N /\
                           ~ In return_query (source_ids s)) ->
  once_at N (for_assign_action x v) g.
Proof.
  intros I NQ S. unfold for_assign_action.
  apply once_bind; [|intros; apply once_ret].
  apply once_handle_assignment; auto.
  intros s -> B. cbn [for_is_expr] in B.
  apply andb_true_iff in B as [_ B].
  destruct (S s eq_refl) as [S1 S2]. unfold source_ids in S1, S2.
  rewrite B in S1, S2. split; [apply S1; now left|].
  intros ->. apply S2. now left.
Qed.

Lemma once_for_assign N (a : for_assign) (g : globals) :
  incl (for_assign_ids a) N -> ~ In return_query (for_assign_ids a) ->
  once_at N (p_for_init_opt a) g /\ once_at N (p_for_update_opt a) g.
Proof.
  destruct a as [x n|x val|x e|];
    cbn [for_assign_ids p_for_init_opt p_for_update_opt]; intros IN NQ.
  - split; (apply once_for_assign_action;
            [apply IN; now left
            |intros ->; apply NQ; now left
            |destruct n; discriminate]).
  - split; (apply once_for_assign_action;
            [apply IN; now left | intros ->; apply NQ; now left|]);
      intros s E; inversion E; subst s;
      (split; [intros k K; apply IN; now right
              |intros K; apply NQ; now right]).
  - apply incl_app_inv in IN as [IE IS].
    assert (NE : ~ In return_query (expression_ids e))
      by (intros K; apply NQ, in_or_app; auto).
    assert (NS : ~ In return_query (x :: source_ids (expression_text e)))
      by (intros K; apply NQ, in_or_app; auto).
    split; (apply once_bind; [now apply once_p_expression|]);
      intros a g1 H; apply p_expression_text in H; subst a;
      (apply once_for_assign_action;
       [apply IS; now left | intros ->; apply NS; now left|]);
      intros s E; inversion E; subst s;
      (split; [intros k K; apply IS; now right
              |intros K; apply NS; now right]).
  - split; apply once_ret.
Qed.

Lemma store_key_return_query : store_key return_query = return_key.
Proof. reflexivity. Qed.

Lemma once_p_statement_return N (v : pyval) (g : globals) :
  In return_query N -> once_at N (p_statement_return v) g.
Proof.
  intros I. unfold p_statement_return.
  apply once_bind; [apply once_silent; auto | intros u g1 _].
  apply once_bind; [apply once_silent; auto | intros d g2 G].
  inversion G. subst d g2. clear G.
  apply once_bind; [|intros; apply once_ret].
  destruct (dict_in return_key (symbol_table g1)) eqn:D; [apply once_ret|].
  destruct (infer_type v) as [t|].
  { apply once_silent; [|reflexivity].
    intros k Dk. cbn. rewrite dict_in_set, Dk. apply orb_true_r. }
  unfold once_at, bind.
  pose proof (ask_type_calls return_query g1) as C.
  pose proof (ask_type_state return_query g1) as (S1 & _).
  unfold return_query in C, S1 |- *.
  destruct (ask_type "function_return_type" g1) as [[t|e] g2] eqn:A;
    cbn [fst snd] in *.
  - split.
    { intros k Dk. cbn. rewrite dict_in_set, S1, Dk. apply orb_true_r. }
    destruct (type_provider g1) eqn:P.
    + exists ["function_return_type"]. subst g2.
      cbn [table_store bind get_table set_table snd logged oracle_calls
           with_table symbol_table].
      split; [reflexivity|].
      split; [constructor; [intros [] | constructor]|].
      split.
      * intros y [<-|[]]. split; [exact I | exact D].
      * intros a _ y [<-|[]]. cbn.
        now rewrite dict_in_set, String.eqb_refl.
    + rewrite ask_type_eq, P in A. discriminate.
  - split; [intros k Dk; now rewrite S1|].
    destruct (type_provider g1) eqn:P; subst g2.
    + exists ["function_return_type"]. cbn [snd logged oracle_calls].
      split; [reflexivity|].
      split; [constructor; [intros [] | constructor]|].
      split; [|discriminate].
      intros y [<-|[]]. split; [exact I | exact D].
    + exists []. rewrite app_nil_r.
      split; [reflexivity|]. split; [constructor|].
      split; [intros y [] | intros a _ y []].
Qed.

Lemma once_p_stmt_list_with N (f : statement -> M node) (l : list statement) :
  Forall (fun s => forall g, once_at N (f s) g) l ->
  forall g, once_at N (p_stmt_list_with f l) g.
Proof.
  induction 1 as [|s r Hs Hr IH]; intros g; cbn [p_stmt_list_with].
  - apply once_ret.
  - apply once_bind; [apply Hs | intros].
    apply once_bind; [apply IH | intros; apply once_ret].
Qed.

Lemma not_in_flat_map {A B} (f : A -> list B) (l : list A) (b : B) (a : A) :
  ~ In b (flat_map f l) -> In a l -> ~ In b (f a).
Proof. intros N Ha Hb. apply N, in_flat_map. eauto. Qed.

Lemma once_p_statement (s : statement) :
  forall N g,
    incl (statement_ids s) N -> ~ In return_query (statement_ids s) ->
    In return_query N ->
    once_at N (p_statement s) g.
Proof.
  induction s as [x n|x val|x e|c body IH|c body IH|init c update body IH
                  |val|n|e] using statement_body_ind;
    intros N g IN NQ RQ; cbn [p_statement statement_ids] in *.
  - apply once_bind; [|intros; apply once_ret].
    apply once_handle_assignment; [apply IN; now left | |].
    + intros ->. apply NQ. now left.
    + destruct n; discriminate.
  - apply once_bind; [|intros; apply once_ret].
    apply once_handle_assignment; [apply IN; now left | |].
    + intros ->. apply NQ. now left.
    + intros s E B. inversion E. subst s.
      apply andb_true_iff in B as [_ B].
      unfold source_ids in IN, NQ. rewrite B in IN, NQ. split.
      * apply IN. right. now left.
      * intros ->. apply NQ. right. now left.
  - apply incl_app_inv in IN as [IE IX].
    apply once_bind.
    { apply once_p_expression; auto. intros K. apply NQ, in_or_app. auto. }
    intros. apply once_bind; [|intros; apply once_ret].
    apply once_handle_assignment; [apply IX; now left | |discriminate].
    intros ->. apply NQ, in_or_app. right. now left.
  - apply incl_app_inv in IN as [IC IB].
    apply once_bind.
    { apply once_p_condition; auto. intros K. apply NQ, in_or_app. auto. }
    intros. apply once_bind; [|intros; apply once_ret].
    apply once_p_stmt_list_with. rewrite Forall_forall in *.
    intros s Hs gx. apply IH; [exact Hs | | | exact RQ].
    + eapply incl_flat_map; eauto.
    + eapply not_in_flat_map; eauto. intros K. apply NQ, in_or_app. auto.
  - apply incl_app_inv in IN as [IC IB].
    apply once_bind.
    { apply once_p_condition; auto. intros K. apply NQ, in_or_app. auto. }
    intros. apply once_bind; [|intros; apply once_ret].
    apply once_p_stmt_list_with. rewrite Forall_forall in *.
    intros s Hs gx. apply IH; [exact Hs | | | exact RQ].
    + eapply incl_flat_map; eauto.
    + eapply not_in_flat_map; eauto. intros K. apply NQ, in_or_app. auto.
  - apply incl_app_inv in IN as [IN1 IN]. apply incl_app_inv in IN as [IN2 IN].
    apply incl_app_inv in IN as [IN3 IN4].
    assert (N1 : ~ In return_query (for_assign_ids init))
      by (intros K; apply NQ, in_or_app; auto).
    assert (N2 : ~ In return_query (condition_opt_ids c))
      by (intros K; apply NQ, in_or_app; right; apply in_or_app; auto).
    assert (N3 : ~ In return_query (for_assign_ids update))
      by (intros K; apply NQ, in_or_app; right; apply in_or_app; right;
          apply in_or_app; auto).
    assert (N4 : ~ In return_query (flat_map statement_ids body))
      by (intros K; apply NQ, in_or_app; right; apply in_or_app; right;
          apply in_or_app; auto).
    apply once_bind; [now apply once_for_assign | intros].
    apply once_bind; [now apply once_p_condition_opt | intros].
    apply once_bind; [now apply once_for_assign | intros].
    apply once_bind; [|intros; apply once_ret].
    apply once_p_stmt_list_with. rewrite Forall_forall in *.
    intros s Hs gx. apply IH; [exact Hs | | | exact RQ].
    + eapply incl_flat_map; eauto.
    + eapply not_in_flat_map; eauto.
  - now apply once_p_statement_return.
  - now apply once_p_statement_return.
  - apply once_bind; [now apply once_p_expression | intros].
    now apply once_p_statement_return.
Qed.

Lemma once_ensure_param_types N (params : list string) :
  incl params N -> ~ In return_query params ->
  forall g, once_at N (ensure_param_types params) g.
Proof.
  induction params as [|p r IH]; intros I NQ g; cbn [ensure_param_types].
  - apply once_ret.
  - apply once_bind.
    + apply once_ensure_type; [apply I; now left|].
      intros ->. apply NQ. now left.
    + intros. apply IH.
      * intros k K. apply I. now right.
      * intros K. apply NQ. now right.
Qed.

(** The globals a parse leaves: those of the body when it has raised, else
    those of the typing of the parameters. *)
Lemma parse_code_snd (code : function_def) (g : globals) :
  snd (parse_code code g)
  = match p_stmt_list (fn_body code) (reset_globals g) with
    | (Ok _, g1) => snd (ensure_param_types (fn_params code) (after_promotion g1))
    | (Raise _, g1) => g1
    end.
Proof.
  change (parse_code code g) with (p_program code (reset_globals g)).
  unfold p_program. rewrite snd_bind_ret. unfold p_function.
  unfold bind at 1.
  destruct (p_stmt_list (fn_body code) (reset_globals g)) as [[nodes|e] g1];
    [|reflexivity].
  unfold bind at 1. unfold get_has_return at 1.
  unfold bind at 1. unfold get_table at 1.
  unfold after_promotion, promoted.
  destruct (has_return g1 && dict_in return_key (symbol_table g1)) eqn:C.
  - apply andb_true_iff in C as [_ C]. apply dict_in_true in C as [t C].
    rewrite C. unfold bind at 1. unfold bind at 1. cbn [set_table ret].
    now rewrite snd_bind_ret.
  - unfold bind at 1. cbn [ret]. now rewrite snd_bind_ret.
Qed.

(** The globals a run leaves are those its parse leaves. *)
Lemma parse_then_emit_snd (code : function_def) (g : globals) :
  snd (parse_then_emit code g) = snd (parse_code code g).
Proof.
  unfold parse_then_emit, bind.
  destruct (parse_code code g) as [[ast|e] g1] eqn:E; [|reflexivity].
  destruct (to_cpp_after_parse code g g1 ast E) as (nodes & rt & _ & T).
  now rewrite T.
Qed.

(** X12.  In one run the provider is asked about no name twice: a type it
    has given is kept in the table and found there.  This holds of every
    program in which no variable or parameter is named
    [function_return_type] and no parameter is named as the reserved key;
    the names asked about are names of the program. *)
Theorem provider_asked_once (code : function_def) (g : globals) :
  ~ In return_query (body_ids (fn_body code) ++ fn_params code) ->
  ~ In return_key (fn_params code) ->
  exists calls,
    oracle_calls (snd (parse_then_emit code g)) = (oracle_calls g ++ calls)%list /\
    NoDup calls /\
    Forall (fun x => In x (program_names code)) calls.
Proof.
  intros NQ NK. rewrite parse_then_emit_snd, parse_code_snd.
  assert (NB : ~ In return_query (body_ids (fn_body code)))
    by (intros K; apply NQ, in_or_app; auto).
  assert (NP : ~ In return_query (fn_params code))
    by (intros K; apply NQ, in_or_app; auto).
  assert (RQ : In return_query (program_names code)).
  { unfold program_names. apply in_or_app. right. apply in_or_app. right.
    now left. }
  assert (OB : once_at (program_names code) (p_stmt_list (fn_body code))
                 (reset_globals g)).
  { apply once_p_stmt_list_with, Forall_forall. intros s Hs gx.
    apply once_p_statement; [| |exact RQ].
    - intros k K. unfold program_names. apply in_or_app. left.
      apply in_flat_map. eauto.
    - eapply not_in_flat_map; eauto. }
  destruct OB as [_ (lb & Cb & Ub & Fb & Sb)].
  destruct (p_stmt_list (fn_body code) (reset_globals g)) as [[nodes|e] g1];
    cbn [fst snd] in *.
  - destruct (once_ensure_param_types (fn_params code) (fn_params code)
                (incl_refl _) NP (after_promotion g1))
      as [_ (lp & Cp & Up & Fp & _)].
    exists (lb ++ lp)%list. repeat split.
    + rewrite Cp. unfold after_promotion.
      destruct (promoted g1); cbn [with_table oracle_calls];
        now rewrite Cb, app_assoc.
    + apply NoDup_app; [exact Ub | exact Up |].
      intros x Ib Ip. destruct (Fp x Ip) as [Px Dx].
      assert (Nx : x <> return_query) by (intros ->; contradiction).
      assert (Kx : x <> return_key) by (intros ->; contradiction).
      rewrite store_key_variable in Dx by exact Nx.
      specialize (Sb nodes eq_refl x Ib).
      rewrite store_key_variable in Sb by exact Nx.
      unfold after_promotion in Dx. destruct (promoted g1); [|congruence].
      cbn [with_table symbol_table] in Dx. unfold dict_in in Dx, Sb.
      rewrite dict_get_remove_other in Dx by exact Kx. congruence.
    + apply Forall_forall. intros x I. apply in_app_or in I as [I|I].
      * now apply Fb.
      * destruct (Fp x I) as [Px _]. unfold program_names.
        apply in_or_app. right. apply in_or_app. now left.
  - exists lb. repeat split; auto.
    apply Forall_forall. intros x I. now apply Fb.
Qed.

Lemma provider_asked_once_witness :
  exists calls,
    oracle_calls (snd (parse_then_emit scenario_two
                         (globals_with (Some (always "int")))))
    = calls /\ NoDup calls.
Proof.
  destruct (provider_asked_once scenario_two
              (globals_with (Some (always "int")))) as (calls & C & U & _).
  - simpl. intros [H|[H|[H|[]]]]; discriminate.
  - simpl. tauto.
  - exists calls. split; [exact C | exact U].
Defined.

(** ** The first return decides *)

(** [p_statement_return] on a literal, met while the reserved key has no
    type. *)
Lemma p_statement_return_infers (v : pyval) (t : string) (g : globals) :
  infer_type v = Some t ->
  dict_in return_key (symbol_table g) = false ->
  p_statement_return v g
  = (Ok (NReturn v),
     mkGlobals (dict_set (symbol_table g) return_key t) true
               (type_provider g) (oracle_calls g)).
Proof.
  intros I D. unfold p_statement_return.
  unfold bind at 1. unfold set_has_return at 1.
  unfold bind at 1. unfold get_table at 1. cbn [symbol_table].
  rewrite D, I. reflexivity.
Qed.

(** Statements without a [return] that name no variable as the reserved key
    leave the reserved key without a type. *)
Lemma no_return_no_key (before : list statement) (g gm : globals)
  (nodes : list node) :
  ~ In return_key (body_ids before) ->
  body_returns before = false ->
  dict_in return_key (symbol_table g) = false ->
  p_stmt_list before g = (Ok nodes, gm) ->
  dict_in return_key (symbol_table gm) = false /\
  type_provider gm = type_provider g.
Proof.
  intros NK BR D B.
  pose proof (frames_p_stmt_list before g) as F.
  unfold frames_at in F. rewrite B in F. cbn [snd] in F.
  destruct F as (P & _ & _ & W & _). split; [|exact P].
  apply dict_in_false. rewrite W; [now apply dict_in_false | |].
  - intros K. apply NK. now apply body_targets_ids.
  - right. unfold body_keys. rewrite BR, app_nil_r. exact NK.
Qed.

(** The names of a statement with a body are those of its header and those
    of its body. *)
Lemma encloses_ids (s : statement) (body : list statement) (k : string) :
  encloses s body ->
  In k (header_ids s) \/ In k (body_ids body) -> In k (statement_ids s).
Proof.
  intros E H. destruct E as [c body|c body|init c update body];
    cbn [statement_ids header_ids] in *; fold (body_ids body).
  - apply in_or_app. exact H.
  - apply in_or_app. exact H.
  - destruct H as [H|H].
    + apply in_app_or in H as [H|H]; [apply in_or_app; now left|].
      apply in_or_app. right.
      apply in_app_or in H as [H|H]; apply in_or_app; [now left|].
      right. apply in_or_app. now left.
    + apply in_or_app. right. apply in_or_app. right.
      apply in_or_app. now right.
Qed.

Lemma body_ids_place (before after : list statement) (s : statement)
  (k : string) :
  In k (body_ids before) \/ In k (statement_ids s) \/ In k (body_ids after) ->
  In k (body_ids (before ++ s :: after)).
Proof.
  unfold body_ids. rewrite flat_map_app. cbn [flat_map]. intros H.
  apply in_or_app. destruct H as [H|[H|H]]; [now left | right..];
    apply in_or_app; auto.
Qed.

(** The names of the first [return] are names of the body. *)
Lemma first_return_ids (r : statement) (body : list statement) (k : string) :
  first_return r body -> In k (statement_ids r) -> In k (body_ids body).
Proof.
  intros FR K.
  induction FR as [before after BR|before s body after BR E FR IH];
    apply body_ids_place; right; left; [exact K|].
  apply (encloses_ids s body k E). now right.
Qed.

(** The first [return] of a body in which no variable is named as the
    reserved key is parsed while the reserved key has no type, with the
    provider the parse started with; the type it leaves under the reserved
    key and the flag it raises are there at the end of the body. *)
Lemma first_return_place (r : statement) (body : list statement) :
  first_return r body ->
  ~ In return_key (body_ids body) ->
  forall g g' nodes,
    dict_in return_key (symbol_table g) = false ->
    p_stmt_list body g = (Ok nodes, g') ->
    exists gm n0 g2,
      dict_in return_key (symbol_table gm) = false /\
      type_provider gm = type_provider g /\
      p_statement r gm = (Ok n0, g2) /\
      (forall t, dict_get (symbol_table g2) return_key = Some t ->
                 dict_get (symbol_table g') return_key = Some t) /\
      (has_return g2 = true -> has_return g' = true).
Proof.
  intros FR.
  induction FR as [before after BR|before s body after BR E FR IH];
    intros NK g g' nodes D H;
    apply p_stmt_list_place in H as (n1 & gm & n0 & g2 & n2 & B1 & S & A);
    assert (NKb : ~ In return_key (body_ids before))
      by (intros K; apply NK, body_ids_place; now left);
    assert (NKa : ~ In return_key (body_targets after))
      by (intros K; apply NK, body_ids_place; right; right;
          now apply body_targets_ids);
    destruct (no_return_no_key before g gm n1 NKb BR D B1) as [Dm Pm];
    assert (KA : forall t, dict_get (symbol_table g2) return_key = Some t ->
                           dict_get (symbol_table g') return_key = Some t)
      by (intros t G; exact (p_stmt_list_keeps after g2 g' n2 _ _ A NKa G));
    assert (RA : has_return g2 = true -> has_return g' = true)
      by (intros R; pose proof (proj2 (grows_p_stmt_list after g2) R) as R';
          now rewrite A in R').
  - exists gm, n0, g2. auto.
  - apply (encloses_inv s body gm g2 n0 E) in S as (g0 & ns & B & _ & P0 & W).
    destruct (IH (fun K => NK (body_ids_place before after s _
                                 (or_intror (or_introl
                                    (encloses_ids s body _ E (or_intror K))))))
                 g0 g2 ns) as (gr & nr & g3 & Dr & Pr & Sr & Kr & Rr);
      [|exact B|].
    + apply dict_in_false. rewrite W; [now apply dict_in_false|].
      intros K. apply NK, body_ids_place. right. left.
      apply (encloses_ids s body _ E). now left.
    + exists gr, nr, g3. split; [exact Dr|]. split; [congruence|].
      split; [exact Sr|]. split; auto.
Qed.

(** The first [return] of a body, when it returns an identifier or an
    expression whose text has no literal shape: the parse has asked the
    provider for [function_return_type], and its answer, stripped, is the
    return type of the function.  This is the first [return] as C9 has it,
    in a function no variable of which is named as the reserved key. *)
Lemma first_return_asks (code : function_def) (r : statement) (y : string)
  (g g' : globals) (ast : list node) :
  r = StReturnId y \/ (exists e, r = StReturnExpr e /\ y = expression_text e) ->
  infer_type (PStr y) = None ->
  first_return r (fn_body code) ->
  ~ In return_key (body_ids (fn_body code)) ->
  parse_code code g = (Ok ast, g') ->
  exists p answer nodes,
    type_provider g = Some p /\
    p "function_return_type" valid_dtypes = inr answer /\
    mem (strip answer) valid_dtypes = true /\
    ast = [NFunction (fn_name code) (fn_params code) nodes (strip answer)].
Proof.
  intros Hr I FR NK H.
  apply parse_code_inv in H as (nodes & g1 & B & _ & ->).
  destruct (first_return_place r (fn_body code) FR NK (reset_globals g) g1
              nodes eq_refl B) as (gm & n0 & g2 & Dm & Pm & S & KA & RA).
  cbn [reset_globals type_provider] in Pm.
  assert (R : exists gr, dict_in return_key (symbol_table gr) = false /\
                         type_provider gr = type_provider g /\
                         p_statement_return (PStr y) gr = (Ok n0, g2)).
  { destruct Hr as [->|(e & -> & ->)]; cbn [p_statement] in S.
    - exists gm. auto.
    - apply bind_inv_ok in S as (text & ge & E & S).
      pose proof (p_expression_text e gm ge text E) as ->.
      exists ge. split; [|split; [|exact S]].
      + pose proof (frames_at_untouched _ _ _ gm
                      (frames_p_expression false [] (expression_ids e) e
                         (incl_refl _) gm)) as (_ & _ & W).
        rewrite E in W. cbn [snd] in W.
        apply dict_in_false. rewrite W; [now apply dict_in_false | intros [] |].
        intros K. apply NK.
        apply (first_return_ids (StReturnExpr e) (fn_body code) _ FR). exact K.
      + pose proof (frames_p_expression false [] (expression_ids e) e
                      (incl_refl _) gm) as (P & _).
        rewrite E in P. cbn [snd] in P. congruence. }
  destruct R as (gr & Dr & Pr & Sr).
  rewrite (p_statement_return_asks (PStr y) gr I Dr), ask_type_eq in Sr.
  cbn [type_provider] in Sr. rewrite Pr in Sr.
  destruct (type_provider g) as [p|]; [|discriminate].
  destruct (p "function_return_type" valid_dtypes) as [e|answer] eqn:A;
    [discriminate|].
  destruct (mem (strip answer) valid_dtypes) eqn:V; [|discriminate].
  inversion Sr. subst g2.
  exists p, answer, nodes. repeat split; auto.
  f_equal. f_equal. unfold promoted_type.
  rewrite (KA (strip answer)), RA; [reflexivity | reflexivity |].
  cbn. apply dict_get_set_same.
Qed.

(** X13.  The return type of a function is decided by its first [return],
    in the order of the text and at any depth of nesting: when that [return]
    returns a numeric literal, the function's return type is the type of the
    literal ([int] or [float]), whatever the statements after it return.  It
    holds when no variable of the body is named as the reserved key. *)
Theorem first_return_decides (code : function_def) (n : number)
  (g g' : globals) (ast : list node) :
  first_return (StReturnNumber n) (fn_body code) ->
  ~ In return_key (body_ids (fn_body code)) ->
  parse_code code g = (Ok ast, g') ->
  exists nodes,
    ast = [NFunction (fn_name code) (fn_params code) nodes (number_type n)].
Proof.
  intros FR NK H.
  apply parse_code_inv in H as (nodes & g1 & B & _ & ->).
  exists nodes. f_equal. f_equal.
  destruct (first_return_place _ (fn_body code) FR NK (reset_globals g) g1
              nodes eq_refl B) as (gm & n0 & g2 & Dm & _ & S & KA & RA).
  cbn [p_statement] in S.
  rewrite (p_statement_return_infers _ (number_type n) gm
             (infer_type_number n) Dm) in S.
  inversion S. subst g2. unfold promoted_type.
  rewrite (KA (number_type n)), RA; [reflexivity | reflexivity |].
  cbn. apply dict_get_set_same.
Qed.

Lemma first_return_decides_witness :
  exists nodes,
    fst (parse_code nested_first_return initial_globals)
    = Ok [NFunction "f" [] nodes "int"].
Proof.
  destruct (first_return_decides nested_first_return (NumInt 1)
              initial_globals
              (snd (parse_code nested_first_return initial_globals))
              [NFunction "f" []
                 [NAssign (AssignNode "x" "1");
                  NIf "x < 2" [NReturn (PInt 1)];
                  NReturn (PFloat "2.5")] "int"])
    as [nodes E].
  - apply (first_inside (StReturnNumber (NumInt 1))
             [StAssignNumber "x" (NumInt 1)]
             (StIf (Condition (ExprTerm (TermFactor (FactorId "x"))) LT
                      (ExprTerm (TermFactor (FactorNumber (NumInt 2)))))
                [StReturnNumber (NumInt 1)])
             [StReturnNumber (NumInt 1)]
             [StReturnNumber (NumFloat "2.5")]).
    + reflexivity.
    + constructor.
    + apply (first_here (StReturnNumber (NumInt 1)) [] []). reflexivity.
  - simpl. unfold return_key. intros [H|[H|[]]]; discriminate.
  - reflexivity.
  - exists nodes. cbn. now rewrite E.
Defined.

(** ** Loop headers *)

(** X14.  The assignment in the header of a [for] loop, as its start or as
    its update, gives types as the assignment statement of the same text
    does: for a numeric literal and for an identifier on the right-hand side
    the two leave the same globals, make the same calls of the provider and
    fail with the same exception; the node of the header holds the same
    variable and the same text. *)
Theorem loop_header_assigns_like_statement (x : string) (g : globals) :
  (forall n,
     p_for_init_opt (ForNumber x n) g = p_for_update_opt (ForNumber x n) g /\
     snd (p_for_init_opt (ForNumber x n) g)
     = snd (p_statement (StAssignNumber x n) g) /\
     fst (p_for_init_opt (ForNumber x n) g)
     = Ok (Some (AssignNode x (py_str (number_value n))))) /\
  (forall y,
     p_for_init_opt (ForId x y) g = p_for_update_opt (ForId x y) g /\
     snd (p_for_init_opt (ForId x y) g) = snd (p_statement (StAssignId x y) g) /\
     (forall e, fst (p_for_init_opt (ForId x y) g) = Raise e <->
                fst (p_statement (StAssignId x y) g) = Raise e) /\
     (forall a, fst (p_for_init_opt (ForId x y) g) = Ok a ->
                a = Some (AssignNode x y))).
Proof.
  split.
  - intros n. split; [reflexivity|].
    cbn [p_for_init_opt p_statement]. unfold for_assign_action, bind.
    rewrite !handle_assignment_number. split; reflexivity.
  - intros y. split; [reflexivity|].
    cbn [p_for_init_opt p_statement]. unfold for_assign_action, bind.
    assert (E : handle_assignment x (PStr y) (for_is_expr (PStr y)) g
                = handle_assignment x (PStr y) false g).
    { cbn [for_is_expr]. destruct (isidentifier y) eqn:I; [reflexivity|].
      rewrite !handle_assignment_text; [reflexivity | |];
        rewrite I; apply andb_false_r. }
    rewrite E.
    assert (V : forall r g1, handle_assignment x (PStr y) false g = (Ok r, g1) ->
                             r = y).
    { intros r g1 H. unfold handle_assignment in H.
      apply bind_inv_ok in H as (u & g2 & _ & H). now inversion H. }
    destruct (handle_assignment x (PStr y) false g) as [[r|e] g1] eqn:H;
      cbn [fst snd]; repeat split; try discriminate; auto.
    + intros a Ha. inversion Ha. now rewrite (V r g1 eq_refl).
    + intros K. inversion K. reflexivity.
    + intros K. inversion K. reflexivity.
Qed.
